(** * PookieDB: the in-memory document store of [src/index.js]

    A shallow embedding of the [Database] class (record store, per-field
    secondary index, query engine with result cache, snapshot load and save)
    and the properties of its specification.

    Modelling conventions.
    - A JavaScript value is a [Value]; nested objects and arrays are opaque
      references compared by identity, as [===] and [Map]/[Set] compare them.
    - A stored record is a finite map from property names to values: its
      own enumerable properties.  Records are plain objects (object literals,
      decoded maps, the results of a spread), so that reading a property that
      a record does not have reaches [Object.prototype].  A query object is
      kept as the list of its own properties in enumeration order, because
      [findByQuery] breaks ties by that order.
    - [Map] and [Set] are finite maps and finite sets; their iteration order
      is not modelled, so sequences obtained from them are compared up to
      permutation.
    - Every method is [async]; each one is modelled as run to completion on
      its own (the single-threaded cooperative regime), as a function from
      the database to a completion, the database afterwards and the effects
      emitted on the way.  A call of [save] that finds a save in flight runs
      to the point where that save has settled.
    - What the environment decides during one call (file-system outcomes,
      the clock, the generated uuid, the processor count, the relocation of
      object references by [postMessage]) is read from an [Oracle]. *)

From stdpp Require Import gmap strings list fin_maps pretty.

#[local] Set Warnings "-clear-no-such-hyp".

Local Open Scope string_scope.

(** ** JavaScript values *)

Inductive Value : Type :=
  | VUndefined
  | VNull
  | VBool (b : bool)
  | VNum (n : Z)          (* a finite number; no operation here does arithmetic on it *)
  | VNaN
  | VStr (s : string)
  | VObj (addr : nat).    (* an object, array or function, known by its address *)

#[global] Instance Value_eq_dec : EqDecision Value.
Proof. solve_decision. Defined.

Definition Value_to_sum (v : Value) : unit + (unit + (bool + (Z + (unit + (string + nat))))) :=
  match v with
  | VUndefined => inl tt
  | VNull => inr (inl tt)
  | VBool b => inr (inr (inl b))
  | VNum n => inr (inr (inr (inl n)))
  | VNaN => inr (inr (inr (inr (inl tt))))
  | VStr s => inr (inr (inr (inr (inr (inl s)))))
  | VObj a => inr (inr (inr (inr (inr (inr a)))))
  end.

Definition Value_of_sum (x : unit + (unit + (bool + (Z + (unit + (string + nat)))))) : Value :=
  match x with
  | inl _ => VUndefined
  | inr (inl _) => VNull
  | inr (inr (inl b)) => VBool b
  | inr (inr (inr (inl n))) => VNum n
  | inr (inr (inr (inr (inl _)))) => VNaN
  | inr (inr (inr (inr (inr (inl s))))) => VStr s
  | inr (inr (inr (inr (inr (inr a))))) => VObj a
  end.

#[global] Instance Value_countable : Countable Value.
Proof.
  apply (inj_countable' Value_to_sum Value_of_sum).
  intros []; reflexivity.
Defined.

(** [ToBoolean]: what [||] and [!] test. *)
Definition truthy (v : Value) : bool :=
  match v with
  | VUndefined | VNull | VNaN => false
  | VBool b => b
  | VNum n => negb (n =? 0)%Z
  | VStr s => negb (String.eqb s "")
  | VObj _ => true
  end.

(** [a === b].  [Map] and [Set] use SameValueZero instead, which is Leibniz
    equality on [Value]; the two differ on [NaN] only. *)
Definition strict_eq (a b : Value) : bool :=
  match a with
  | VNaN => false
  | _ => bool_decide (a = b)
  end.

(** A value that [postMessage] copies by value. *)
Definition primitive (v : Value) : bool :=
  match v with
  | VObj _ => false
  | _ => true
  end.

(** The structured clone of a value, [ρ] giving the address of the copy of
    each object. *)
Definition structuredClone (ρ : nat → nat) (v : Value) : Value :=
  match v with
  | VObj a => VObj (ρ a)
  | _ => v
  end.

(** ** Objects *)

(** A record: own enumerable properties. *)
Abbreviation Obj := (gmap string Value).

(** [Object.entries(obj)] *)
Definition Object_entries (obj : Obj) : list (string * Value) :=
  map_to_list obj.

(** A query object, as its own properties in enumeration order. *)
Definition Query : Type := list (string * Value).

(** [Object.keys(query)] *)
Definition Object_keys (query : Query) : list string := query.*1.

(** [query[key]] *)
Fixpoint query_prop (query : Query) (key : string) : Value :=
  match query with
  | [] => VUndefined
  | (k, v) :: rest => if decide (k = key) then v else query_prop rest key
  end.

(** ** The secondary index: field name -> (field value -> set of ids) *)

Abbreviation ValueMap := (gmap Value (gset Value)).
Abbreviation Index := (gmap string (gmap Value (gset Value))).

(** [if (!indexes.has(key)) indexes.set(key, new Map())] *)
Definition ensure_key (key : string) (indexes : Index) : Index :=
  match indexes !! key with
  | Some _ => indexes
  | None => <[key := ∅]> indexes
  end.

(** [if (!indexes.get(key).has(value)) indexes.get(key).set(value, new Set())] *)
Definition ensure_value (key : string) (value : Value) (indexes : Index) : Index :=
  match indexes !! key with
  | Some valueMap =>
      match valueMap !! value with
      | Some _ => indexes
      | None => <[key := <[value := ∅]> valueMap]> indexes
      end
  | None => indexes
  end.

(** [indexes.get(key).get(value).add(id)] *)
Definition add_id (key : string) (value id : Value) (indexes : Index) : Index :=
  match indexes !! key with
  | Some valueMap =>
      match valueMap !! value with
      | Some ids => <[key := <[value := {[id]} ∪ ids]> valueMap]> indexes
      | None => indexes
      end
  | None => indexes
  end.

(** The three statements that [create], [update], [buildIndexChunk] run for
    one (key, value) entry of the record [id]. *)
Definition index_add (id : Value) (indexes : Index) (entry : string * Value) : Index :=
  let '(key, value) := entry in
  add_id key value id (ensure_value key value (ensure_key key indexes)).

(** [const indexMap = indexes.get(key);
     if (indexMap?.has(value)) indexMap.get(value).delete(id)] *)
Definition index_remove (id : Value) (indexes : Index) (entry : string * Value) : Index :=
  let '(key, value) := entry in
  match indexes !! key with
  | Some indexMap =>
      match indexMap !! value with
      | Some ids => <[key := <[value := ids ∖ {[id]}]> indexMap]> indexes
      | None => indexes
      end
  | None => indexes
  end.

(** [indexes.get(key)?.get(value)] *)
Definition index_get (indexes : Index) (key : string) (value : Value) : option (gset Value) :=
  indexes !! key ≫= λ valueMap, valueMap !! value.

(** The ids filed under (key, value); empty when there is no such entry. *)
Definition ids_at (indexes : Index) (key : string) (value : Value) : gset Value :=
  default ∅ (index_get indexes key value).

(** ** Completions, effects and the environment *)

(** A thrown value; [err_code] is its [code] property when it has one. *)
Record Error : Type := mkError {
  err_code : option string;
  err_message : string;
}.

(** How a call ends: it returns (the promise is fulfilled) or it throws
    (the promise is rejected). *)
Inductive Completion (A : Type) : Type :=
  | Return (a : A)
  | Throw (e : Error).
Arguments Return {A} a.
Arguments Throw {A} e.

(** A [Buffer]: file contents. *)
Abbreviation Buffer := (list Byte.byte).

(** The calls that leave the process. *)
Inductive Effect : Type :=
  | ReadFile (path : string)
  | WriteFile (path : string) (content : Buffer)
  | Rename (src dst : string)
  | Unlink (path : string)
  | SetInterval (ms : N)
  | ConsoleError (msg : string) (e : Error).

(** The runtime and the pure library functions the class calls.  The
    conversion of a value to a string throws a [TypeError] on a value that
    has no primitive form, and [JSON.stringify] throws on a circular
    structure or a [BigInt]. *)
Class Host : Type := {
  intrinsic : string → nat;                              (* address of Object.prototype[name] *)
  String_of : Value → Completion string;                 (* `${value}` *)
  JSON_stringify : Query → Completion string;            (* JSON.stringify(query) *)
  path_resolve : string → string;                        (* path.resolve(__dirname, p) *)
  msgpack_encode : list Obj → Completion (Buffer);    (* msgpack.encode *)
  msgpack_decode : Buffer → Completion (list Obj);    (* msgpack.decode *)
}.

(** The property names of [Object.prototype], which every record
    inherits. *)
Definition Object_prototype_names : list string :=
  ["constructor"; "__defineGetter__"; "__defineSetter__"; "hasOwnProperty";
   "__lookupGetter__"; "__lookupSetter__"; "isPrototypeOf"; "propertyIsEnumerable";
   "toString"; "valueOf"; "__proto__"; "toLocaleString"].

(** What [obj[key]] reads on a record that has no own property [key]: the
    object that [Object.prototype] holds under that name, or [undefined]. *)
Definition inherited `{host : Host} (key : string) : Value :=
  if existsb (String.eqb key) Object_prototype_names
  then VObj (intrinsic key)
  else VUndefined.

(** [obj[key]] *)
Definition prop `{host : Host} (obj : Obj) (key : string) : Value :=
  match obj !! key with
  | Some value => value
  | None => inherited key
  end.

(** The [lru-cache] object: only [get] and [set] are ever called on it.
    [get] may reorder or purge entries, so it returns the cache too. *)
Class ResultCache (C : Type) : Type := {
  cache_new : N → N → C;                                 (* new LRUCache({ max, ttl }) *)
  cache_get : Z → string → C → option (list Obj) * C;    (* at a time, cache.get(key) *)
  cache_set : Z → string → list Obj → C → C;             (* at a time, cache.set(key, v) *)
}.

(** What the environment decides during one call of a method. *)
Record Oracle : Type := mkOracle {
  os_cpus : nat;                          (* require("os").cpus().length *)
  uuidv4 : string;                        (* the uuid generated, if one is *)
  Date_now : Z;                           (* the clock *)
  fs_readFile : Completion (Buffer);   (* outcome of fs.readFile *)
  fs_writeFile : Completion unit;         (* outcome of fs.writeFile *)
  fs_rename : Completion unit;            (* outcome of fs.rename *)
  fs_unlink : Completion unit;            (* outcome of fs.unlink *)
  inflight_save : Completion unit;        (* outcome of the save in flight, when one is joined *)
  reloc_in : nat → nat → nat;             (* worker i: address of the copy it receives *)
  reloc_out : nat → nat → nat;            (* worker i: address of the copy it sends back *)
}.

(** ** The database object *)

Record Options : Type := mkOptions {
  opt_cacheSize : option N;
  opt_cacheTTL : option N;
  opt_batchSize : option N;
  opt_saveInterval : option N;
}.

(** [options.x || d] on an optional number. *)
Definition or_default (x : option N) (d : N) : N :=
  match x with
  | Some n => if (n =? 0)%N then d else n
  | None => d
  end.

Record Database (C : Type) : Type := mkDatabase {
  schema : string;
  data : gmap Value Obj;
  indexes : Index;
  cache : C;
  pendingWrites : gmap Value Obj;
  batchSize : N;
  saveInterval : N;
  lastSave : Z;
  isInitialized : bool;
  workerPool : nat;          (* the workers are interchangeable: only the length is read *)
  savePromise : bool;        (* is a save in flight *)
  dirty : bool;
}.
Arguments mkDatabase {C}.
Arguments schema {C}.
Arguments data {C}.
Arguments indexes {C}.
Arguments cache {C}.
Arguments pendingWrites {C}.
Arguments batchSize {C}.
Arguments saveInterval {C}.
Arguments lastSave {C}.
Arguments isInitialized {C}.
Arguments workerPool {C}.
Arguments savePromise {C}.
Arguments dirty {C}.

Section Assignments.
Context {C : Type}.
Implicit Types db : Database C.

Definition set_data (x : gmap Value Obj) db : Database C :=
  mkDatabase (schema db) x (indexes db) (cache db) (pendingWrites db) (batchSize db)
    (saveInterval db) (lastSave db) (isInitialized db) (workerPool db) (savePromise db) (dirty db).
Definition set_indexes (x : Index) db : Database C :=
  mkDatabase (schema db) (data db) x (cache db) (pendingWrites db) (batchSize db)
    (saveInterval db) (lastSave db) (isInitialized db) (workerPool db) (savePromise db) (dirty db).
Definition set_cache (x : C) db : Database C :=
  mkDatabase (schema db) (data db) (indexes db) x (pendingWrites db) (batchSize db)
    (saveInterval db) (lastSave db) (isInitialized db) (workerPool db) (savePromise db) (dirty db).
Definition set_lastSave (x : Z) db : Database C :=
  mkDatabase (schema db) (data db) (indexes db) (cache db) (pendingWrites db) (batchSize db)
    (saveInterval db) x (isInitialized db) (workerPool db) (savePromise db) (dirty db).
Definition set_isInitialized (x : bool) db : Database C :=
  mkDatabase (schema db) (data db) (indexes db) (cache db) (pendingWrites db) (batchSize db)
    (saveInterval db) (lastSave db) x (workerPool db) (savePromise db) (dirty db).
Definition set_workerPool (x : nat) db : Database C :=
  mkDatabase (schema db) (data db) (indexes db) (cache db) (pendingWrites db) (batchSize db)
    (saveInterval db) (lastSave db) (isInitialized db) x (savePromise db) (dirty db).
Definition set_savePromise (x : bool) db : Database C :=
  mkDatabase (schema db) (data db) (indexes db) (cache db) (pendingWrites db) (batchSize db)
    (saveInterval db) (lastSave db) (isInitialized db) (workerPool db) x (dirty db).
Definition set_dirty (x : bool) db : Database C :=
  mkDatabase (schema db) (data db) (indexes db) (cache db) (pendingWrites db) (batchSize db)
    (saveInterval db) (lastSave db) (isInitialized db) (workerPool db) (savePromise db) x.
End Assignments.

(** ** The monad of method bodies *)

Record Outcome (C A : Type) : Type := mkOutcome {
  completion : Completion A;     (* how the call ended *)
  after : Database C;            (* the object when it ended *)
  effects : list Effect;         (* what it did outside, in order *)
}.
Arguments mkOutcome {C A}.
Arguments completion {C A}.
Arguments after {C A}.
Arguments effects {C A}.

Definition Async (C A : Type) : Type := Database C → Outcome C A.

Section Monad.
Context {C : Type}.

Definition ret {A} (a : A) : Async C A :=
  λ db, mkOutcome (Return a) db [].

Definition throw {A} (e : Error) : Async C A :=
  λ db, mkOutcome (Throw e) db [].

Definition bind {A B} (m : Async C A) (k : A → Async C B) : Async C B :=
  λ db,
    match m db with
    | mkOutcome (Return a) db1 evs1 =>
        match k a db1 with
        | mkOutcome c db2 evs2 => mkOutcome c db2 (evs1 ++ evs2)
        end
    | mkOutcome (Throw e) db1 evs1 => mkOutcome (Throw e) db1 evs1
    end.

(** [this] *)
Definition this : Async C (Database C) :=
  λ db, mkOutcome (Return db) db [].

(** An assignment to a field of [this]. *)
Definition assign (f : Database C → Database C) : Async C unit :=
  λ db, mkOutcome (Return tt) (f db) [].

(** A call that leaves the process, with the outcome the oracle gives it. *)
Definition perform {A} (ev : Effect) (outcome : Completion A) : Async C A :=
  λ db, mkOutcome outcome db [ev].

(** A pure call that may throw. *)
Definition call {A} (outcome : Completion A) : Async C A :=
  λ db, mkOutcome outcome db [].

(** [try { m } catch (err) { handler err }] *)
Definition try_catch {A} (m : Async C A) (handler : Error → Async C A) : Async C A :=
  λ db,
    match m db with
    | mkOutcome (Return a) db1 evs1 => mkOutcome (Return a) db1 evs1
    | mkOutcome (Throw e) db1 evs1 =>
        match handler e db1 with
        | mkOutcome c db2 evs2 => mkOutcome c db2 (evs1 ++ evs2)
        end
    end.

(** [try { m } finally { fin }] *)
Definition try_finally {A} (m : Async C A) (fin : Async C unit) : Async C A :=
  λ db,
    match m db with
    | mkOutcome c db1 evs1 =>
        match fin db1 with
        | mkOutcome (Return _) db2 evs2 => mkOutcome c db2 (evs1 ++ evs2)
        | mkOutcome (Throw e) db2 evs2 => mkOutcome (Throw e) db2 (evs1 ++ evs2)
        end
    end.
End Monad.

Notation "'let*' x ':=' m 'in' k" := (bind m (λ x, k))
  (at level 10, x name, m at level 100, k at level 200).
Notation "m ';;' k" := (bind m (λ _, k))
  (at level 100, k at level 200, right associativity).

(** ** The methods of [Database] *)

(** [array.slice(from, to)] *)
Definition slice {A} (from to : nat) (l : list A) : list A :=
  take (to - from) (drop from l).

(** [Math.ceil(a / b)] for [b > 0]. *)
Definition ceil_div (a b : nat) : nat := (a + b - 1) / b.

(** [postMessage] of a chunk of [data.entries()]: ids and field values are
    cloned. *)
Definition clone_chunk (ρ : nat → nat) (chunk : list (Value * Obj)) : list (Value * Obj) :=
  (λ e : Value * Obj, (structuredClone ρ e.1, structuredClone ρ <$> e.2)) <$> chunk.

(** The worker script's [buildIndexChunk(data)]. *)
Definition buildIndexChunk (chunk : list (Value * Obj)) : Index :=
  foldl (λ indexes (e : Value * Obj), foldl (index_add e.1) indexes (Object_entries e.2)) ∅ chunk.

(** [postMessage([...indexes])]: an array of [key, Map] pairs, the keys of
    each inner map and the members of each set cloned. *)
Definition clone_valueMap (ρ : nat → nat) (valueMap : ValueMap) : ValueMap :=
  list_to_map
    ((λ e : Value * gset Value, (structuredClone ρ e.1, set_map (structuredClone ρ) e.2))
       <$> map_to_list valueMap).

Definition clone_indexes (ρ : nat → nat) (indexes : Index) : list (string * ValueMap) :=
  (λ e : string * ValueMap, (e.1, clone_valueMap ρ e.2)) <$> map_to_list indexes.

(** The merge loop of [buildIndexes] for one [value, ids] pair. *)
Definition merge_ids (key : string) (indexes : Index) (e : Value * gset Value) : Index :=
  foldl (λ indexes id, add_id key e.1 id indexes)
        (ensure_value key e.1 indexes) (elements e.2).

(** ... for one [key, valueMap] pair ... *)
Definition merge_valueMap (indexes : Index) (e : string * ValueMap) : Index :=
  foldl (merge_ids e.1) (ensure_key e.1 indexes) (map_to_list e.2).

(** ... and for the message of one worker. *)
Definition merge_worker (indexes : Index) (workerIndexes : list (string * ValueMap)) : Index :=
  foldl merge_valueMap indexes workerIndexes.

(** What worker [i] answers to the chunk sent to it. *)
Definition worker_reply (o : Oracle) (i : nat) (chunk : list (Value * Obj))
    : list (string * ValueMap) :=
  clone_indexes (reloc_out o i) (buildIndexChunk (clone_chunk (reloc_in o i) chunk)).

(** The synchronous part of [buildIndexes], from [dataArray] and the number
    of workers to the new [this.indexes]. *)
Definition build_indexes_from (o : Oracle) (workers : nat) (dataArray : list (Value * Obj)) : Index :=
  let chunkSize := ceil_div (length dataArray) workers in
  let chunks := (λ i, slice (i * chunkSize) ((i + 1) * chunkSize) dataArray) <$> seq 0 workers in
  let results := imap (worker_reply o) chunks in
  foldl merge_worker ∅ results.

(** The loop of [findByQuery] that looks for the smallest matching set: one
    iteration, on the pair ([smallestSet], [smallestKey]). *)
Definition smallest_step (indexes : Index) (query : Query)
    (acc : option (gset Value) * option string) (key : string)
    : option (gset Value) * option string :=
  match index_get indexes key (query_prop query key) with
  | Some matchingIds =>
      match acc.1 with
      | None => (Some matchingIds, Some key)
      | Some smallestSet =>
          if (size matchingIds <? size smallestSet)%nat
          then (Some matchingIds, Some key)
          else acc
      end
  | None => acc
  end.

Definition smallest_matching (indexes : Index) (query : Query) (keys : list string)
    : option (gset Value) * option string :=
  foldl (smallest_step indexes query) (None, None) keys.

(** [keys.every((key) => obj[key] === query[key])] *)
Definition every_key_matches `{host : Host} (query : Query) (keys : list string) (obj : Obj)
    : bool :=
  forallb (λ key, strict_eq (prop obj key) (query_prop query key)) keys.

(** [Array.from(ids).map((id) => data.get(id)).filter((obj) => obj && p obj)] *)
Definition materialize (data : gmap Value Obj) (p : Obj → bool) (ids : gset Value) : list Obj :=
  omap (λ id, match data !! id with
              | Some obj => if p obj then Some obj else None
              | None => None
              end) (elements ids).

Section Methods.
Context `{host : Host} {C : Type} `{rc : ResultCache C}.

(** [new Database(schema, options)], at the time [now]. *)
Definition new_Database (now : Z) (schema : string) (options : Options) : Database C :=
  {| schema := schema;
     data := ∅;
     indexes := ∅;
     cache := cache_new (or_default (opt_cacheSize options) 50000)
                        (or_default (opt_cacheTTL options) (1000 * 60 * 5));
     pendingWrites := ∅;
     batchSize := or_default (opt_batchSize options) 5000;
     saveInterval := or_default (opt_saveInterval options) 5000;
     lastSave := now;
     isInitialized := false;
     workerPool := 0;
     savePromise := false;
     dirty := false |}.

Definition initWorkers (o : Oracle) : Async C unit :=
  let workerCount := Nat.max 1 (os_cpus o / 2) in
  assign (λ db, set_workerPool (workerPool db + workerCount) db).

Definition buildIndexes (o : Oracle) : Async C unit :=
  let* db := this in
  let dataArray := map_to_list (data db) in
  assign (set_indexes (build_indexes_from o (workerPool db) dataArray)).

Definition load (o : Oracle) : Async C unit :=
  try_catch
    (let* db := this in
     let filePath := path_resolve (schema db) in
     let* content := perform (ReadFile filePath) (fs_readFile o) in
     let* decodedData := call (msgpack_decode content) in
     assign (set_data (foldl (λ m item, <[prop item "id" := item]> m) ∅ decodedData)) ;;
     buildIndexes o)
    (λ err,
       if decide (err_code err = Some "ENOENT")
       then assign (set_data ∅)
       else throw err).

(** [return this.savePromise]: the caller resumes when the save in flight
    has run to its end, with the outcome the environment gives that save,
    after its assignments and its [finally].  The file-system calls of that
    save are the effects of the call that started it. *)
Definition join_inflight (o : Oracle) : Async C unit :=
  try_finally
    (call (inflight_save o) ;;
     assign (set_dirty false) ;;
     assign (set_lastSave (Date_now o)))
    (assign (set_savePromise false)).

Definition save (o : Oracle) : Async C unit :=
  let* db := this in
  if savePromise db then join_inflight o
  else
    assign (set_savePromise true) ;;
    try_finally
      (let tmpPath := schema db +:+ ".tmp" in
       let dataArray := (map_to_list (data db)).*2 in
       try_catch
         (let* packedData := call (msgpack_encode dataArray) in
          perform (WriteFile (path_resolve tmpPath) packedData) (fs_writeFile o) ;;
          perform (Rename (path_resolve tmpPath) (path_resolve (schema db))) (fs_rename o) ;;
          assign (set_dirty false) ;;
          assign (set_lastSave (Date_now o)))
         (λ err,
            perform (ConsoleError "Error saving data:" err) (Return tt) ;;
            try_catch (perform (Unlink (path_resolve tmpPath)) (fs_unlink o))
                      (λ _, ret tt) ;;
            throw err))
      (assign (set_savePromise false)).

(** One tick of the timer set by [startAutoSave]. *)
Definition autoSave_tick (o : Oracle) : Async C unit :=
  let* db := this in
  if dirty db && negb (savePromise db) then save o else ret tt.

Definition startAutoSave : Async C unit :=
  let* db := this in
  perform (SetInterval (saveInterval db)) (Return tt).

Definition init (o : Oracle) : Async C unit :=
  let* db := this in
  if isInitialized db then ret tt
  else
    initWorkers o ;;
    load o ;;
    startAutoSave ;;
    assign (set_isInitialized true).

Definition create (o : Oracle) (obj : Obj) : Async C Obj :=
  init o ;;
  let id := if truthy (prop obj "id") then prop obj "id" else VStr (uuidv4 o) in
  let obj := <["id" := id]> obj in
  assign (λ db, set_data (<[id := obj]> (data db)) db) ;;
  assign (set_dirty true) ;;
  assign (λ db, set_indexes (foldl (index_add id) (indexes db) (Object_entries obj)) db) ;;
  let* db := this in
  (if (N.of_nat (size (data db)) mod batchSize db =? 0)%N then save o else ret tt) ;;
  ret obj.

Definition read (o : Oracle) : Async C (list Obj) :=
  init o ;;
  let* db := this in
  ret (map_to_list (data db)).*2.

(** [update] returns [null] for an unknown id: [None] here. *)
Definition update (o : Oracle) (id : Value) (updates : Obj) : Async C (option Obj) :=
  init o ;;
  let* db := this in
  match data db !! id with
  | None => ret None
  | Some existingObj =>
      assign (λ db, set_indexes
                      (foldl (index_remove id) (indexes db) (Object_entries existingObj)) db) ;;
      let updatedObj := updates ∪ existingObj in
      assign (λ db, set_data (<[id := updatedObj]> (data db)) db) ;;
      assign (set_dirty true) ;;
      assign (λ db, set_indexes
                      (foldl (index_add id) (indexes db) (Object_entries updatedObj)) db) ;;
      ret (Some updatedObj)
  end.

Definition findByKey (o : Oracle) (key : string) (value : Value) : Async C (list Obj) :=
  init o ;;
  let* s := call (String_of value) in
  let cacheKey := key +:+ ":" +:+ s in
  let* db := this in
  let cached := cache_get (Date_now o) cacheKey (cache db) in
  assign (set_cache cached.2) ;;
  match cached.1 with
  | Some hit => ret hit
  | None =>
      match index_get (indexes db) key value with
      | None => ret []
      | Some ids =>
          let results := materialize (data db) (λ _, true) ids in
          assign (λ db, set_cache (cache_set (Date_now o) cacheKey results (cache db)) db) ;;
          ret results
      end
  end.

(** [findByQuery] once the cache has missed. *)
Definition findByQuery_miss (o : Oracle) (cacheKey : string) (query : Query)
    : Async C (list Obj) :=
  let* db := this in
  let keys := Object_keys query in
  if (length keys =? 0)%nat then ret []
  else
    match (smallest_matching (indexes db) query keys).1 with
    | None => ret []
    | Some smallestSet =>
        let results := materialize (data db) (every_key_matches query keys) smallestSet in
        assign (λ db, set_cache (cache_set (Date_now o) cacheKey results (cache db)) db) ;;
        ret results
    end.

Definition findByQuery (o : Oracle) (query : Query) : Async C (list Obj) :=
  init o ;;
  let* s := call (JSON_stringify query) in
  let cacheKey := "query:" +:+ s in
  let* db := this in
  let cached := cache_get (Date_now o) cacheKey (cache db) in
  assign (set_cache cached.2) ;;
  match cached.1 with
  | Some hit => ret hit
  | None => findByQuery_miss o cacheKey query
  end.

(** [delete] *)
Definition delete_ (o : Oracle) (id : Value) : Async C bool :=
  init o ;;
  let* db := this in
  match data db !! id with
  | None => ret false
  | Some obj =>
      assign (λ db, set_indexes
                      (foldl (index_remove id) (indexes db) (Object_entries obj)) db) ;;
      assign (λ db, set_data (delete id (data db)) db) ;;
      assign (set_dirty true) ;;
      ret true
  end.
End Methods.

(** ** Sequences of calls *)

(** One call of a public method, or one tick of the autosave timer. *)
Inductive Operation : Type :=
  | Create (obj : Obj)
  | Read
  | Update (id : Value) (updates : Obj)
  | FindByKey (key : string) (value : Value)
  | FindByQuery (query : Query)
  | Delete (id : Value)
  | Save
  | AutoSave.

Section Steps.
Context `{host : Host} {C : Type} `{rc : ResultCache C}.

(** The object after the call, in the environment [o]. *)
Definition step (o : Oracle) (op : Operation) (db : Database C) : Database C :=
  match op with
  | Create obj => after (create o obj db)
  | Read => after (read o db)
  | Update id updates => after (update o id updates db)
  | FindByKey key value => after (findByKey o key value db)
  | FindByQuery query => after (findByQuery o query db)
  | Delete id => after (delete_ o id db)
  | Save => after (save o db)
  | AutoSave => after (autoSave_tick o db)
  end.

(** The objects that a sequence of calls, each run to completion, leads to
    from [db0]. *)
Inductive reachable (db0 : Database C) : Database C → Prop :=
  | reachable_start : reachable db0 db0
  | reachable_step db o op : reachable db0 db → reachable db0 (step o op db).
End Steps.

(** ** What the specification says, in the terms of the model *)

(** The id that [create] gives to [obj]: [obj.id || uuidv4()]. *)
Definition created_id `{host : Host} (o : Oracle) (obj : Obj) : Value :=
  if truthy (prop obj "id") then prop obj "id" else VStr (uuidv4 o).

(** The record that [create] stores for [obj]. *)
Definition created_obj `{host : Host} (o : Oracle) (obj : Obj) : Obj :=
  <["id" := created_id o obj]> obj.

(** The object after the three assignments of [create], before it looks at
    the batch size. *)
Definition created `{host : Host} {C} (o : Oracle) (obj : Obj) (db : Database C)
    : Database C :=
  set_indexes
    (foldl (index_add (created_id o obj)) (indexes db) (Object_entries (created_obj o obj)))
    (set_dirty true (set_data (<[created_id o obj := created_obj o obj]> (data db)) db)).

(** Every (field, value) pair of every stored record is filed under the key
    the record is stored at. *)
Definition index_complete (data : gmap Value Obj) (indexes : Index) : Prop :=
  ∀ id obj key value,
    data !! id = Some obj → obj !! key = Some value → id ∈ ids_at indexes key value.

(** Every id filed under (field, value) is the key of a stored record that
    holds that value at that field. *)
Definition index_sound (data : gmap Value Obj) (indexes : Index) : Prop :=
  ∀ key value id,
    id ∈ ids_at indexes key value → ∃ obj, data !! id = Some obj ∧ obj !! key = Some value.

Definition index_consistent {C} (db : Database C) : Prop :=
  index_complete (data db) (indexes db) ∧ index_sound (data db) (indexes db).

(** [obj] is a stored record. *)
Definition stored {C} (db : Database C) (obj : Obj) : Prop :=
  ∃ id, data db !! id = Some obj.

(** Field by field, [obj] equals every predicate's value under [===]. *)
Definition satisfies `{host : Host} (query : Query) (obj : Obj) : Prop :=
  ∀ key value, (key, value) ∈ query → strict_eq (prop obj key) value = true.

(** [results] holds exactly the stored records that satisfy [query]. *)
Definition exact_answer `{host : Host} {C} (db : Database C) (query : Query)
    (results : list Obj) : Prop :=
  ∀ obj, obj ∈ results ↔ stored db obj ∧ satisfies query obj.

(** No predicate asks for the value that a record without the field reads
    there: [undefined], or what [Object.prototype] holds under the name. *)
Definition asks_for_own_values `{host : Host} (query : Query) : Prop :=
  ∀ key value, (key, value) ∈ query → strict_eq (inherited key) value = false.

(** A query object: its property names are distinct, and it asks for own
    values. *)
Definition well_formed_query `{host : Host} (query : Query) : Prop :=
  NoDup query.*1 ∧ asks_for_own_values query.

(** The naive plan: the full conjunction of the predicates, tested on every
    stored record. *)
Definition full_conjunction_filter `{host : Host} (query : Query) (data : gmap Value Obj)
    : list Obj :=
  filter (λ obj, every_key_matches query (Object_keys query) obj) (map_to_list data).*2.

(** The (field, value, id) triples of a record sequence, in order. *)
Definition triples (records : list (Value * Obj)) : list (string * Value * Value) :=
  records ≫= λ e : Value * Obj, (λ kv, (kv, e.1)) <$> Object_entries e.2.

(** Inserting a sequence of (field, value, id) triples, one after the
    other. *)
Definition add_triples (indexes : Index) (ts : list (string * Value * Value)) : Index :=
  foldl (λ indexes t, index_add t.2 indexes t.1) indexes ts.

(** The index built by one sequential pass that inserts every triple. *)
Definition sequential_index (records : list (Value * Obj)) : Index :=
  add_triples ∅ (triples records).

(** The union, value by value, of a value map with a sequence of
    [value, ids] pairs: what the merge loop makes of one field. *)
Definition union_into (valueMap : ValueMap) (pairs : list (Value * gset Value)) : ValueMap :=
  foldl (λ valueMap e, <[e.1 := e.2 ∪ default ∅ (valueMap !! e.1)]> valueMap) valueMap pairs.

(** Ids and field values are all copied by value. *)
Definition primitive_records (records : list (Value * Obj)) : Prop :=
  ∀ id obj, (id, obj) ∈ records →
    primitive id = true ∧ ∀ key value, obj !! key = Some value → primitive value = true.

(** The same, as a test. *)
Definition primitive_recordsb (records : list (Value * Obj)) : bool :=
  forallb (λ e : Value * Obj,
             primitive e.1 && forallb (λ kv : string * Value, primitive kv.2) (Object_entries e.2))
          records.

(** [new Map(items.map((item) => [item.id, item]))], as [load] builds it:
    a later item replaces an earlier one with the same id. *)
Definition keyed `{host : Host} (items : list Obj) : gmap Value Obj :=
  foldl (λ m item, <[prop item "id" := item]> m) ∅ items.

(** The chunks that [buildIndexes] cuts [dataArray] into. *)
Definition chunks_of {A} (workers : nat) (dataArray : list A) : list (list A) :=
  (λ i, slice (i * ceil_div (length dataArray) workers)
              ((i + 1) * ceil_div (length dataArray) workers) dataArray) <$> seq 0 workers.

(** [save] fails with [e]: in its encode, its write or its rename. *)
Definition save_fails `{host : Host} {C} (o : Oracle) (db : Database C) (e : Error) : Prop :=
  msgpack_encode (map_to_list (data db)).*2 = Throw e ∨
  ((∃ packedData, msgpack_encode (map_to_list (data db)).*2 = Return packedData) ∧
   (fs_writeFile o = Throw e ∨ (fs_writeFile o = Return tt ∧ fs_rename o = Throw e))).

(** [save] gets through its encode, write and rename. *)
Definition save_succeeds `{host : Host} {C} (o : Oracle) (db : Database C) : Prop :=
  (∃ packedData, msgpack_encode (map_to_list (data db)).*2 = Return packedData) ∧
  fs_writeFile o = Return tt ∧ fs_rename o = Return tt.

(** The method body [m] leaves the component [f] of the object as it was. *)
Definition keeps {C A F} (f : Database C → F) (m : Async C A) : Prop :=
  ∀ db, f (after (m db)) = f db.

(** ** A host and a cache to run the model on examples *)

Definition quote : string := String (Ascii.ascii_of_nat 34) "".

Definition example_String_of (v : Value) : string :=
  match v with
  | VUndefined => "undefined"
  | VNull => "null"
  | VBool true => "true"
  | VBool false => "false"
  | VNum n => pretty n
  | VNaN => "NaN"
  | VStr s => s
  | VObj _ => "[object Object]"
  end.

(** [JSON.stringify] of a value: right on null, booleans, integers, NaN and
    strings that need no escape; a nested object is printed without its
    content, which [Value] does not hold. *)
Definition example_JSON_value (v : Value) : option string :=
  match v with
  | VUndefined => None
  | VNull | VNaN => Some "null"
  | VBool true => Some "true"
  | VBool false => Some "false"
  | VNum n => Some (pretty n)
  | VStr s => Some (quote +:+ s +:+ quote)
  | VObj _ => Some "{}"
  end.

Fixpoint join (sep : string) (l : list string) : string :=
  match l with
  | [] => ""
  | [s] => s
  | s :: rest => s +:+ sep +:+ join sep rest
  end.

Definition example_JSON_stringify (query : Query) : string :=
  "{" +:+ join "," (omap (λ e : string * Value,
                            (λ s, quote +:+ e.1 +:+ quote +:+ ":" +:+ s) <$> example_JSON_value e.2)
                         query) +:+ "}".

(** The codec is a stand-in: every record list packs into the empty buffer
    and every buffer unpacks into no record. *)
(** The place of a name in a list of names. *)
Fixpoint position (name : string) (names : list string) : nat :=
  match names with
  | [] => 0
  | n :: rest => if String.eqb name n then 0 else S (position name rest)
  end.

(** The functions of [Object.prototype] live at the addresses from 1000
    on. *)
Definition example_intrinsic (name : string) : nat :=
  (1000 + position name Object_prototype_names)%nat.

Definition example_host : Host :=
  {| intrinsic := example_intrinsic;
     String_of := λ v, Return (example_String_of v);
     JSON_stringify := λ query, Return (example_JSON_stringify query);
     path_resolve := λ p, "/srv/" +:+ p;
     msgpack_encode := λ _, Return [];
     msgpack_decode := λ _, Return [] |}.

(** A cache with a capacity and a time to live: the entries, most recently
    used first, each with the time it was set. *)
Record LruCache : Type := mkLruCache {
  lru_max : N;
  lru_ttl : N;
  lru_entries : list (string * (list Obj * Z));
}.

Definition lru_remove (key : string) (entries : list (string * (list Obj * Z)))
    : list (string * (list Obj * Z)) :=
  List.filter (λ e, negb (String.eqb e.1 key)) entries.

Definition lru_find (key : string) (entries : list (string * (list Obj * Z)))
    : option (list Obj * Z) :=
  snd <$> List.find (λ e, String.eqb e.1 key) entries.

Definition lru_get (now : Z) (key : string) (c : LruCache) : option (list Obj) * LruCache :=
  match lru_find key (lru_entries c) with
  | Some (v, start) =>
      if (Z.of_N (lru_ttl c) <? now - start)%Z
      then (None, mkLruCache (lru_max c) (lru_ttl c) (lru_remove key (lru_entries c)))
      else (Some v, mkLruCache (lru_max c) (lru_ttl c)
                      ((key, (v, start)) :: lru_remove key (lru_entries c)))
  | None => (None, c)
  end.

Definition lru_set (now : Z) (key : string) (v : list Obj) (c : LruCache) : LruCache :=
  mkLruCache (lru_max c) (lru_ttl c)
    (take (N.to_nat (lru_max c)) ((key, (v, now)) :: lru_remove key (lru_entries c))).

Definition example_cache : ResultCache LruCache :=
  {| cache_new := λ max ttl, mkLruCache max ttl [];
     cache_get := lru_get;
     cache_set := lru_set |}.

(** An environment in which every call succeeds and [postMessage] copies
    each object to the address 100 further. *)
Definition calm (uuid : string) (now : Z) : Oracle :=
  {| os_cpus := 4;
     uuidv4 := uuid;
     Date_now := now;
     fs_readFile := Throw (mkError (Some "ENOENT") "no such file or directory");
     fs_writeFile := Return tt;
     fs_rename := Return tt;
     fs_unlink := Return tt;
     inflight_save := Return tt;
     reloc_in := λ _ a, (a + 100)%nat;
     reloc_out := λ _ a, (a + 100)%nat |}.

(** An initialized, empty database with two workers. *)
Definition example_db : Database LruCache :=
  set_isInitialized true
    (set_workerPool 2
       (new_Database (rc:=example_cache) 0 "data.msgpack" (mkOptions None None None None))).

Definition record (id : string) (name : string) (age : Z) : Obj :=
  <["id" := VStr id]> (<["name" := VStr name]> (<["age" := VNum age]> ∅)).

(** A database just constructed, not yet initialized. *)
Definition example_new : Database LruCache :=
  new_Database (rc:=example_cache) 0 "data.msgpack" (mkOptions None None None None).

(** The store after [create({id: "a", name: "A", age: 25})]. *)
Definition db_a : Database LruCache :=
  after (create (host:=example_host) (calm "u1" 1) (record "a" "A" 25) example_db).

(** The query [{age: 25}]. *)
Definition query_age : Query := [("age", VNum 25)].

(** ... after [findByQuery({age: 25})], which caches its result ... *)
Definition db_cached : Database LruCache :=
  after (findByQuery (host:=example_host) (rc:=example_cache) (calm "" 2) query_age db_a).

(** ... and after [create({id: "b", name: "B", age: 25})]. *)
Definition db_ab : Database LruCache :=
  after (create (host:=example_host) (calm "u3" 3) (record "b" "B" 25) db_cached).

(** A record with a nested object as a field value. *)
Definition nested_record : Obj :=
  <["id" := VStr "a"]> (<["tags" := VObj 0]> ∅).

Definition nested_records : list (Value * Obj) :=
  [(VStr "a", nested_record)].

Definition two_records : list (Value * Obj) :=
  [(VStr "a", record "a" "A" 25); (VStr "b", record "b" "B" 25)].

(** The query [{age: NaN}]. *)
Definition query_nan : Query := [("age", VNaN)].

(** The queries [{nickname: undefined}] and
    [{toString: Object.prototype.toString}]. *)
Definition query_nickname : Query := [("nickname", VUndefined)].

Definition query_toString : Query := [("toString", VObj (example_intrinsic "toString"))].

(** A host on which an object has no primitive form and no JSON text. *)
Definition opaque_host : Host :=
  {| intrinsic := example_intrinsic;
     String_of := λ v, match v with
                       | VObj _ => Throw (mkError None "Cannot convert object to primitive value")
                       | _ => Return (example_String_of v)
                       end;
     JSON_stringify := λ query,
       if forallb (λ e : string * Value, primitive e.2) query
       then Return (example_JSON_stringify query)
       else Throw (mkError None "Converting circular structure to JSON");
     path_resolve := λ p, "/srv/" +:+ p;
     msgpack_encode := λ _, Return [];
     msgpack_decode := λ _, Return [] |}.

(** An initialized, empty database that saves at every record. *)
Definition example_db_batch1 : Database LruCache :=
  set_isInitialized true
    (set_workerPool 2
       (new_Database (rc:=example_cache) 0 "data.msgpack"
          (mkOptions None None (Some 1%N) None))).

(** An environment in which the temporary file cannot be written. *)
Definition disk_full : Oracle :=
  {| os_cpus := 4;
     uuidv4 := "u7";
     Date_now := 7;
     fs_readFile := Throw (mkError (Some "ENOENT") "no such file or directory");
     fs_writeFile := Throw (mkError (Some "ENOSPC") "no space left on device");
     fs_rename := Return tt;
     fs_unlink := Return tt;
     inflight_save := Return tt;
     reloc_in := λ _ a, a;
     reloc_out := λ _ a, a |}.

(** A host whose snapshot decodes to two records with the same id and a
    third one, and an environment in which the snapshot is read. *)
Definition snapshot_items : list Obj :=
  [record "a" "A" 25; record "b" "B" 25; record "a" "A" 30].

Definition snapshot_host : Host :=
  {| intrinsic := example_intrinsic;
     String_of := λ v, Return (example_String_of v);
     JSON_stringify := λ query, Return (example_JSON_stringify query);
     path_resolve := λ p, "/srv/" +:+ p;
     msgpack_encode := λ _, Return [];
     msgpack_decode := λ _, Return snapshot_items |}.

Definition readable : Oracle :=
  {| os_cpus := 4;
     uuidv4 := "";
     Date_now := 0;
     fs_readFile := Return [];
     fs_writeFile := Return tt;
     fs_rename := Return tt;
     fs_unlink := Return tt;
     inflight_save := Return tt;
     reloc_in := λ _ a, (a + 100)%nat;
     reloc_out := λ _ a, (a + 100)%nat |}.

(** An environment in which the snapshot cannot be read for lack of
    permission. *)
Definition denied : Oracle :=
  {| os_cpus := 4;
     uuidv4 := "";
     Date_now := 0;
     fs_readFile := Throw (mkError (Some "EACCES") "permission denied");
     fs_writeFile := Return tt;
     fs_rename := Return tt;
     fs_unlink := Return tt;
     inflight_save := Return tt;
     reloc_in := λ _ a, a;
     reloc_out := λ _ a, a |}.

(** * Properties *)

(** ** The index primitives *)

Section IndexFacts.
Implicit Types (indexes : Index) (key : string) (value id : Value).

Lemma index_ext indexes1 indexes2 :
  (∀ key, is_Some (indexes1 !! key) ↔ is_Some (indexes2 !! key)) →
  (∀ key value, index_get indexes1 key value = index_get indexes2 key value) →
  indexes1 = indexes2.
Proof.
  intros Hkeys Hget. apply map_eq. intros key.
  specialize (Hkeys key). pose proof (Hget key) as Hk. unfold index_get in Hk.
  destruct (indexes1 !! key) as [vm1|], (indexes2 !! key) as [vm2|]; simpl in *.
  - f_equal. apply map_eq. exact Hk.
  - destruct Hkeys as [Hk1 _]. destruct Hk1 as [? ?]; [eauto | discriminate].
  - destruct Hkeys as [_ Hk2]. destruct Hk2 as [? ?]; [eauto | discriminate].
  - reflexivity.
Qed.

(** The three statements of one entry, as one update. *)
Lemma index_add_insert id indexes key value :
  index_add id indexes (key, value) =
  <[key := <[value := {[id]} ∪ ids_at indexes key value]> (default ∅ (indexes !! key))]> indexes.
Proof.
  unfold ids_at, index_get, index_add, add_id, ensure_value, ensure_key.
  destruct (indexes !! key) as [vm|] eqn:Hk; simpl.
  - rewrite Hk. destruct (vm !! value) as [ids|] eqn:Hv; simpl.
    + by rewrite Hk, Hv.
    + by rewrite !lookup_insert_eq, !insert_insert_eq, union_empty_r_L.
  - rewrite !lookup_insert_eq, lookup_empty, !lookup_insert_eq.
    by rewrite !insert_insert_eq, union_empty_r_L.
Qed.

Lemma index_add_has_key id indexes key value key' :
  is_Some (index_add id indexes (key, value) !! key') ↔
  key' = key ∨ is_Some (indexes !! key').
Proof.
  rewrite index_add_insert, lookup_insert.
  destruct (decide (key = key')) as [->|Hne]; simpl.
  - split; [by left | eauto].
  - split; [by right | by intros [->|?]].
Qed.

Lemma index_get_add id indexes key value key' value' :
  index_get (index_add id indexes (key, value)) key' value' =
  if decide (key' = key ∧ value' = value)
  then Some ({[id]} ∪ ids_at indexes key value)
  else index_get indexes key' value'.
Proof.
  rewrite index_add_insert. unfold index_get at 1. rewrite lookup_insert.
  destruct (decide (key = key')) as [<-|Hne]; simpl.
  - rewrite lookup_insert.
    destruct (decide (value = value')) as [<-|Hne']; simpl.
    + by rewrite decide_True.
    + rewrite decide_False by (intros [_ ->]; done).
      unfold index_get. by destruct (indexes !! key).
  - rewrite decide_False by (intros [-> _]; done). done.
Qed.

Lemma ids_at_add id indexes key value key' value' :
  ids_at (index_add id indexes (key, value)) key' value' =
  if decide (key' = key ∧ value' = value)
  then {[id]} ∪ ids_at indexes key value
  else ids_at indexes key' value'.
Proof. unfold ids_at at 1. rewrite index_get_add. by case_decide. Qed.

Lemma index_remove_has_key id indexes key value key' :
  is_Some (index_remove id indexes (key, value) !! key') ↔ is_Some (indexes !! key').
Proof.
  unfold index_remove.
  destruct (indexes !! key) as [vm|] eqn:Hk; [|done].
  destruct (vm !! value) as [ids|]; [|done].
  rewrite lookup_insert. destruct (decide (key = key')) as [<-|]; simpl; [|done].
  rewrite Hk. split; eauto.
Qed.

Lemma index_get_remove id indexes key value key' value' :
  index_get (index_remove id indexes (key, value)) key' value' =
  if decide (key' = key ∧ value' = value)
  then (λ ids, ids ∖ {[id]}) <$> index_get indexes key value
  else index_get indexes key' value'.
Proof.
  unfold index_remove, index_get.
  destruct (indexes !! key) as [vm|] eqn:Hk; simpl.
  - destruct (vm !! value) as [ids|] eqn:Hv; simpl.
    + rewrite lookup_insert.
      destruct (decide (key = key')) as [<-|Hne]; simpl.
      * rewrite lookup_insert, Hk. simpl.
        destruct (decide (value = value')) as [<-|Hne']; simpl.
        -- by rewrite decide_True.
        -- by rewrite decide_False by (intros [_ ->]; done).
      * by rewrite decide_False by (intros [-> _]; done).
    + case_decide as Heq; [|done]. destruct Heq as [-> ->]. by rewrite Hk.
  - case_decide as Heq; [|done]. destruct Heq as [-> ->]. by rewrite Hk.
Qed.

Lemma ids_at_remove id indexes key value key' value' :
  ids_at (index_remove id indexes (key, value)) key' value' =
  if decide (key' = key ∧ value' = value)
  then ids_at indexes key value ∖ {[id]}
  else ids_at indexes key' value'.
Proof.
  unfold ids_at. rewrite index_get_remove. case_decide; [|done].
  destruct (index_get indexes key value); simpl; [done | set_solver].
Qed.

(** The loops over the entries of one record. *)
Lemma elem_of_ids_at_foldl_add id entries indexes key value j :
  j ∈ ids_at (foldl (index_add id) indexes entries) key value ↔
  j ∈ ids_at indexes key value ∨ (j = id ∧ (key, value) ∈ entries).
Proof.
  revert indexes. induction entries as [|[k v] entries IH]; intros indexes; cbn [foldl].
  - set_solver.
  - rewrite IH, ids_at_add. rewrite elem_of_cons.
    case_decide as Heq.
    + destruct Heq as [-> ->]. set_solver.
    + split; [intros [?|[? ?]]; eauto | intros [?|[? [Hkv|?]]]; eauto].
      injection Hkv as -> ->. naive_solver.
Qed.

Lemma elem_of_ids_at_foldl_remove id entries indexes key value j :
  j ∈ ids_at (foldl (index_remove id) indexes entries) key value ↔
  j ∈ ids_at indexes key value ∧ ¬ (j = id ∧ (key, value) ∈ entries).
Proof.
  revert indexes. induction entries as [|[k v] entries IH]; intros indexes; cbn [foldl].
  - split; [intros ?; split; [done|] | by intros [? _]].
    intros [_ Hin]. by apply elem_of_nil in Hin.
  - rewrite IH, ids_at_remove. rewrite elem_of_cons.
    case_decide as Heq.
    + destruct Heq as [-> ->]. set_solver.
    + split.
      * intros [Hj Hn]. split; [done|]. intros [-> [Hkv|Hin]]; [|by apply Hn].
        injection Hkv as -> ->. naive_solver.
      * intros [Hj Hn]. split; [done|]. intros [-> Hin]. apply Hn. eauto.
Qed.
End IndexFacts.

(** ** Frame rules of the monad *)

Create HintDb keeps discriminated.

Section Frame.
Context {C F : Type} (f : Database C → F).

Lemma keeps_ret {A} (a : A) : keeps f (ret a).
Proof. by intros db. Qed.
Lemma keeps_throw {A} e : keeps f (@throw C A e).
Proof. by intros db. Qed.
Lemma keeps_this : keeps f this.
Proof. by intros db. Qed.
Lemma keeps_call {A} (c : Completion A) : keeps f (call c).
Proof. by intros db. Qed.
Lemma keeps_perform {A} ev (c : Completion A) : keeps f (perform ev c).
Proof. by intros db. Qed.
Lemma keeps_assign g : (∀ db, f (g db) = f db) → keeps f (assign g).
Proof. intros Hg db. apply Hg. Qed.

Lemma keeps_bind {A B} (m : Async C A) (k : A → Async C B) :
  keeps f m → (∀ a, keeps f (k a)) → keeps f (bind m k).
Proof.
  intros Hm Hk db. unfold bind. specialize (Hm db).
  destruct (m db) as [[a|e] db1 evs1]; cbn [after] in *; [|done].
  specialize (Hk a db1). destruct (k a db1). cbn [after] in *. congruence.
Qed.

Lemma keeps_try_catch {A} (m : Async C A) handler :
  keeps f m → (∀ e, keeps f (handler e)) → keeps f (try_catch m handler).
Proof.
  intros Hm Hh db. unfold try_catch. specialize (Hm db).
  destruct (m db) as [[a|e] db1 evs1]; cbn [after] in *; [done|].
  specialize (Hh e db1). destruct (handler e db1). cbn [after] in *. congruence.
Qed.

Lemma keeps_try_finally {A} (m : Async C A) fin :
  keeps f m → keeps f fin → keeps f (try_finally m fin).
Proof.
  intros Hm Hf db. unfold try_finally. specialize (Hm db).
  destruct (m db) as [c db1 evs1]. cbn [after] in *.
  specialize (Hf db1). destruct (fin db1) as [[[]|e] db2 evs2]; cbn [after] in *; congruence.
Qed.
End Frame.

#[global] Hint Resolve keeps_ret keeps_throw keeps_this keeps_call keeps_perform
  keeps_bind keeps_try_catch keeps_try_finally : keeps.

(** Splits a method body along its binds and branches; what is left are the
    assignments. *)
Ltac keeps_step :=
  match goal with
  | |- keeps _ (bind _ _) => apply keeps_bind; [|intros ?]
  | |- keeps _ (try_catch _ _) => apply keeps_try_catch; [|intros ?]
  | |- keeps _ (try_finally _ _) => apply keeps_try_finally
  | |- keeps _ (assign _) => apply keeps_assign; intros ?; reflexivity
  | |- keeps _ (if ?b then _ else _) => destruct b
  | |- keeps _ (match ?x with _ => _ end) => destruct x
  | |- keeps _ _ => solve [auto with keeps]
  end.

(** ** Running the methods *)

Section Runs.
Context `{host : Host} {C : Type} `{rc : ResultCache C}.
Implicit Types (db : Database C) (o : Oracle).

(** A first statement that returns without an effect hands the object on. *)
Lemma bind_run {A B} (m : Async C A) (k : A → Async C B) db a db' :
  m db = mkOutcome (Return a) db' [] → bind m k db = k a db'.
Proof. intros Hm. unfold bind. rewrite Hm. by destruct (k a db'). Qed.

Lemma init_initialized o db :
  isInitialized db = true → init o db = mkOutcome (Return tt) db [].
Proof. intros Hinit. unfold init, bind, this. by rewrite Hinit. Qed.

(** [save] writes to no field but [savePromise], [dirty] and [lastSave]. *)
Lemma save_keeps_data o : keeps (C:=C) data (save o).
Proof. unfold save, join_inflight. repeat keeps_step. Qed.
Lemma save_keeps_indexes o : keeps (C:=C) indexes (save o).
Proof. unfold save, join_inflight. repeat keeps_step. Qed.
Lemma save_keeps_cache o : keeps (C:=C) cache (save o).
Proof. unfold save, join_inflight. repeat keeps_step. Qed.

(** [init], and so every method, leaves the cache and the dirty flag to
    the method's own statements. *)
Lemma init_keeps_cache o : keeps (C:=C) cache (init o).
Proof. unfold init, initWorkers, load, buildIndexes, startAutoSave. repeat keeps_step. Qed.
Lemma init_keeps_dirty o : keeps (C:=C) dirty (init o).
Proof. unfold init, initWorkers, load, buildIndexes, startAutoSave. repeat keeps_step. Qed.

Lemma create_initialized o obj db :
  isInitialized db = true →
  create o obj db =
    ((if (N.of_nat (size (data (created o obj db))) mod batchSize db =? 0)%N
      then save o else ret tt) ;; ret (created_obj o obj)) (created o obj db).
Proof.
  intros Hinit. unfold create.
  erewrite bind_run by (by apply init_initialized).
  do 3 (erewrite bind_run by reflexivity).
  erewrite (bind_run this) by reflexivity.
  reflexivity.
Qed.

Lemma create_after o obj db :
  isInitialized db = true →
  let db' := after (create o obj db) in
  data db' = data (created o obj db) ∧ indexes db' = indexes (created o obj db).
Proof.
  intros Hinit. rewrite create_initialized by done. cbn zeta.
  split.
  - apply (keeps_bind data); [|intros; apply keeps_ret].
    destruct (_ =? _)%N; [apply save_keeps_data | apply keeps_ret].
  - apply (keeps_bind indexes); [|intros; apply keeps_ret].
    destruct (_ =? _)%N; [apply save_keeps_indexes | apply keeps_ret].
Qed.

Lemma update_found o id updates db existingObj :
  isInitialized db = true → data db !! id = Some existingObj →
  update o id updates db =
    mkOutcome (Return (Some (updates ∪ existingObj)))
      (set_indexes
         (foldl (index_add id)
            (foldl (index_remove id) (indexes db) (Object_entries existingObj))
            (Object_entries (updates ∪ existingObj)))
         (set_dirty true (set_data (<[id := updates ∪ existingObj]> (data db)) db)))
      [].
Proof.
  intros Hinit Hid. unfold update. unfold bind at 1. rewrite init_initialized by done.
  unfold bind, this. cbn [completion after effects]. rewrite Hid. reflexivity.
Qed.

Lemma update_missing o id updates db :
  isInitialized db = true → data db !! id = None →
  update o id updates db = mkOutcome (Return None) db [].
Proof.
  intros Hinit Hid. unfold update. unfold bind at 1. rewrite init_initialized by done.
  unfold bind, this. cbn [completion after effects]. by rewrite Hid.
Qed.

Lemma delete_found o id db obj :
  isInitialized db = true → data db !! id = Some obj →
  delete_ o id db =
    mkOutcome (Return true)
      (set_dirty true
         (set_data (delete id (data db))
            (set_indexes (foldl (index_remove id) (indexes db) (Object_entries obj)) db)))
      [].
Proof.
  intros Hinit Hid. unfold delete_. unfold bind at 1. rewrite init_initialized by done.
  unfold bind, this. cbn [completion after effects]. rewrite Hid. reflexivity.
Qed.

Lemma delete_missing o id db :
  isInitialized db = true → data db !! id = None →
  delete_ o id db = mkOutcome (Return false) db [].
Proof.
  intros Hinit Hid. unfold delete_. unfold bind at 1. rewrite init_initialized by done.
  unfold bind, this. cbn [completion after effects]. by rewrite Hid.
Qed.
End Runs.

(** ** Index consistency *)

Section Consistency.
Implicit Types (data : gmap Value Obj) (indexes : Index) (id : Value) (obj : Obj).

Lemma elem_of_Object_entries obj key value :
  (key, value) ∈ Object_entries obj ↔ obj !! key = Some value.
Proof. apply elem_of_map_to_list. Qed.

Lemma index_consistent_empty : index_complete ∅ ∅ ∧ index_sound ∅ ∅.
Proof.
  split.
  - intros id obj key value Hid. by rewrite lookup_empty in Hid.
  - intros key value id Hin. unfold ids_at, index_get in Hin.
    rewrite lookup_empty in Hin. simpl in Hin. set_solver.
Qed.

(** Filing the entries of [obj] under [id] keeps the index complete,
    whatever was stored at [id] before. *)
Lemma insert_complete data indexes id obj :
  index_complete data indexes →
  index_complete (<[id := obj]> data)
    (foldl (index_add id) indexes (Object_entries obj)).
Proof.
  intros Hc id' obj' key value Hid' Hkv.
  apply elem_of_ids_at_foldl_add.
  destruct (decide (id = id')) as [<-|Hne].
  - rewrite lookup_insert_eq in Hid'. injection Hid' as <-.
    right. split; [done|]. by apply elem_of_Object_entries.
  - rewrite lookup_insert_ne in Hid' by done. left. eauto.
Qed.

(** It keeps the index sound when nothing else is filed under [id]. *)
Lemma insert_sound data indexes id obj :
  (∀ key value, id ∉ ids_at indexes key value) →
  index_sound data indexes →
  index_sound (<[id := obj]> data)
    (foldl (index_add id) indexes (Object_entries obj)).
Proof.
  intros Hfresh Hs key value id' Hin.
  apply elem_of_ids_at_foldl_add in Hin as [Hin|[-> Hin]].
  - destruct (decide (id = id')) as [<-|Hne]; [by apply Hfresh in Hin|].
    rewrite lookup_insert_ne by done. eauto.
  - rewrite lookup_insert_eq. eexists. split; [done|]. by apply elem_of_Object_entries.
Qed.

(** Unfiling the entries of the record stored at [id] leaves nothing
    filed under [id], and touches no other id. *)
Lemma remove_clears data indexes id obj :
  index_sound data indexes → data !! id = Some obj →
  ∀ key value, id ∉ ids_at (foldl (index_remove id) indexes (Object_entries obj)) key value.
Proof.
  intros Hs Hid key value Hin.
  apply elem_of_ids_at_foldl_remove in Hin as [Hin Hn].
  apply Hs in Hin as (obj' & Hid' & Hkv). rewrite Hid in Hid'. injection Hid' as <-.
  apply Hn. split; [done|]. by apply elem_of_Object_entries.
Qed.

Lemma remove_complete data indexes id obj :
  index_complete data indexes →
  index_complete (delete id data)
    (foldl (index_remove id) indexes (Object_entries obj)).
Proof.
  intros Hc id' obj' key value Hid' Hkv.
  apply lookup_delete_Some in Hid' as [Hne Hid'].
  apply elem_of_ids_at_foldl_remove. split; [eauto|]. intros [-> _]. done.
Qed.

Lemma remove_sound data indexes id obj :
  index_sound data indexes → data !! id = Some obj →
  index_sound (delete id data)
    (foldl (index_remove id) indexes (Object_entries obj)).
Proof.
  intros Hs Hid key value id' Hin.
  destruct (decide (id' = id)) as [->|Hne].
  - by eapply remove_clears in Hin.
  - apply elem_of_ids_at_foldl_remove in Hin as [Hin _].
    apply Hs in Hin as (obj' & Hid' & Hkv).
    exists obj'. by rewrite lookup_delete_ne.
Qed.

Lemma insert_delete_data data id obj : <[id := obj]> (delete id data) = <[id := obj]> data.
Proof. apply insert_delete_eq. Qed.
End Consistency.

Section ConsistencyOfMethods.
Context `{host : Host} {C : Type} `{rc : ResultCache C}.
Implicit Types (db : Database C) (o : Oracle).

(** [update] keeps the index consistent. *)
Lemma update_consistent o id updates db :
  isInitialized db = true → index_consistent db →
  index_consistent (after (update o id updates db)).
Proof.
  intros Hinit [Hc Hs]. destruct (data db !! id) as [existingObj|] eqn:Hid.
  - rewrite (update_found _ _ _ _ existingObj) by done. simpl.
    rewrite <- (insert_delete_data (data db)). split.
    + apply insert_complete. by apply remove_complete.
    + apply insert_sound; [by eapply remove_clears|by apply remove_sound].
  - rewrite update_missing by done. by split.
Qed.

(** [delete] keeps the index consistent. *)
Lemma delete_consistent o id db :
  isInitialized db = true → index_consistent db →
  index_consistent (after (delete_ o id db)).
Proof.
  intros Hinit [Hc Hs]. destruct (data db !! id) as [obj|] eqn:Hid.
  - rewrite (delete_found _ _ _ obj) by done. simpl. split.
    + by apply remove_complete.
    + by apply remove_sound.
  - rewrite delete_missing by done. by split.
Qed.

(** [create] keeps the index complete... *)
Lemma create_complete o obj db :
  isInitialized db = true → index_complete (data db) (indexes db) →
  index_complete (data (after (create o obj db))) (indexes (after (create o obj db))).
Proof.
  intros Hinit Hc. destruct (create_after o obj db Hinit) as (-> & ->).
  simpl. by apply insert_complete.
Qed.

(** ... and consistent when the id is new. *)
Lemma create_fresh_consistent o obj db :
  isInitialized db = true → data db !! created_id o obj = None →
  index_consistent db → index_consistent (after (create o obj db)).
Proof.
  intros Hinit Hid [Hc Hs]. split; [by apply create_complete|].
  destruct (create_after o obj db Hinit) as (-> & ->). simpl.
  apply insert_sound; [|done].
  intros key value Hin. apply Hs in Hin as (? & Hid' & _). by rewrite Hid in Hid'.
Qed.
End ConsistencyOfMethods.

(** ** The query engine *)

Section QueryFacts.
Context `{host : Host}.
Implicit Types (data : gmap Value Obj) (indexes : Index) (query : Query) (obj : Obj).

Lemma strict_eq_true a b : strict_eq a b = true → a = b.
Proof. destruct a; simpl; try discriminate; apply bool_decide_eq_true_1. Qed.

Lemma strict_eq_refl a : a ≠ VNaN → strict_eq a a = true.
Proof. destruct a; simpl; try done; intros _; by apply bool_decide_eq_true_2. Qed.

(** A name that [Object.prototype] does not have reads [undefined] on a
    record without it. *)
Lemma inherited_other key :
  key ∉ Object_prototype_names → inherited key = VUndefined.
Proof.
  intros Hkey. unfold inherited.
  destruct (existsb (String.eqb key) Object_prototype_names) eqn:Hex; [|done].
  apply existsb_exists in Hex as (name & Hin & Heq).
  apply String.eqb_eq in Heq as <-. destruct Hkey. by apply list_elem_of_In.
Qed.

Lemma prop_own obj key value : obj !! key = Some value → prop obj key = value.
Proof. unfold prop. by intros ->. Qed.

Lemma prop_inherited obj key : obj !! key = None → prop obj key = inherited key.
Proof. unfold prop. by intros ->. Qed.

(** A value that a record without the property does not read is read from
    an own property only. *)
Lemma strict_eq_prop obj key value :
  strict_eq (inherited key) value = false →
  strict_eq (prop obj key) value = true → obj !! key = Some value.
Proof.
  intros Hown Heq. unfold prop in Heq. destruct (obj !! key) as [v|].
  - by apply strict_eq_true in Heq as ->.
  - by rewrite Hown in Heq.
Qed.

Lemma query_prop_elem_of query key :
  key ∈ Object_keys query → (key, query_prop query key) ∈ query.
Proof.
  unfold Object_keys. induction query as [|[k v] query IH]; cbn [fmap list_fmap query_prop fst].
  - intros Hin. by apply elem_of_nil in Hin.
  - intros Hin. case_decide as Hk.
    + subst. apply list_elem_of_here.
    + apply elem_of_cons in Hin as [->|Hin]; [done|]. apply list_elem_of_further. by apply IH.
Qed.

Lemma query_prop_NoDup query key value :
  NoDup query.*1 → (key, value) ∈ query → query_prop query key = value.
Proof.
  induction query as [|[k v] query IH]; cbn [fmap list_fmap query_prop fst].
  - intros _ Hin. by apply elem_of_nil in Hin.
  - intros Hnd Hin. apply NoDup_cons in Hnd as [Hk Hnd].
    apply elem_of_cons in Hin as [Heq|Hin].
    + injection Heq as -> ->. by rewrite decide_True.
    + rewrite decide_False; [by apply IH|].
      intros ->. apply Hk. apply list_elem_of_fmap. by exists (key, value).
Qed.

Lemma every_key_matches_spec query obj :
  every_key_matches query (Object_keys query) obj = true ↔
  ∀ key, key ∈ Object_keys query →
    strict_eq (prop obj key) (query_prop query key) = true.
Proof.
  unfold every_key_matches. rewrite <- Is_true_true, forallb_True, Forall_forall.
  split; intros H key Hkey; [apply Is_true_true|apply Is_true_true_2]; by apply H.
Qed.

(** The loop's test is the conjunction of the predicates. *)
Lemma every_key_matches_satisfies query obj :
  NoDup query.*1 →
  every_key_matches query (Object_keys query) obj = true ↔ satisfies query obj.
Proof.
  intros Hnd. rewrite every_key_matches_spec. split.
  - intros H key value Hin. rewrite <- (query_prop_NoDup query key value) by done.
    apply H. unfold Object_keys. apply list_elem_of_fmap. by exists (key, value).
  - intros H key Hkey. apply H. by apply query_prop_elem_of.
Qed.

(** *** The smallest matching set *)

Lemma smallest_matching_snoc indexes query keys key :
  smallest_matching indexes query (keys ++ [key]) =
  smallest_step indexes query (smallest_matching indexes query keys) key.
Proof. apply foldl_snoc. Qed.

(** The set chosen is the index entry of one of the predicates. *)
Lemma smallest_matching_Some indexes query keys smallestSet :
  (smallest_matching indexes query keys).1 = Some smallestSet →
  ∃ key, key ∈ keys ∧ (smallest_matching indexes query keys).2 = Some key ∧
         index_get indexes key (query_prop query key) = Some smallestSet.
Proof.
  revert smallestSet. induction keys as [|key keys IH] using rev_ind; intros smallestSet.
  - discriminate.
  - rewrite smallest_matching_snoc. unfold smallest_step.
    destruct (index_get indexes key (query_prop query key)) as [matchingIds|] eqn:Hget.
    + destruct (smallest_matching indexes query keys).1 as [s|] eqn:Hs.
      * destruct (size matchingIds <? size s)%nat; cbn [fst snd].
        -- intros [= <-]. exists key. split; [set_solver|done].
        -- intros Heq. rewrite Hs in Heq. injection Heq as <-.
           destruct (IH s eq_refl) as (k & Hk & Hk2 & Hget').
           exists k. split; [set_solver|done].
      * cbn [fst snd]. intros [= <-]. exists key. split; [set_solver|done].
    + intros Hs. destruct (IH _ Hs) as (k & Hk & Hk2 & Hget').
      exists k. split; [set_solver|done].
Qed.

(** No set is chosen only if no predicate has an index entry. *)
Lemma smallest_matching_None indexes query keys key :
  (smallest_matching indexes query keys).1 = None → key ∈ keys →
  index_get indexes key (query_prop query key) = None.
Proof.
  induction keys as [|k keys IH] using rev_ind.
  - intros _ Hin. by apply elem_of_nil in Hin.
  - rewrite smallest_matching_snoc. unfold smallest_step.
    destruct (index_get indexes k (query_prop query k)) as [matchingIds|] eqn:Hget.
    + destruct (smallest_matching indexes query keys).1 as [s|] eqn:Hs.
      * destruct (size matchingIds <? size s)%nat; cbn [fst]; [discriminate|].
        intros Heq. rewrite Hs in Heq. discriminate.
      * discriminate.
    + intros Hs Hin. apply elem_of_app in Hin as [Hin|Hin]; [by apply IH|].
      apply list_elem_of_singleton in Hin as ->. done.
Qed.

(** The set chosen is no larger than the entry of any predicate. *)
Lemma smallest_matching_least indexes query keys smallestSet key matchingIds :
  (smallest_matching indexes query keys).1 = Some smallestSet →
  key ∈ keys → index_get indexes key (query_prop query key) = Some matchingIds →
  (size smallestSet ≤ size matchingIds)%nat.
Proof.
  revert smallestSet. induction keys as [|k keys IH] using rev_ind; intros smallestSet.
  - discriminate.
  - rewrite smallest_matching_snoc. unfold smallest_step.
    intros Hs Hin Hget. apply elem_of_app in Hin as [Hin|Hin].
    + destruct (index_get indexes k (query_prop query k)) as [ids|] eqn:Hk; [|by apply IH].
      destruct (smallest_matching indexes query keys).1 as [s|] eqn:Hprev.
      * destruct (size ids <? size s)%nat eqn:Hlt; cbn [fst] in Hs.
        -- injection Hs as <-. apply Nat.ltb_lt in Hlt.
           specialize (IH s eq_refl Hin Hget). lia.
        -- rewrite Hprev in Hs. by apply IH.
      * by rewrite (smallest_matching_None indexes query keys key) in Hget.
    + apply list_elem_of_singleton in Hin as ->. rewrite Hget in Hs.
      destruct (smallest_matching indexes query keys).1 as [s|] eqn:Hprev.
      * destruct (size matchingIds <? size s)%nat eqn:Hlt; cbn [fst] in Hs.
        -- by injection Hs as <-.
        -- rewrite Hprev in Hs. injection Hs as <-. apply Nat.ltb_ge in Hlt. lia.
      * cbn [fst] in Hs. by injection Hs as <-.
Qed.

(** A later entry of the same size does not replace the one chosen: ties go
    to the key met first. *)
Lemma smallest_step_tie indexes query smallestSet smallestKey key matchingIds :
  index_get indexes key (query_prop query key) = Some matchingIds →
  size matchingIds = size smallestSet →
  smallest_step indexes query (Some smallestSet, Some smallestKey) key
  = (Some smallestSet, Some smallestKey).
Proof.
  intros Hget Hsize. unfold smallest_step. rewrite Hget. cbn [fst].
  rewrite Hsize. by rewrite Nat.ltb_irrefl.
Qed.

(** *** Materializing a candidate set *)

Lemma elem_of_materialize data p ids obj :
  obj ∈ materialize data p ids ↔
  ∃ id, id ∈ ids ∧ data !! id = Some obj ∧ p obj = true.
Proof.
  unfold materialize. rewrite list_elem_of_omap. split.
  - intros (id & Hid & Hf). exists id. apply elem_of_elements in Hid.
    destruct (data !! id) as [obj'|]; [|done].
    destruct (p obj') eqn:Hp; [|done]. by injection Hf as <-.
  - intros (id & Hid & Hobj & Hp). exists id. rewrite elem_of_elements, Hobj, Hp. done.
Qed.
End QueryFacts.

Section QueryPlans.
Context `{host : Host}.
Implicit Types (data : gmap Value Obj) (indexes : Index) (query : Query) (obj : Obj).

Lemma omap_fmap_snd {A B D} (g : A → option (B * D)) (l : list A) :
  omap (λ x, snd <$> g x) l = (omap g l).*2.
Proof.
  induction l as [|x l IH]; [done|]. cbn [omap list_omap].
  destruct (g x) as [[b d]|]; cbn; by rewrite IH.
Qed.

Lemma filter_fmap_snd {A B} (P : B → Prop) `{∀ b, Decision (P b)} (l : list (A * B)) :
  filter P l.*2 = (filter (λ e, P e.2) l).*2.
Proof.
  induction l as [|[a b] l IH]; [done|]. cbn [fmap list_fmap snd].
  rewrite !filter_cons. cbn [snd]. case_decide; cbn; by rewrite IH.
Qed.

Lemma NoDup_omap_keyed {A B} (g : A → option B) (l : list A) :
  NoDup l → NoDup (omap (λ x, pair x <$> g x) l).
Proof.
  induction 1 as [|x l Hx Hnd IH]; cbn [omap list_omap]; [constructor|].
  destruct (g x) as [b|]; cbn; [|done].
  constructor; [|done]. intros Hin. apply list_elem_of_omap in Hin as (x' & Hx' & Heq).
  destruct (g x'); cbn in Heq; [|done]. injection Heq as -> _. done.
Qed.

(** Whichever index entry drives the query, filtering it by the full
    conjunction gives the records that the naive filter gives. *)
Lemma materialize_full_filter data (p : Obj → bool) ids :
  (∀ id obj, data !! id = Some obj → p obj = true → id ∈ ids) →
  materialize data p ids ≡ₚ filter (λ obj, p obj) (map_to_list data).*2.
Proof.
  intros Hcover. rewrite filter_fmap_snd. unfold materialize.
  rewrite (list_omap_ext _
    (λ id, snd <$> (pair id <$> (data !! id ≫= λ obj, if p obj then Some obj else None)))
    _ (elements ids)); cycle 1.
  { apply Forall2_same_length_lookup_2; [done|]. intros i x y Hx Hy.
    rewrite Hx in Hy. injection Hy as <-.
    destruct (data !! x) as [obj|]; cbn; [|done]. by destruct (p obj). }
  rewrite omap_fmap_snd. apply fmap_Permutation.
  apply NoDup_Permutation.
  - apply NoDup_omap_keyed, NoDup_elements.
  - apply NoDup_filter, NoDup_map_to_list.
  - intros [id obj]. rewrite list_elem_of_omap, list_elem_of_filter, elem_of_map_to_list.
    cbn [snd]. split.
    + intros (id' & Hid' & Heq).
      destruct (data !! id') as [obj'|] eqn:Hobj'; cbn in Heq; [|done].
      destruct (p obj') eqn:Hp; cbn in Heq; [|done].
      injection Heq as -> ->. split; [by apply Is_true_true|done].
    + intros [Hp Hobj]. apply Is_true_true in Hp. exists id.
      split; [apply elem_of_elements; eauto|]. rewrite Hobj. cbn. by rewrite Hp.
Qed.

(** A record that passes the test is filed under each predicate. *)
Lemma matching_record_indexed data indexes query key id obj :
  index_complete data indexes →
  key ∈ Object_keys query →
  strict_eq (inherited key) (query_prop query key) = false →
  data !! id = Some obj → every_key_matches query (Object_keys query) obj = true →
  id ∈ ids_at indexes key (query_prop query key).
Proof.
  intros Hc Hkey Hdef Hobj Hp. apply (Hc id obj); [done|].
  apply strict_eq_prop; [done|]. by apply every_key_matches_spec.
Qed.

Lemma driving_set_full_filter data indexes query key ids :
  index_complete data indexes →
  key ∈ Object_keys query →
  strict_eq (inherited key) (query_prop query key) = false →
  index_get indexes key (query_prop query key) = Some ids →
  materialize data (every_key_matches query (Object_keys query)) ids
    ≡ₚ full_conjunction_filter query data.
Proof.
  intros Hc Hkey Hdef Hget. apply materialize_full_filter.
  intros id obj Hobj Hp.
  pose proof (matching_record_indexed _ _ _ _ _ _ Hc Hkey Hdef Hobj Hp) as Hin.
  unfold ids_at in Hin. by rewrite Hget in Hin.
Qed.

(** With no index entry for some predicate, no record passes the test. *)
Lemma no_entry_full_filter data indexes query key :
  index_complete data indexes →
  key ∈ Object_keys query →
  strict_eq (inherited key) (query_prop query key) = false →
  index_get indexes key (query_prop query key) = None →
  full_conjunction_filter query data = [].
Proof.
  intros Hc Hkey Hdef Hget. unfold full_conjunction_filter.
  apply elem_of_nil_inv. intros obj Hin.
  apply list_elem_of_filter in Hin as [Hp Hin]. apply Is_true_true in Hp.
  apply list_elem_of_fmap in Hin as ([id obj'] & -> & Hin). cbn [snd] in *.
  apply elem_of_map_to_list in Hin.
  pose proof (matching_record_indexed _ _ _ _ _ _ Hc Hkey Hdef Hin Hp) as Hid.
  unfold ids_at in Hid. rewrite Hget in Hid. set_solver.
Qed.
End QueryPlans.

Section QueryMethods.
Context `{host : Host} {C : Type} `{rc : ResultCache C}.
Implicit Types (db : Database C) (o : Oracle) (query : Query).

(** What [findByQuery] computes once the cache has missed. *)
Lemma findByQuery_miss_completion o cacheKey query db :
  completion (findByQuery_miss o cacheKey query db) =
  Return
    (if (length (Object_keys query) =? 0)%nat then []
     else match (smallest_matching (indexes db) query (Object_keys query)).1 with
          | None => []
          | Some smallestSet =>
              materialize (data db) (every_key_matches query (Object_keys query)) smallestSet
          end).
Proof.
  unfold findByQuery_miss, bind, this. cbn [completion after].
  destruct (length (Object_keys query) =? 0)%nat; [done|].
  by destruct (smallest_matching (indexes db) query (Object_keys query)).1.
Qed.

Lemma findByQuery_miss_keeps_data o cacheKey query : keeps (C:=C) data (findByQuery_miss o cacheKey query).
Proof. unfold findByQuery_miss. repeat keeps_step. Qed.

(** On a miss, [findByQuery] is [findByQuery_miss] on the object whose
    cache the lookup has left. *)
Lemma findByQuery_on_miss o query s db :
  isInitialized db = true →
  JSON_stringify query = Return s →
  (cache_get (Date_now o) ("query:" +:+ s) (cache db)).1 = None →
  completion (findByQuery o query db) =
  completion (findByQuery_miss o ("query:" +:+ s) query
    (set_cache (cache_get (Date_now o) ("query:" +:+ s) (cache db)).2 db)).
Proof.
  intros Hinit Hs Hmiss. unfold findByQuery.
  erewrite bind_run by (by apply init_initialized).
  erewrite bind_run by (unfold call; by rewrite Hs).
  erewrite (bind_run this) by reflexivity.
  erewrite bind_run by reflexivity. by rewrite Hmiss.
Qed.

Lemma findByQuery_on_hit o query s db hit :
  isInitialized db = true →
  JSON_stringify query = Return s →
  (cache_get (Date_now o) ("query:" +:+ s) (cache db)).1 = Some hit →
  completion (findByQuery o query db) = Return hit.
Proof.
  intros Hinit Hs Hhit. unfold findByQuery.
  erewrite bind_run by (by apply init_initialized).
  erewrite bind_run by (unfold call; by rewrite Hs).
  erewrite (bind_run this) by reflexivity.
  erewrite bind_run by reflexivity. by rewrite Hhit.
Qed.

(** When the conversion of the cache key throws, so does the method, before
    it has touched anything. *)
Lemma findByQuery_key_throws o query e db :
  isInitialized db = true →
  JSON_stringify query = Throw e →
  findByQuery o query db = mkOutcome (Throw e) db [].
Proof.
  intros Hinit Hs. unfold findByQuery.
  erewrite bind_run by (by apply init_initialized).
  unfold bind, call. by rewrite Hs.
Qed.

Lemma Object_keys_nil query : (length (Object_keys query) =? 0)%nat = true ↔ query = [].
Proof.
  unfold Object_keys. rewrite Nat.eqb_eq, length_fmap. by destruct query.
Qed.

(** The result computed on a miss is, up to order, what the naive filter
    gives, whenever the query has a key. *)
Lemma miss_result_full_filter query db :
  query ≠ [] →
  asks_for_own_values query →
  index_complete (data db) (indexes db) →
  (if (length (Object_keys query) =? 0)%nat then []
   else match (smallest_matching (indexes db) query (Object_keys query)).1 with
        | None => []
        | Some smallestSet =>
            materialize (data db) (every_key_matches query (Object_keys query)) smallestSet
        end)
    ≡ₚ full_conjunction_filter query (data db).
Proof.
  intros Hne Hdef Hc.
  assert (Hkeys : ∀ key, key ∈ Object_keys query →
                         strict_eq (inherited key) (query_prop query key) = false).
  { intros key Hkey. apply (Hdef key). by apply query_prop_elem_of. }
  destruct (length (Object_keys query) =? 0)%nat eqn:Hlen.
  { by apply Object_keys_nil in Hlen. }
  destruct (smallest_matching (indexes db) query (Object_keys query)).1
    as [smallestSet|] eqn:Hs.
  - apply smallest_matching_Some in Hs as (key & Hkey & _ & Hget).
    eapply driving_set_full_filter; eauto.
  - destruct query as [|[key value] query]; [done|].
    assert (Hkey : key ∈ Object_keys ((key, value) :: query)) by apply list_elem_of_here.
    rewrite (no_entry_full_filter (data db) (indexes db) _ key); auto.
    eapply smallest_matching_None; eauto.
Qed.

(** The naive filter for the empty predicate map keeps every record. *)
Lemma full_conjunction_filter_nil data :
  full_conjunction_filter [] data = (map_to_list data).*2.
Proof.
  unfold full_conjunction_filter. cbn.
  induction (map_to_list data).*2 as [|obj l IH]; [done|].
  rewrite filter_cons_True by done. by rewrite IH.
Qed.

(** C3, as the code has it: on an index that files every pair of every
    stored record, for every predicate map with at least one key that asks
    for own values (no predicate's value is what a record without the
    field reads there: [undefined], or the object that [Object.prototype]
    holds under the name), filtering the index entry of any predicate by
    the full conjunction gives, up to the order of the sequence, the records
    that the naive filter over all stored records gives; and so does the
    entry that the smallest-set loop picks, or the empty result it returns
    when no predicate has an entry.  For the empty predicate map the
    algorithm returns the empty sequence, while the naive filter keeps every
    record. *)
Theorem smallest_set_heuristic_preserves_result o cacheKey query db :
  index_complete (data db) (indexes db) →
  (query ≠ [] → asks_for_own_values query →
   (∀ key ids,
      key ∈ Object_keys query →
      index_get (indexes db) key (query_prop query key) = Some ids →
      materialize (data db) (every_key_matches query (Object_keys query)) ids
        ≡ₚ full_conjunction_filter query (data db)) ∧
   ∃ results,
     completion (findByQuery_miss o cacheKey query db) = Return results ∧
     results ≡ₚ full_conjunction_filter query (data db)) ∧
  (completion (findByQuery_miss o cacheKey [] db) = Return [] ∧
   full_conjunction_filter [] (data db) = (map_to_list (data db)).*2).
Proof.
  intros Hc. split.
  - intros Hne Hown. split.
    + intros key ids Hkey Hget. eapply driving_set_full_filter; eauto.
      apply (Hown key). by apply query_prop_elem_of.
    + eexists. split; [apply findByQuery_miss_completion|].
      by apply miss_result_full_filter.
  - split; [by rewrite findByQuery_miss_completion|apply full_conjunction_filter_nil].
Qed.

(** C2, as the code has it: for a query whose cache key can be computed,
    when the cache holds an entry for the key [findByQuery] returns that
    entry as it is; when it holds none, on an index that files every pair
    of every stored record, for every predicate map with at least one key
    that asks for own values (no predicate's value is what a record
    without the field reads there) [findByQuery] returns exactly the stored
    records that equal every predicate's value under [===], and for the
    empty predicate map it returns the empty sequence. *)
Theorem findByQuery_exact_on_cache_miss o query s db :
  isInitialized db = true →
  JSON_stringify query = Return s →
  (∀ hit, (cache_get (Date_now o) ("query:" +:+ s) (cache db)).1 = Some hit →
          completion (findByQuery o query db) = Return hit) ∧
  ((cache_get (Date_now o) ("query:" +:+ s) (cache db)).1 = None →
   index_complete (data db) (indexes db) →
   well_formed_query query →
   ∃ results,
     completion (findByQuery o query db) = Return results ∧
     (query ≠ [] → exact_answer db query results) ∧
     (query = [] → results = [])).
Proof.
  intros Hinit Hs. split; [intros hit Hhit; by eapply findByQuery_on_hit|].
  intros Hmiss Hc [Hnd Hown].
  rewrite (findByQuery_on_miss o query s) by done. rewrite findByQuery_miss_completion.
  cbn [data indexes set_cache].
  eexists. split; [done|]. split.
  - intros Hne.
    intros obj. rewrite (miss_result_full_filter query db Hne Hown Hc).
    unfold full_conjunction_filter.
    rewrite list_elem_of_filter, Is_true_true, every_key_matches_satisfies by done.
    rewrite list_elem_of_fmap. unfold stored. split.
    + intros [Hsat ([id obj'] & -> & Hin)]. apply elem_of_map_to_list in Hin. eauto.
    + intros [[id Hid] Hsat]. split; [done|]. exists (id, obj).
      split; [done|]. by apply elem_of_map_to_list.
  - intros ->. done.
Qed.
End QueryMethods.

Section QueryFrame.
Context `{host : Host} {C : Type} `{rc : ResultCache C}.
Implicit Types (db : Database C) (o : Oracle) (query : Query).

(** The query methods write to the cache only. *)
Lemma findByQuery_keeps_store o query db :
  isInitialized db = true →
  data (after (findByQuery o query db)) = data db ∧
  indexes (after (findByQuery o query db)) = indexes db ∧
  isInitialized (after (findByQuery o query db)) = true.
Proof.
  intros Hinit. unfold findByQuery. erewrite bind_run by (by apply init_initialized).
  unfold findByQuery_miss.
  split; [|split; [|etrans; [|exact Hinit]]];
    match goal with
    | |- ?f (after (?m db)) = _ => assert (keeps f m) as Hk; [repeat keeps_step|apply Hk]
    end.
Qed.

Lemma findByKey_keeps_store o key value db :
  isInitialized db = true →
  data (after (findByKey o key value db)) = data db ∧
  indexes (after (findByKey o key value db)) = indexes db ∧
  isInitialized (after (findByKey o key value db)) = true.
Proof.
  intros Hinit. unfold findByKey. erewrite bind_run by (by apply init_initialized).
  split; [|split; [|etrans; [|exact Hinit]]];
    match goal with
    | |- ?f (after (?m db)) = _ => assert (keeps f m) as Hk; [repeat keeps_step|apply Hk]
    end.
Qed.

Lemma create_keeps_initialized o obj db :
  isInitialized db = true → isInitialized (after (create o obj db)) = true.
Proof.
  intros Hinit. rewrite create_initialized by done.
  etrans; [|exact Hinit]. change (isInitialized db) with (isInitialized (created o obj db)).
  match goal with
  | |- ?f (after (?m _)) = _ => assert (keeps f m) as Hk; [|apply Hk]
  end.
  apply keeps_bind; [|intros; apply keeps_ret].
  destruct (_ =? _)%N; [|apply keeps_ret]. unfold save, join_inflight. repeat keeps_step.
Qed.
End QueryFrame.

(** ** The record store *)

Section RecordStore.
Context `{host : Host} {C : Type} `{rc : ResultCache C}.
Implicit Types (db : Database C) (o : Oracle) (obj : Obj).

(** C4: [update] on a stored id returns and stores the old record with
    the partial fields merged over it: every field named in the partial
    map has that map's value, every other field keeps its old value, and
    no field of the old record is removed. *)
Theorem update_merges_fields o id updates db existingObj :
  isInitialized db = true → data db !! id = Some existingObj →
  ∃ updatedObj,
    completion (update o id updates db) = Return (Some updatedObj) ∧
    data (after (update o id updates db)) !! id = Some updatedObj ∧
    (∀ key value, updates !! key = Some value → updatedObj !! key = Some value) ∧
    (∀ key, updates !! key = None → updatedObj !! key = existingObj !! key) ∧
    (∀ key, is_Some (existingObj !! key) → is_Some (updatedObj !! key)).
Proof.
  intros Hinit Hid. exists (updates ∪ existingObj).
  rewrite (update_found o id updates db existingObj) by done.
  cbn [completion after data set_indexes set_dirty set_data].
  split; [done|]. split; [apply lookup_insert_eq|]. split; [|split].
  - intros key value Hkey. by apply lookup_union_Some_l.
  - intros key Hkey. by apply lookup_union_r.
  - intros key [value Hkey]. destruct (updates !! key) as [value'|] eqn:Hup.
    + exists value'. by apply lookup_union_Some_l.
    + exists value. by rewrite lookup_union_r.
Qed.

(** C5: on an id that is not in the store, [update] returns the
    not-found sentinel and [delete] returns false, neither throws, and
    the object is left as it was: record map, index, cache, dirty flag and
    every other field. *)
Theorem not_found_changes_nothing o id updates db :
  isInitialized db = true → data db !! id = None →
  (completion (update o id updates db) = Return None ∧
   after (update o id updates db) = db) ∧
  (completion (delete_ o id db) = Return false ∧
   after (delete_ o id db) = db).
Proof.
  intros Hinit Hid.
  by rewrite update_missing, delete_missing.
Qed.

Lemma create_keeps_cache o obj : keeps (C:=C) cache (create o obj).
Proof.
  unfold create. pose proof (init_keeps_cache (C:=C) o). pose proof (save_keeps_cache (C:=C) o).
  repeat keeps_step.
Qed.

Lemma update_keeps_cache o id updates : keeps (C:=C) cache (update o id updates).
Proof. unfold update. pose proof (init_keeps_cache (C:=C) o). repeat keeps_step. Qed.

Lemma delete_keeps_cache o id : keeps (C:=C) cache (delete_ o id).
Proof. unfold delete_. pose proof (init_keeps_cache (C:=C) o). repeat keeps_step. Qed.

(** C9: [create], [update] and [delete] leave the result cache as it
    was, whatever else they do (initializing, saving, failing); the class
    calls nothing on the cache but [get] and [set], and only from the two
    query methods. *)
Theorem mutations_keep_the_cache o obj id updates db :
  cache (after (create o obj db)) = cache db ∧
  cache (after (update o id updates db)) = cache db ∧
  cache (after (delete_ o id db)) = cache db.
Proof.
  split; [apply create_keeps_cache|split; [apply update_keeps_cache|apply delete_keeps_cache]].
Qed.

(** What [create] stores, and what it returns. *)
Lemma create_stores o obj db :
  isInitialized db = true →
  data (after (create o obj db)) !! created_id o obj = Some (created_obj o obj) ∧
  (completion (create o obj db) = Return (created_obj o obj) ∨
   ∃ e, completion (create o obj db) = Throw e ∧
        completion (save o (created o obj db)) = Throw e).
Proof.
  intros Hinit. destruct (create_after o obj db Hinit) as [-> _].
  split; [apply lookup_insert_eq|].
  rewrite create_initialized by done. unfold bind.
  destruct (_ =? _)%N.
  - destruct (save o (created o obj db)) as [[[]|e] db1 evs1]; cbn [completion]; [by left|].
    right. by exists e.
  - by left.
Qed.

(** C10: [create] keeps the caller's id only when it is truthy.  When the
    [id] field is missing, null, the empty string, 0 or false (or any other
    falsy value), the record is stored under, and carries, the uuid just
    generated; it is the record returned, unless the size-triggered save
    fails and [create] throws its error. *)
Theorem create_replaces_falsy_id o obj db :
  isInitialized db = true →
  (obj !! "id" = None ∨ obj !! "id" = Some VNull ∨ obj !! "id" = Some (VStr "") ∨
   obj !! "id" = Some (VNum 0) ∨ obj !! "id" = Some (VBool false) →
   truthy (prop obj "id") = false) ∧
  (truthy (prop obj "id") = false →
   let record := <["id" := VStr (uuidv4 o)]> obj in
   data (after (create o obj db)) !! VStr (uuidv4 o) = Some record ∧
   (completion (create o obj db) = Return record ∨
    ∃ e, completion (create o obj db) = Throw e ∧
         completion (save o (created o obj db)) = Throw e)) ∧
  (truthy (prop obj "id") = true →
   let record := <["id" := prop obj "id"]> obj in
   data (after (create o obj db)) !! prop obj "id" = Some record ∧
   (completion (create o obj db) = Return record ∨
    ∃ e, completion (create o obj db) = Throw e ∧
         completion (save o (created o obj db)) = Throw e)).
Proof.
  intros Hinit. pose proof (create_stores o obj db Hinit) as Hstores.
  unfold created_obj, created_id in Hstores. split; [|split].
  - unfold prop. intros [-> | [-> | [-> | [-> | ->]]]]; reflexivity.
  - intros Hfalsy. by rewrite Hfalsy in Hstores.
  - intros Htruthy. by rewrite Htruthy in Hstores.
Qed.
End RecordStore.

(** ** Persistence *)

Section Persistence.
Context `{host : Host} {C : Type} `{rc : ResultCache C}.
Implicit Types (db : Database C) (o : Oracle).

Lemma set_savePromise_restore db :
  savePromise db = false → set_savePromise false (set_savePromise true db) = db.
Proof. destruct db. cbn. by intros ->. Qed.

(** The four ways through [save] when no save is in flight. *)
Lemma save_encode_fails o db e :
  savePromise db = false →
  msgpack_encode (map_to_list (data db)).*2 = Throw e →
  save o db = mkOutcome (Throw e) db
    [ConsoleError "Error saving data:" e; Unlink (path_resolve (schema db +:+ ".tmp"))].
Proof.
  intros Hsp Henc.
  unfold save, bind, this, call, try_finally, try_catch, perform, assign, throw, ret.
  cbn [completion after effects]. rewrite Hsp. cbn [completion after effects data set_savePromise].
  rewrite Henc. cbn [completion after effects].
  destruct (fs_unlink o); cbn [completion after effects app];
    by rewrite set_savePromise_restore.
Qed.

Lemma save_write_fails o db packedData e :
  savePromise db = false →
  msgpack_encode (map_to_list (data db)).*2 = Return packedData →
  fs_writeFile o = Throw e →
  save o db = mkOutcome (Throw e) db
    [WriteFile (path_resolve (schema db +:+ ".tmp")) packedData;
     ConsoleError "Error saving data:" e;
     Unlink (path_resolve (schema db +:+ ".tmp"))].
Proof.
  intros Hsp Henc Hw.
  unfold save, bind, this, call, try_finally, try_catch, perform, assign, throw, ret.
  cbn [completion after effects]. rewrite Hsp. cbn [completion after effects data set_savePromise].
  rewrite Henc. cbn [completion after effects]. rewrite Hw. cbn [completion after effects].
  destruct (fs_unlink o); cbn [completion after effects app];
    by rewrite set_savePromise_restore.
Qed.

Lemma save_rename_fails o db packedData e :
  savePromise db = false →
  msgpack_encode (map_to_list (data db)).*2 = Return packedData →
  fs_writeFile o = Return tt → fs_rename o = Throw e →
  save o db = mkOutcome (Throw e) db
    [WriteFile (path_resolve (schema db +:+ ".tmp")) packedData;
     Rename (path_resolve (schema db +:+ ".tmp")) (path_resolve (schema db));
     ConsoleError "Error saving data:" e;
     Unlink (path_resolve (schema db +:+ ".tmp"))].
Proof.
  intros Hsp Henc Hw Hr.
  unfold save, bind, this, call, try_finally, try_catch, perform, assign, throw, ret.
  cbn [completion after effects]. rewrite Hsp. cbn [completion after effects data set_savePromise].
  rewrite Henc. cbn [completion after effects]. rewrite Hw. cbn [completion after effects].
  rewrite Hr. cbn [completion after effects].
  destruct (fs_unlink o); cbn [completion after effects app];
    by rewrite set_savePromise_restore.
Qed.

Lemma save_completes o db packedData :
  savePromise db = false →
  msgpack_encode (map_to_list (data db)).*2 = Return packedData →
  fs_writeFile o = Return tt → fs_rename o = Return tt →
  save o db = mkOutcome (Return tt)
    (set_lastSave (Date_now o) (set_dirty false db))
    [WriteFile (path_resolve (schema db +:+ ".tmp")) packedData;
     Rename (path_resolve (schema db +:+ ".tmp")) (path_resolve (schema db))].
Proof.
  intros Hsp Henc Hw Hr.
  unfold save, bind, this, call, try_finally, try_catch, perform, assign, throw, ret.
  cbn [completion after effects]. rewrite Hsp. cbn [completion after effects data set_savePromise].
  rewrite Henc. cbn [completion after effects]. rewrite Hw. cbn [completion after effects].
  rewrite Hr. cbn [completion after effects app].
  f_equal. destruct db. cbn in *. by subst.
Qed.

(** [save] either gets through and clears the flag, or throws the error of
    the step that failed, after trying to remove the temporary file, and
    leaves the object as it was. *)
Lemma save_outcome o db :
  savePromise db = false →
  (save_succeeds o db ∧
   completion (save o db) = Return tt ∧
   after (save o db) = set_lastSave (Date_now o) (set_dirty false db)) ∨
  (∃ e, save_fails o db e ∧
        completion (save o db) = Throw e ∧
        after (save o db) = db ∧
        last (effects (save o db)) = Some (Unlink (path_resolve (schema db +:+ ".tmp")))).
Proof.
  intros Hsp. unfold save_succeeds, save_fails.
  destruct (msgpack_encode (map_to_list (data db)).*2) as [packedData|e] eqn:Henc.
  - destruct (fs_writeFile o) as [[]|e] eqn:Hw.
    + destruct (fs_rename o) as [[]|e] eqn:Hr.
      * left. rewrite (save_completes o db packedData) by done.
        split; [split; [eauto|done]|done].
      * right. exists e. rewrite (save_rename_fails o db packedData e) by done.
        split; [right; split; eauto|done].
    + right. exists e. rewrite (save_write_fails o db packedData e) by done.
      split; [right; split; eauto|done].
  - right. exists e. rewrite (save_encode_fails o db e) by done.
    split; [by left|done].
Qed.

(** The ways through [load]. *)
Lemma load_no_file o db e :
  fs_readFile o = Throw e → err_code e = Some "ENOENT" →
  load o db = mkOutcome (Return tt) (set_data ∅ db) [ReadFile (path_resolve (schema db))].
Proof.
  intros Hr He. unfold load, bind, this, call, try_catch, perform, assign, throw.
  rewrite Hr. by rewrite decide_True.
Qed.

Lemma load_read_fails o db e :
  fs_readFile o = Throw e → err_code e ≠ Some "ENOENT" →
  load o db = mkOutcome (Throw e) db [ReadFile (path_resolve (schema db))].
Proof.
  intros Hr He. unfold load, bind, this, call, try_catch, perform, assign, throw.
  rewrite Hr. by rewrite decide_False.
Qed.

Lemma load_decode_fails o db content e :
  fs_readFile o = Return content → msgpack_decode content = Throw e →
  err_code e ≠ Some "ENOENT" →
  load o db = mkOutcome (Throw e) db [ReadFile (path_resolve (schema db))].
Proof.
  intros Hr Hd He. unfold load, bind, this, call, try_catch, perform, assign, throw.
  rewrite Hr, Hd. by rewrite decide_False.
Qed.

(** [init] on an object that is not initialized: the workers, then
    [load]; when [load] throws, so does [init], before the flag is set. *)
Lemma init_load_throws o db e evs db1 :
  isInitialized db = false →
  load o (set_workerPool (workerPool db + Nat.max 1 (os_cpus o / 2)) db)
    = mkOutcome (Throw e) db1 evs →
  init o db = mkOutcome (Throw e) db1 evs.
Proof.
  intros Hinit Hload. unfold init, initWorkers, bind, this, assign.
  rewrite Hinit. by rewrite Hload.
Qed.

Lemma init_load_returns o db evs db1 :
  isInitialized db = false →
  load o (set_workerPool (workerPool db + Nat.max 1 (os_cpus o / 2)) db)
    = mkOutcome (Return tt) db1 evs →
  init o db = mkOutcome (Return tt) (set_isInitialized true db1)
                (evs ++ [SetInterval (saveInterval db1)]).
Proof.
  intros Hinit Hload. unfold init, initWorkers, startAutoSave, bind, this, assign, perform.
  rewrite Hinit. rewrite Hload. by rewrite app_nil_r.
Qed.

Lemma read_initialized o db :
  isInitialized db = true →
  read o db = mkOutcome (Return (map_to_list (data db)).*2) db [].
Proof.
  intros Hinit. unfold read.
  erewrite bind_run by (by apply init_initialized).
  by erewrite (bind_run this) by reflexivity.
Qed.
End Persistence.

Section PersistenceClaims.
Context `{host : Host} {C : Type} `{rc : ResultCache C}.
Implicit Types (db : Database C) (o : Oracle).

(** C6: the dirty flag.  With no save in flight: after [create] the flag
    is set, unless the save that [create] itself triggers at a multiple of
    the batch size got through and cleared it; after [update] and
    [delete] of a stored id it is set.  A [save] that gets through returns,
    clears the flag and sets the last-save time to the clock; a [save] that
    fails in its encode, write or rename throws that error, leaves the flag
    and the last-save time as they were, and its last act is the attempt to
    remove the temporary file.  So a set flag is cleared by [save] exactly
    when [save] returns. *)
Theorem dirty_flag_discipline o obj id updates db :
  isInitialized db = true → savePromise db = false →
  (dirty (after (create o obj db)) = true ∨
   ((N.of_nat (size (data (created o obj db))) mod batchSize db =? 0)%N = true ∧
    save_succeeds o (created o obj db) ∧
    dirty (after (create o obj db)) = false)) ∧
  (is_Some (data db !! id) →
   dirty (after (update o id updates db)) = true ∧
   dirty (after (delete_ o id db)) = true) ∧
  (save_succeeds o db →
   completion (save o db) = Return tt ∧
   dirty (after (save o db)) = false ∧
   lastSave (after (save o db)) = Date_now o) ∧
  (∀ e, save_fails o db e →
   completion (save o db) = Throw e ∧
   dirty (after (save o db)) = dirty db ∧
   lastSave (after (save o db)) = lastSave db ∧
   last (effects (save o db)) = Some (Unlink (path_resolve (schema db +:+ ".tmp")))) ∧
  (dirty db = true →
   (dirty (after (save o db)) = false ↔ completion (save o db) = Return tt)).
Proof.
  intros Hinit Hsp. split; [|split; [|split; [|split]]].
  - rewrite create_initialized by done. unfold bind.
    destruct (_ =? _)%N eqn:Hbatch; [|by left].
    destruct (save_outcome o (created o obj db) Hsp)
      as [(Hok & Hc & Ha)|(e & Hf & Hc & Ha & _)];
      destruct (save o (created o obj db)) as [c db1 evs1];
      cbn [completion after] in *; subst c db1; cbn [after dirty]; eauto.
  - intros [existingObj Hid].
    rewrite (update_found o id updates db existingObj), (delete_found o id db existingObj)
      by done.
    done.
  - intros [[packedData Henc] [Hw Hr]].
    by rewrite (save_completes o db packedData).
  - intros e [Henc|[[packedData Henc] [Hw|[Hw Hr]]]].
    + by rewrite (save_encode_fails o db e).
    + by rewrite (save_write_fails o db packedData e).
    + by rewrite (save_rename_fails o db packedData e).
  - intros Hdirty.
    destruct (save_outcome o db Hsp) as [(_ & -> & ->)|(e & _ & -> & -> & _)].
    + done.
    + rewrite Hdirty. done.
Qed.

(** C7: when reading the snapshot fails because the file does not exist,
    [load] returns with an empty record map, and [init] with it: the store
    is initialized and [read] returns no record.  On any other failure of
    the read or of the decoding, [load] throws that error, and so does
    [init], which leaves the store uninitialized. *)
Theorem load_error_behaviour o db e :
  (fs_readFile o = Throw e → err_code e = Some "ENOENT" →
   completion (load o db) = Return tt ∧
   data (after (load o db)) = ∅ ∧
   (isInitialized db = false →
    completion (init o db) = Return tt ∧
    isInitialized (after (init o db)) = true ∧
    data (after (init o db)) = ∅ ∧
    ∀ o', completion (read o' (after (init o db))) = Return [])) ∧
  (err_code e ≠ Some "ENOENT" →
   (fs_readFile o = Throw e ∨
    ∃ content, fs_readFile o = Return content ∧ msgpack_decode content = Throw e) →
   completion (load o db) = Throw e ∧
   (isInitialized db = false →
    completion (init o db) = Throw e ∧
    isInitialized (after (init o db)) = false)).
Proof.
  split.
  - intros Hr He. rewrite (load_no_file o db e) by done.
    split; [done|split; [done|]]. intros Hinit.
    rewrite (init_load_returns o db _ _ Hinit (load_no_file o _ e Hr He)).
    cbn [completion after isInitialized data set_isInitialized set_data].
    split; [done|split; [done|split; [done|]]]. intros o'.
    rewrite read_initialized by done. cbn [completion data set_isInitialized set_data].
    by rewrite map_to_list_empty.
  - intros He Hfail.
    assert (Hload : ∀ db', load o db' = mkOutcome (Throw e) db'
                               [ReadFile (path_resolve (schema db'))]).
    { intros db'. destruct Hfail as [Hr|(content & Hr & Hd)].
      - by apply load_read_fails.
      - by eapply load_decode_fails. }
    rewrite Hload. split; [done|]. intros Hinit.
    rewrite (init_load_throws o db e _ _ Hinit (Hload _)).
    done.
Qed.
End PersistenceClaims.

(** ** The bulk build *)

Section Triples.
Implicit Types (indexes : Index) (key : string) (value id : Value)
  (ts : list (string * Value * Value)).

(** An index is known by its keys, its entries and their members. *)
Lemma index_ext3 indexes1 indexes2 :
  (∀ key, is_Some (indexes1 !! key) ↔ is_Some (indexes2 !! key)) →
  (∀ key value,
     is_Some (index_get indexes1 key value) ↔ is_Some (index_get indexes2 key value)) →
  (∀ key value id, id ∈ ids_at indexes1 key value ↔ id ∈ ids_at indexes2 key value) →
  indexes1 = indexes2.
Proof.
  intros Hkeys Hentries Hmembers. apply index_ext; [done|].
  intros key value. specialize (Hentries key value).
  pose proof (Hmembers key value) as Hm. unfold ids_at in Hm.
  destruct (index_get indexes1 key value) as [ids1|],
           (index_get indexes2 key value) as [ids2|]; cbn in Hm.
  - f_equal. by apply set_eq.
  - destruct Hentries as [H _]. by destruct H.
  - destruct Hentries as [_ H]. by destruct H.
  - done.
Qed.

Lemma add_triples_app indexes ts1 ts2 :
  add_triples indexes (ts1 ++ ts2) = add_triples (add_triples indexes ts1) ts2.
Proof. apply foldl_app. Qed.

Lemma add_triples_cons indexes key value id ts :
  add_triples indexes ((key, value, id) :: ts) =
  add_triples (index_add id indexes (key, value)) ts.
Proof. reflexivity. Qed.

Lemma add_triples_has_key indexes ts key :
  is_Some (add_triples indexes ts !! key) ↔
  is_Some (indexes !! key) ∨ ∃ value id, (key, value, id) ∈ ts.
Proof.
  revert indexes. induction ts as [|[[k v] i] ts IH]; intros indexes; rewrite ?add_triples_cons.
  - split; [by left|]. intros [?|(? & ? & Hin)]; [done|]. by apply elem_of_nil in Hin.
  - rewrite IH, index_add_has_key. split.
    + intros [[->|?]|(value & id & Hin)]; [right|by left|right].
      * exists v, i. apply list_elem_of_here.
      * exists value, id. by apply list_elem_of_further.
    + intros [?|(value & id & Hin)]; [by left; right|].
      apply elem_of_cons in Hin as [[= -> -> ->]|Hin]; [by left; left|]. right. eauto.
Qed.

Lemma add_triples_has_entry indexes ts key value :
  is_Some (index_get (add_triples indexes ts) key value) ↔
  is_Some (index_get indexes key value) ∨ ∃ id, (key, value, id) ∈ ts.
Proof.
  revert indexes. induction ts as [|[[k v] i] ts IH]; intros indexes; rewrite ?add_triples_cons.
  - split; [by left|]. intros [?|(? & Hin)]; [done|]. by apply elem_of_nil in Hin.
  - rewrite IH, index_get_add. case_decide as Heq.
    + destruct Heq as [-> ->]. split.
      * intros _. right. exists i. apply list_elem_of_here.
      * intros _. left. eauto.
    + split.
      * intros [?|(id & Hin)]; [by left|]. right. exists id. by apply list_elem_of_further.
      * intros [?|(id & Hin)]; [by left|].
        apply elem_of_cons in Hin as [[= -> -> ->]|Hin]; [by destruct Heq|]. right. eauto.
Qed.

Lemma add_triples_member indexes ts key value id :
  id ∈ ids_at (add_triples indexes ts) key value ↔
  id ∈ ids_at indexes key value ∨ (key, value, id) ∈ ts.
Proof.
  revert indexes. induction ts as [|[[k v] i] ts IH]; intros indexes; rewrite ?add_triples_cons.
  - split; [by left|]. intros [?|Hin]; [done|]. by apply elem_of_nil in Hin.
  - rewrite IH, ids_at_add, elem_of_cons. case_decide as Heq.
    + destruct Heq as [-> ->]. rewrite elem_of_union, elem_of_singleton. split.
      * intros [[->|?]|?]; eauto.
      * intros [?|[[= ->]|?]]; eauto.
    + split.
      * intros [?|?]; eauto.
      * intros [?|[[= -> -> ->]|?]]; eauto. by destruct Heq.
Qed.

(** The worker's nested loops insert the triples of its chunk in order. *)
Lemma foldl_entries_add_triples indexes id (entries : list (string * Value)) :
  foldl (index_add id) indexes entries = add_triples indexes ((λ kv, (kv, id)) <$> entries).
Proof. unfold add_triples. by rewrite foldl_fmap. Qed.

Lemma foldl_records_add_triples indexes (records : list (Value * Obj)) :
  foldl (λ indexes (e : Value * Obj), foldl (index_add e.1) indexes (Object_entries e.2))
        indexes records
  = add_triples indexes (triples records).
Proof.
  revert indexes. induction records as [|e records IH]; intros indexes; [done|].
  unfold triples. rewrite bind_cons, add_triples_app. cbn [foldl].
  by rewrite IH, foldl_entries_add_triples.
Qed.

Lemma buildIndexChunk_sequential chunk : buildIndexChunk chunk = sequential_index chunk.
Proof. apply foldl_records_add_triples. Qed.

Lemma elem_of_triples (records : list (Value * Obj)) key value id :
  (key, value, id) ∈ triples records ↔
  ∃ obj, (id, obj) ∈ records ∧ obj !! key = Some value.
Proof.
  unfold triples. rewrite list_elem_of_bind. split.
  - intros ([id' obj] & Hin & Hrec). cbn [fst snd] in Hin.
    apply list_elem_of_fmap in Hin as ([k v] & [= -> -> ->] & Hkv).
    exists obj. split; [done|]. by apply elem_of_map_to_list.
  - intros (obj & Hrec & Hkv). exists (id, obj). split; [|done].
    cbn [fst snd]. apply list_elem_of_fmap. exists (key, value).
    split; [done|]. by apply elem_of_map_to_list.
Qed.

Lemma triples_app (records1 records2 : list (Value * Obj)) :
  triples (records1 ++ records2) = (triples records1 ++ triples records2)%list.
Proof. apply bind_app. Qed.
End Triples.

Section Merge.
Implicit Types (indexes : Index) (key : string) (value id : Value) (valueMap : ValueMap).

Lemma union_into_cons valueMap value (ids : gset Value) pairs :
  union_into valueMap ((value, ids) :: pairs)
  = union_into (<[value := ids ∪ default ∅ (valueMap !! value)]> valueMap) pairs.
Proof. reflexivity. Qed.

(** Adding the members of a set one by one is a union. *)
Lemma foldl_add_id key value (l : list Value) indexes valueMap ids0 :
  indexes !! key = Some valueMap → valueMap !! value = Some ids0 →
  foldl (λ indexes id, add_id key value id indexes) indexes l
  = <[key := <[value := list_to_set l ∪ ids0]> valueMap]> indexes.
Proof.
  revert indexes valueMap ids0.
  induction l as [|id l IH]; intros indexes valueMap ids0 Hk Hv; cbn [foldl list_to_set].
  - rewrite union_empty_l_L. by rewrite (insert_id valueMap), insert_id.
  - unfold add_id at 2. rewrite Hk, Hv.
    rewrite (IH _ (<[value := {[id]} ∪ ids0]> valueMap) ({[id]} ∪ ids0))
      by apply lookup_insert_eq.
    rewrite !insert_insert_eq. do 2 f_equal. set_solver.
Qed.

Lemma merge_ids_insert key indexes valueMap value (ids : gset Value) :
  indexes !! key = Some valueMap →
  merge_ids key indexes (value, ids)
  = <[key := <[value := ids ∪ default ∅ (valueMap !! value)]> valueMap]> indexes.
Proof.
  intros Hk. unfold merge_ids, ensure_value. cbn [fst snd]. rewrite Hk.
  destruct (valueMap !! value) as [ids0|] eqn:Hv; cbn [default].
  - rewrite (foldl_add_id key value _ indexes valueMap ids0) by done.
    by rewrite list_to_set_elements_L.
  - rewrite (foldl_add_id key value _ _ (<[value := ∅]> valueMap) ∅)
      by apply lookup_insert_eq.
    by rewrite !insert_insert_eq, list_to_set_elements_L.
Qed.

Lemma foldl_merge_ids key (pairs : list (Value * gset Value)) indexes valueMap :
  indexes !! key = Some valueMap →
  foldl (merge_ids key) indexes pairs = <[key := union_into valueMap pairs]> indexes.
Proof.
  revert indexes valueMap.
  induction pairs as [|[value ids] pairs IH]; intros indexes valueMap Hk.
  - cbn. by rewrite insert_id.
  - rewrite union_into_cons. cbn [foldl].
    rewrite (merge_ids_insert key indexes valueMap) by done.
    rewrite (IH _ (<[value := ids ∪ default ∅ (valueMap !! value)]> valueMap))
      by apply lookup_insert_eq.
    by rewrite insert_insert_eq.
Qed.

Lemma merge_valueMap_insert indexes key valueMap :
  merge_valueMap indexes (key, valueMap)
  = <[key := union_into (default ∅ (indexes !! key)) (map_to_list valueMap)]> indexes.
Proof.
  unfold merge_valueMap, ensure_key. cbn [fst snd].
  destruct (indexes !! key) as [valueMap0|] eqn:Hk; cbn [default].
  - by apply foldl_merge_ids.
  - rewrite (foldl_merge_ids key _ _ ∅) by apply lookup_insert_eq.
    by rewrite insert_insert_eq.
Qed.

Lemma union_into_is_Some (pairs : list (Value * gset Value)) valueMap value :
  is_Some (union_into valueMap pairs !! value) ↔
  is_Some (valueMap !! value) ∨ value ∈ pairs.*1.
Proof.
  revert valueMap. induction pairs as [|[v ids] pairs IH]; intros valueMap.
  - cbn. split; [by left|]. intros [?|Hin]; [done|]. by apply elem_of_nil in Hin.
  - rewrite union_into_cons, IH, lookup_insert. cbn [fmap list_fmap fst]. rewrite elem_of_cons.
    destruct (decide (v = value)) as [->|Hne]; cbn.
    + split; [intros _; right; by left | intros _; left; eauto].
    + split; [intros [?|?]; eauto | intros [?|[?|?]]; eauto; congruence].
Qed.

Lemma union_into_member (pairs : list (Value * gset Value)) valueMap value id :
  id ∈ default ∅ (union_into valueMap pairs !! value) ↔
  id ∈ default ∅ (valueMap !! value) ∨ ∃ ids, (value, ids) ∈ pairs ∧ id ∈ ids.
Proof.
  revert valueMap. induction pairs as [|[v ids] pairs IH]; intros valueMap.
  - cbn. split; [by left|]. intros [?|(? & Hin & _)]; [done|]. by apply elem_of_nil in Hin.
  - rewrite union_into_cons, IH, lookup_insert.
    destruct (decide (v = value)) as [->|Hne]; cbn.
    + rewrite elem_of_union. split.
      * intros [[?|?]|(ids' & Hin & ?)]; eauto.
        -- right. exists ids. split; [apply list_elem_of_here|done].
        -- right. exists ids'. split; [by apply list_elem_of_further|done].
      * intros [?|(ids' & Hin & ?)]; [by left; right|].
        apply elem_of_cons in Hin as [[= ->]|Hin]; [by left; left|]. right. eauto.
    + split.
      * intros [?|(ids' & Hin & ?)]; [by left|].
        right. exists ids'. split; [by apply list_elem_of_further|done].
      * intros [?|(ids' & Hin & ?)]; [by left|].
        apply elem_of_cons in Hin as [[= -> ->]|Hin]; [done|]. right. eauto.
Qed.

(** What merging one [key, valueMap] pair does to the keys, the entries
    and the members. *)
Lemma merge_valueMap_has_key indexes key valueMap key' :
  is_Some (merge_valueMap indexes (key, valueMap) !! key') ↔
  is_Some (indexes !! key') ∨ key' = key.
Proof.
  rewrite merge_valueMap_insert, lookup_insert.
  destruct (decide (key = key')) as [->|Hne]; cbn.
  - split; [by right | eauto].
  - split; [by left | intros [?|?]; [done|congruence]].
Qed.

Lemma merge_valueMap_has_entry indexes key valueMap key' value :
  is_Some (index_get (merge_valueMap indexes (key, valueMap)) key' value) ↔
  is_Some (index_get indexes key' value) ∨ (key' = key ∧ is_Some (valueMap !! value)).
Proof.
  rewrite merge_valueMap_insert. unfold index_get. rewrite lookup_insert.
  destruct (decide (key = key')) as [->|Hne]; cbn.
  - rewrite union_into_is_Some.
    assert (value ∈ (map_to_list valueMap).*1 ↔ is_Some (valueMap !! value)) as ->.
    { rewrite list_elem_of_fmap. split.
      - intros ([v ids] & -> & Hin). apply elem_of_map_to_list in Hin. eauto.
      - intros [ids Hv]. exists (value, ids). split; [done|]. by apply elem_of_map_to_list. }
    destruct (indexes !! key'); cbn; [|rewrite lookup_empty]; naive_solver.
  - split; [by left | intros [?|[? _]]; [done|congruence]].
Qed.

Lemma merge_valueMap_member indexes key valueMap key' value id :
  id ∈ ids_at (merge_valueMap indexes (key, valueMap)) key' value ↔
  id ∈ ids_at indexes key' value ∨
  (key' = key ∧ ∃ ids, valueMap !! value = Some ids ∧ id ∈ ids).
Proof.
  rewrite merge_valueMap_insert. unfold ids_at, index_get. rewrite lookup_insert.
  destruct (decide (key = key')) as [->|Hne]; cbn.
  - rewrite union_into_member.
    assert ((∃ ids, (value, ids) ∈ map_to_list valueMap ∧ id ∈ ids) ↔
            (∃ ids, valueMap !! value = Some ids ∧ id ∈ ids)) as ->.
    { split; intros (ids & Hin & ?); exists ids; split; try done;
        by apply elem_of_map_to_list. }
    destruct (indexes !! key'); cbn; [|rewrite lookup_empty]; naive_solver.
  - split; [by left | intros [?|[? _]]; [done|congruence]].
Qed.

Lemma merge_worker_cons indexes e (message : list (string * ValueMap)) :
  merge_worker indexes (e :: message) = merge_worker (merge_valueMap indexes e) message.
Proof. reflexivity. Qed.

(** ... and what merging the message of one worker does. *)
Lemma merge_worker_has_key (message : list (string * ValueMap)) indexes key :
  is_Some (merge_worker indexes message !! key) ↔
  is_Some (indexes !! key) ∨ key ∈ message.*1.
Proof.
  revert indexes. induction message as [|[k valueMap] message IH]; intros indexes.
  - cbn. split; [by left|]. intros [?|Hin]; [done|]. by apply elem_of_nil in Hin.
  - rewrite merge_worker_cons, IH, merge_valueMap_has_key. cbn [fmap list_fmap fst]. rewrite elem_of_cons.
    naive_solver.
Qed.

Lemma merge_worker_has_entry (message : list (string * ValueMap)) indexes key value :
  is_Some (index_get (merge_worker indexes message) key value) ↔
  is_Some (index_get indexes key value) ∨
  ∃ valueMap, (key, valueMap) ∈ message ∧ is_Some (valueMap !! value).
Proof.
  revert indexes. induction message as [|[k valueMap] message IH]; intros indexes.
  - cbn. split; [by left|]. intros [?|(? & Hin & _)]; [done|]. by apply elem_of_nil in Hin.
  - rewrite merge_worker_cons, IH, merge_valueMap_has_entry. split.
    + intros [[?|[-> ?]]|(vm & Hin & ?)]; [by left|right..].
      * exists valueMap. split; [apply list_elem_of_here|done].
      * exists vm. split; [by apply list_elem_of_further|done].
    + intros [?|(vm & Hin & ?)]; [by left; left|].
      apply elem_of_cons in Hin as [[= -> ->]|Hin]; [by left; right|]. right. eauto.
Qed.

Lemma merge_worker_member (message : list (string * ValueMap)) indexes key value id :
  id ∈ ids_at (merge_worker indexes message) key value ↔
  id ∈ ids_at indexes key value ∨
  ∃ valueMap ids, (key, valueMap) ∈ message ∧ valueMap !! value = Some ids ∧ id ∈ ids.
Proof.
  revert indexes. induction message as [|[k valueMap] message IH]; intros indexes.
  - cbn. split; [by left|]. intros [?|(? & ? & Hin & _)]; [done|]. by apply elem_of_nil in Hin.
  - rewrite merge_worker_cons, IH, merge_valueMap_member. split.
    + intros [[?|[-> (ids & ? & ?)]]|(vm & ids & Hin & ? & ?)]; [by left|right..].
      * exists valueMap, ids. split; [apply list_elem_of_here|done].
      * exists vm, ids. split; [by apply list_elem_of_further|done].
    + intros [?|(vm & ids & Hin & ? & ?)]; [by left; left|].
      apply elem_of_cons in Hin as [[= -> ->]|Hin]; [left; right; eauto|]. right. eauto.
Qed.

(** Merging the whole of a local index inserts its triples. *)
Lemma merge_worker_add_triples indexes ts :
  merge_worker indexes (map_to_list (add_triples ∅ ts)) = add_triples indexes ts.
Proof.
  apply index_ext3.
  - intros key. rewrite merge_worker_has_key, add_triples_has_key.
    assert (key ∈ (map_to_list (add_triples ∅ ts)).*1 ↔
            is_Some (add_triples ∅ ts !! key)) as ->.
    { rewrite list_elem_of_fmap. split.
      - intros ([k vm] & -> & Hin). apply elem_of_map_to_list in Hin. eauto.
      - intros [vm Hk]. exists (key, vm). split; [done|]. by apply elem_of_map_to_list. }
    rewrite add_triples_has_key, lookup_empty. naive_solver.
  - intros key value. rewrite merge_worker_has_entry, add_triples_has_entry.
    assert ((∃ valueMap, (key, valueMap) ∈ map_to_list (add_triples ∅ ts) ∧
                         is_Some (valueMap !! value)) ↔
            is_Some (index_get (add_triples ∅ ts) key value)) as ->.
    { unfold index_get. split.
      - intros (vm & Hin & Hv). apply elem_of_map_to_list in Hin. by rewrite Hin.
      - intros Hsome. destruct (add_triples ∅ ts !! key) as [vm|] eqn:Hk; cbn in Hsome.
        + exists vm. split; [by apply elem_of_map_to_list|done].
        + by destruct Hsome. }
    rewrite add_triples_has_entry. unfold index_get at 2. rewrite lookup_empty. naive_solver.
  - intros key value id. rewrite merge_worker_member, add_triples_member.
    assert ((∃ valueMap ids, (key, valueMap) ∈ map_to_list (add_triples ∅ ts) ∧
                             valueMap !! value = Some ids ∧ id ∈ ids) ↔
            id ∈ ids_at (add_triples ∅ ts) key value) as ->.
    { unfold ids_at, index_get. split.
      - intros (vm & ids & Hin & Hv & Hid). apply elem_of_map_to_list in Hin.
        by rewrite Hin; cbn; rewrite Hv.
      - intros Hid. destruct (add_triples ∅ ts !! key) as [vm|] eqn:Hk; cbn in Hid.
        + destruct (vm !! value) as [ids|] eqn:Hv; cbn in Hid; [|set_solver].
          exists vm, ids. split; [by apply elem_of_map_to_list|done].
        + set_solver. }
    rewrite add_triples_member. unfold ids_at at 2, index_get. rewrite lookup_empty.
    cbn. set_solver.
Qed.
End Merge.

Section Clone.
Implicit Types (indexes : Index) (ρ : nat → nat).

Lemma structuredClone_primitive ρ v : primitive v = true → structuredClone ρ v = v.
Proof. by destruct v. Qed.

Lemma fmap_fixed {A} (f : A → A) (l : list A) :
  (∀ x, x ∈ l → f x = x) → f <$> l = l.
Proof.
  induction l as [|x l IH]; intros Hf; [done|]. cbn.
  rewrite Hf by apply list_elem_of_here. f_equal. apply IH.
  intros y Hy. apply Hf. by apply list_elem_of_further.
Qed.

(** [postMessage] hands primitive records over unchanged. *)
Lemma clone_chunk_primitive ρ chunk :
  primitive_records chunk → clone_chunk ρ chunk = chunk.
Proof.
  intros Hprim. apply fmap_fixed. intros [id obj] Hin. cbn [fst snd].
  destruct (Hprim id obj Hin) as [Hid Hobj].
  rewrite structuredClone_primitive by done. f_equal.
  apply map_eq. intros key. rewrite lookup_fmap.
  destruct (obj !! key) as [value|] eqn:Hkey; cbn; [|done].
  by rewrite structuredClone_primitive by eauto.
Qed.

Lemma clone_valueMap_primitive ρ (valueMap : ValueMap) :
  (∀ value ids, valueMap !! value = Some ids →
     primitive value = true ∧ ∀ id, id ∈ ids → primitive id = true) →
  clone_valueMap ρ valueMap = valueMap.
Proof.
  intros Hprim. unfold clone_valueMap. rewrite fmap_fixed; [apply list_to_map_to_list|].
  intros [value ids] Hin. apply elem_of_map_to_list in Hin.
  destruct (Hprim value ids Hin) as [Hv Hids]. cbn [fst snd].
  rewrite structuredClone_primitive by done. f_equal.
  apply set_eq. intros id. rewrite elem_of_map. split.
  - intros (id' & -> & Hid'). by rewrite structuredClone_primitive by eauto.
  - intros Hid. exists id. by rewrite structuredClone_primitive by eauto.
Qed.

Lemma clone_indexes_primitive ρ indexes :
  (∀ key value, is_Some (index_get indexes key value) → primitive value = true) →
  (∀ key value id, id ∈ ids_at indexes key value → primitive id = true) →
  clone_indexes ρ indexes = map_to_list indexes.
Proof.
  intros Hvalues Hids. apply fmap_fixed. intros [key valueMap] Hin.
  apply elem_of_map_to_list in Hin. cbn [fst snd]. f_equal.
  apply clone_valueMap_primitive. intros value ids Hv. split.
  - apply (Hvalues key). unfold index_get. rewrite Hin. cbn. by rewrite Hv.
  - intros id Hid. apply (Hids key value). unfold ids_at, index_get. rewrite Hin. cbn.
    by rewrite Hv.
Qed.

(** The index of primitive records holds primitive values and ids. *)
Lemma sequential_index_primitive records :
  primitive_records records →
  (∀ key value,
     is_Some (index_get (sequential_index records) key value) → primitive value = true) ∧
  (∀ key value id,
     id ∈ ids_at (sequential_index records) key value → primitive id = true).
Proof.
  intros Hprim. unfold sequential_index. split.
  - intros key value Hsome. apply add_triples_has_entry in Hsome as [Hsome|(id & Hin)].
    + unfold index_get in Hsome. rewrite lookup_empty in Hsome. by destruct Hsome.
    + apply elem_of_triples in Hin as (obj & Hrec & Hkv).
      destruct (Hprim id obj Hrec) as [_ Hobj]. eauto.
  - intros key value id Hid. apply add_triples_member in Hid as [Hid|Hin].
    + unfold ids_at, index_get in Hid. rewrite lookup_empty in Hid. set_solver.
    + apply elem_of_triples in Hin as (obj & Hrec & Hkv).
      by destruct (Hprim id obj Hrec) as [? _].
Qed.

(** So a worker answers with the index of its chunk. *)
Lemma worker_reply_primitive o i chunk :
  primitive_records chunk →
  worker_reply o i chunk = map_to_list (sequential_index chunk).
Proof.
  intros Hprim. unfold worker_reply.
  rewrite clone_chunk_primitive, buildIndexChunk_sequential by done.
  destruct (sequential_index_primitive chunk Hprim) as [Hvalues Hids].
  by apply clone_indexes_primitive.
Qed.
End Clone.

Section Chunks.
Context {A : Type}.
Implicit Types (l : list A).

(** [n] slices of [chunkSize] are the first [n * chunkSize] elements. *)
Lemma concat_slices n chunkSize l :
  concat ((λ i, slice (i * chunkSize) ((i + 1) * chunkSize) l) <$> seq 0 n)
  = take (n * chunkSize) l.
Proof.
  induction n as [|n IH]; [by rewrite take_0|].
  rewrite seq_S, fmap_app, concat_app, IH. cbn [fmap list_fmap concat].
  rewrite app_nil_r. unfold slice.
  replace ((n + 1) * chunkSize - (0 + n) * chunkSize)%nat with chunkSize by lia.
  replace ((0 + n) * chunkSize)%nat with (n * chunkSize)%nat by lia.
  rewrite take_take_drop. f_equal. lia.
Qed.

Lemma ceil_div_covers a b : (0 < b → a ≤ b * ceil_div a b)%nat.
Proof.
  intros Hb. unfold ceil_div.
  pose proof (Nat.div_mod_eq (a + b - 1) b) as Hdiv.
  pose proof (Nat.mod_upper_bound (a + b - 1) b ltac:(lia)) as Hmod.
  lia.
Qed.

(** The chunks of [buildIndexes] are contiguous and cover the array. *)
Lemma chunks_cover workers l :
  (0 < workers)%nat →
  concat ((λ i, slice (i * ceil_div (length l) workers)
                      ((i + 1) * ceil_div (length l) workers) l) <$> seq 0 workers) = l.
Proof.
  intros Hw. rewrite concat_slices. apply take_ge.
  pose proof (ceil_div_covers (length l) workers Hw). lia.
Qed.

Lemma slice_subseteq from to l : slice from to l ⊆ l.
Proof. unfold slice. etrans; [apply subseteq_take|apply subseteq_drop]. Qed.
End Chunks.

Section BulkBuild.
Implicit Types (indexes : Index) (o : Oracle).

Lemma primitive_records_subseteq (records1 records2 : list (Value * Obj)) :
  records1 ⊆ records2 → primitive_records records2 → primitive_records records1.
Proof. intros Hsub Hprim id obj Hin. apply Hprim. by apply Hsub. Qed.

(** Merging the indexes of the chunks, one after the other, inserts the
    triples of their concatenation. *)
Lemma foldl_merge_worker_chunks indexes (chunks : list (list (Value * Obj))) :
  foldl merge_worker indexes ((λ chunk, map_to_list (sequential_index chunk)) <$> chunks)
  = add_triples indexes (triples (concat chunks)).
Proof.
  revert indexes. induction chunks as [|chunk chunks IH]; intros indexes; [done|].
  cbn [fmap list_fmap foldl concat].
  rewrite triples_app, add_triples_app. unfold sequential_index at 1.
  by rewrite merge_worker_add_triples, <- IH.
Qed.

Lemma build_indexes_from_sequential o workers dataArray :
  (0 < workers)%nat → primitive_records dataArray →
  build_indexes_from o workers dataArray = sequential_index dataArray.
Proof.
  intros Hw Hprim. unfold build_indexes_from.
  set (chunks := (λ i, slice _ _ dataArray) <$> seq 0 workers).
  rewrite (imap_ext _ (const (λ chunk, map_to_list (sequential_index chunk)))); cycle 1.
  { intros i chunk Hchunk. apply worker_reply_primitive.
    apply (primitive_records_subseteq _ dataArray); [|done].
    apply list_elem_of_lookup_2 in Hchunk. unfold chunks in Hchunk.
    apply list_elem_of_fmap in Hchunk as (j & -> & _). apply slice_subseteq. }
  rewrite imap_const, foldl_merge_worker_chunks.
  unfold chunks. by rewrite chunks_cover.
Qed.

(** X30: for every sequence of records whose ids and
    field values are primitive, cutting it into N contiguous chunks (any
    N > 0, and so the N = max(1, cpus / 2) of [initWorkers]), indexing each
    chunk in its own worker and merging the answers gives exactly the
    index of one sequential pass that inserts every (field, value, id)
    triple. *)
Theorem parallel_build_equals_sequential o workers dataArray :
  primitive_records dataArray →
  ((0 < workers)%nat →
   build_indexes_from o workers dataArray = sequential_index dataArray) ∧
  build_indexes_from o (Nat.max 1 (os_cpus o / 2)) dataArray = sequential_index dataArray.
Proof.
  intros Hprim. split.
  - intros Hw. by apply build_indexes_from_sequential.
  - apply build_indexes_from_sequential; [lia|done].
Qed.

(** The index after a bulk build files every pair of every record. *)
Lemma sequential_index_consistent (data : gmap Value Obj) :
  index_complete data (sequential_index (map_to_list data)) ∧
  index_sound data (sequential_index (map_to_list data)).
Proof.
  unfold sequential_index. split.
  - intros id obj key value Hid Hkv. apply add_triples_member. right.
    apply elem_of_triples. exists obj. split; [by apply elem_of_map_to_list|done].
  - intros key value id Hin. apply add_triples_member in Hin as [Hin|Hin].
    + unfold ids_at, index_get in Hin. rewrite lookup_empty in Hin. set_solver.
    + apply elem_of_triples in Hin as (obj & Hrec & Hkv).
      exists obj. split; [by apply elem_of_map_to_list|done].
Qed.

Lemma primitive_records_check records :
  primitive_recordsb records = true → primitive_records records.
Proof.
  unfold primitive_recordsb. rewrite <- Is_true_true, forallb_True, Forall_forall.
  intros Hall id obj Hin. specialize (Hall _ Hin). cbn [fst snd] in Hall.
  apply andb_True in Hall as [Hid Hobj]. split; [by apply Is_true_true|].
  intros key value Hkv. rewrite forallb_True, Forall_forall in Hobj.
  apply Is_true_true, (Hobj (key, value)). by apply elem_of_map_to_list.
Qed.
End BulkBuild.


(** ** The states a store goes through *)

Section Reachable.
Context `{host : Host} {C : Type} `{rc : ResultCache C}.
Implicit Types (db : Database C) (o : Oracle).

(** [update] and [delete] keep the index complete, whatever else it
    files. *)
Lemma update_complete o id updates db :
  isInitialized db = true → index_complete (data db) (indexes db) →
  isInitialized (after (update o id updates db)) = true ∧
  index_complete (data (after (update o id updates db)))
                 (indexes (after (update o id updates db))).
Proof.
  intros Hinit Hc. destruct (data db !! id) as [existingObj|] eqn:Hid.
  - rewrite (update_found _ _ _ _ existingObj) by done.
    cbn [after data indexes isInitialized set_data set_indexes set_dirty].
    split; [done|]. rewrite <- (insert_delete_data (data db)).
    apply insert_complete. by apply remove_complete.
  - by rewrite update_missing.
Qed.

Lemma delete_complete o id db :
  isInitialized db = true → index_complete (data db) (indexes db) →
  isInitialized (after (delete_ o id db)) = true ∧
  index_complete (data (after (delete_ o id db))) (indexes (after (delete_ o id db))).
Proof.
  intros Hinit Hc. destruct (data db !! id) as [obj|] eqn:Hid.
  - rewrite (delete_found _ _ _ obj) by done.
    cbn [after data indexes isInitialized set_data set_indexes set_dirty].
    split; [done|]. by apply remove_complete.
  - by rewrite delete_missing.
Qed.

Lemma save_keeps_initialized o : keeps (C:=C) isInitialized (save o).
Proof. unfold save, join_inflight. repeat keeps_step. Qed.

(** Once initialized, with a complete index, a store stays so through
    every sequence of calls. *)
Lemma reachable_complete db0 db :
  isInitialized db0 = true → index_complete (data db0) (indexes db0) →
  reachable db0 db →
  isInitialized db = true ∧ index_complete (data db) (indexes db).
Proof.
  intros Hinit0 Hc0. induction 1 as [|db o op _ [Hinit Hc]]; [done|].
  destruct op as [obj| |id updates|key value|query|id| |]; cbn [step].
  - split; [by apply create_keeps_initialized|by apply create_complete].
  - by rewrite read_initialized.
  - by apply update_complete.
  - destruct (findByKey_keeps_store o key value db Hinit) as (-> & -> & ->). done.
  - destruct (findByQuery_keeps_store o query db Hinit) as (-> & -> & ->). done.
  - by apply delete_complete.
  - by rewrite save_keeps_initialized, save_keeps_data, save_keeps_indexes.
  - unfold autoSave_tick, bind, this.
    destruct (dirty db && negb (savePromise db)); [|done].
    destruct (save o db) as [c db1 evs1] eqn:Hsave.
    pose proof (save_keeps_initialized o db) as Hi.
    pose proof (save_keeps_data (C:=C) o db) as Hd.
    pose proof (save_keeps_indexes (C:=C) o db) as Hx.
    rewrite Hsave in Hi, Hd, Hx. cbn [after] in *. destruct c; cbn [after]; by rewrite Hi, Hd, Hx.
Qed.
End Reachable.

(** * Further properties of the methods *)

(** ** The query methods *)

Section FurtherQueries.
Context `{host : Host} {C : Type} `{rc : ResultCache C}.
Implicit Types (db : Database C) (o : Oracle) (query : Query).

Lemma length_materialize (data : gmap Value Obj) p (ids : gset Value) :
  (length (materialize data p ids) ≤ size ids)%nat.
Proof.
  unfold materialize, size, set_size. cbn.
  induction (elements ids) as [|id l IH]; cbn; [done|].
  destruct (data !! id) as [obj|]; [destruct (p obj)|]; cbn; lia.
Qed.

(** [findByKey] on a miss: the whole run. *)
Lemma findByKey_on_miss o key value s db :
  isInitialized db = true →
  String_of value = Return s →
  (cache_get (Date_now o) (key +:+ ":" +:+ s) (cache db)).1 = None →
  findByKey o key value db =
  let looked := set_cache (cache_get (Date_now o) (key +:+ ":" +:+ s) (cache db)).2 db in
  match index_get (indexes db) key value with
  | None => mkOutcome (Return []) looked []
  | Some ids =>
      mkOutcome (Return (materialize (data db) (λ _, true) ids))
        (set_cache (cache_set (Date_now o) (key +:+ ":" +:+ s)
                      (materialize (data db) (λ _, true) ids) (cache looked)) looked)
        []
  end.
Proof.
  intros Hinit Hs Hmiss. unfold findByKey.
  erewrite bind_run by (by apply init_initialized).
  erewrite bind_run by (unfold call; by rewrite Hs).
  erewrite (bind_run this) by reflexivity.
  erewrite bind_run by reflexivity. rewrite Hmiss. cbn zeta.
  by destruct (index_get (indexes db) key value).
Qed.

Lemma findByKey_on_hit o key value s db hit :
  isInitialized db = true →
  String_of value = Return s →
  (cache_get (Date_now o) (key +:+ ":" +:+ s) (cache db)).1 = Some hit →
  completion (findByKey o key value db) = Return hit.
Proof.
  intros Hinit Hs Hhit. unfold findByKey.
  erewrite bind_run by (by apply init_initialized).
  erewrite bind_run by (unfold call; by rewrite Hs).
  erewrite (bind_run this) by reflexivity.
  erewrite bind_run by reflexivity. by rewrite Hhit.
Qed.

Lemma findByKey_key_throws o key value e db :
  isInitialized db = true →
  String_of value = Throw e →
  findByKey o key value db = mkOutcome (Throw e) db [].
Proof.
  intros Hinit Hs. unfold findByKey.
  erewrite bind_run by (by apply init_initialized).
  unfold bind, call. by rewrite Hs.
Qed.

(** X1: when the cache key is computed and the cache misses, on a
    consistent index, [findByKey(key, value)] returns exactly the stored
    records that hold [value] at [key], compared as [Map] keys are (so a
    record holding NaN is found under NaN). *)
Theorem findByKey_exact_on_cache_miss o key value s db :
  isInitialized db = true →
  String_of value = Return s →
  (cache_get (Date_now o) (key +:+ ":" +:+ s) (cache db)).1 = None →
  index_consistent db →
  ∃ results,
    completion (findByKey o key value db) = Return results ∧
    ∀ obj, obj ∈ results ↔ ∃ id, data db !! id = Some obj ∧ obj !! key = Some value.
Proof.
  intros Hinit Hstr Hmiss [Hc Hs]. rewrite (findByKey_on_miss o key value s) by done.
  cbn zeta.
  destruct (index_get (indexes db) key value) as [ids|] eqn:Hget; cbn [completion].
  - eexists. split; [done|]. intros obj. rewrite elem_of_materialize. split.
    + intros (id & Hid & Hobj & _). exists id. split; [done|].
      destruct (Hs key value id) as (obj' & Hobj' & Hkv).
      { unfold ids_at. by rewrite Hget. }
      rewrite Hobj in Hobj'. by injection Hobj' as <-.
    + intros (id & Hobj & Hkv). exists id. split; [|done].
      pose proof (Hc id obj key value Hobj Hkv) as Hin. unfold ids_at in Hin.
      by rewrite Hget in Hin.
  - exists []. split; [done|]. intros obj. split.
    + intros Hin. by apply elem_of_nil in Hin.
    + intros (id & Hobj & Hkv).
      pose proof (Hc id obj key value Hobj Hkv) as Hin. unfold ids_at in Hin.
      rewrite Hget in Hin. set_solver.
Qed.

(** X2: when the cache key is computed and the cache misses, whatever
    the index holds, [findByKey] returns only records that are stored now
    (ids without a record are dropped) and never more records than the
    index entry has ids; when there is no entry, it returns the empty
    sequence and calls nothing but [get] on the cache. *)
Theorem findByKey_miss_is_defensive o key value s db :
  isInitialized db = true →
  String_of value = Return s →
  (cache_get (Date_now o) (key +:+ ":" +:+ s) (cache db)).1 = None →
  ∃ results,
    completion (findByKey o key value db) = Return results ∧
    (∀ obj, obj ∈ results → stored db obj) ∧
    (length results ≤ size (ids_at (indexes db) key value))%nat ∧
    (index_get (indexes db) key value = None →
     results = [] ∧
     after (findByKey o key value db)
     = set_cache (cache_get (Date_now o) (key +:+ ":" +:+ s) (cache db)).2 db).
Proof.
  intros Hinit Hstr Hmiss. rewrite (findByKey_on_miss o key value s) by done.
  cbn zeta. unfold ids_at.
  destruct (index_get (indexes db) key value) as [ids|] eqn:Hget; cbn [completion after default].
  - eexists. split; [done|]. split; [|split; [apply length_materialize|done]].
    intros obj Hin. apply elem_of_materialize in Hin as (id & _ & Hobj & _). by exists id.
  - exists []. split; [done|]. split; [|split; [cbn; lia|done]].
    intros obj Hin. by apply elem_of_nil in Hin.
Qed.

(** X3: when the cache key is computed and the cache misses, whatever
    the index holds, every record that [findByQuery] returns is stored now
    and reads, at every predicate's field, a value equal to the predicate's
    under [===]: stale index entries cannot put a wrong record in the
    result. *)
Theorem findByQuery_miss_is_sound o query s db :
  isInitialized db = true →
  JSON_stringify query = Return s →
  (cache_get (Date_now o) ("query:" +:+ s) (cache db)).1 = None →
  NoDup query.*1 →
  ∃ results,
    completion (findByQuery o query db) = Return results ∧
    ∀ obj, obj ∈ results → stored db obj ∧ satisfies query obj.
Proof.
  intros Hinit Hstr Hmiss Hnd. rewrite (findByQuery_on_miss o query s) by done.
  rewrite findByQuery_miss_completion. cbn [data indexes set_cache].
  eexists. split; [done|]. intros obj Hin.
  destruct (length (Object_keys query) =? 0)%nat; [by apply elem_of_nil in Hin|].
  destruct (smallest_matching (indexes db) query (Object_keys query)).1
    as [smallestSet|]; [|by apply elem_of_nil in Hin].
  apply elem_of_materialize in Hin as (id & _ & Hobj & Hp).
  split; [by exists id|]. by apply every_key_matches_satisfies.
Qed.

(** X4: the work of a miss is bounded by the smallest index entry: the
    result of [findByQuery] is no longer than the id set of any of its
    predicates that has one. *)
Theorem findByQuery_result_bounded o query s db key ids :
  isInitialized db = true →
  JSON_stringify query = Return s →
  (cache_get (Date_now o) ("query:" +:+ s) (cache db)).1 = None →
  key ∈ Object_keys query →
  index_get (indexes db) key (query_prop query key) = Some ids →
  ∃ results,
    completion (findByQuery o query db) = Return results ∧
    (length results ≤ size ids)%nat.
Proof.
  intros Hinit Hstr Hmiss Hkey Hget. rewrite (findByQuery_on_miss o query s) by done.
  rewrite findByQuery_miss_completion. cbn [data indexes set_cache].
  eexists. split; [done|].
  destruct (length (Object_keys query) =? 0)%nat; [cbn; lia|].
  destruct (smallest_matching (indexes db) query (Object_keys query)).1
    as [smallestSet|] eqn:Hs; [|cbn; lia].
  etrans; [apply length_materialize|]. by eapply smallest_matching_least.
Qed.

(** X5: the two query methods share the cache and its keys: a cached entry
    under ["query:" + JSON.stringify(query)] answers [findByQuery(query)] and
    also [findByKey("query", JSON.stringify(query))], whichever of the two
    stored it. *)
Theorem query_methods_share_cache_keys o query s db hit :
  isInitialized db = true →
  JSON_stringify query = Return s →
  String_of (VStr s) = Return s →
  (cache_get (Date_now o) ("query:" +:+ s) (cache db)).1 = Some hit →
  completion (findByQuery o query db) = Return hit ∧
  completion (findByKey o "query" (VStr s) db) = Return hit.
Proof.
  intros Hinit Hjson Hstr Hhit. split; [by eapply findByQuery_on_hit|].
  by eapply findByKey_on_hit.
Qed.

(** X6: a predicate whose value is NaN matches nothing: on a miss
    [findByQuery] returns the empty sequence, although [findByKey] finds the
    records filed under NaN. *)
Theorem findByQuery_NaN_matches_nothing o query s db key :
  isInitialized db = true →
  JSON_stringify query = Return s →
  (cache_get (Date_now o) ("query:" +:+ s) (cache db)).1 = None →
  key ∈ Object_keys query → query_prop query key = VNaN →
  completion (findByQuery o query db) = Return [].
Proof.
  intros Hinit Hstr Hmiss Hkey Hnan. rewrite (findByQuery_on_miss o query s) by done.
  rewrite findByQuery_miss_completion. cbn [data indexes set_cache]. f_equal.
  destruct (length (Object_keys query) =? 0)%nat; [done|].
  destruct (smallest_matching (indexes db) query (Object_keys query)).1
    as [smallestSet|]; [|done].
  apply elem_of_nil_inv. intros obj Hin.
  apply elem_of_materialize in Hin as (id & _ & _ & Hp).
  pose proof (proj1 (every_key_matches_spec query obj) Hp key Hkey) as Hm.
  rewrite Hnan in Hm. pose proof (strict_eq_true _ _ Hm) as Heq.
  rewrite Heq in Hm. discriminate.
Qed.
End FurtherQueries.

(** ** The record store *)

Section FurtherStore.
Context `{host : Host} {C : Type} `{rc : ResultCache C}.
Implicit Types (db : Database C) (o : Oracle) (obj : Obj).

(** A consistent index is determined by the record map. *)
Lemma consistent_ids_at db key value id :
  index_consistent db →
  id ∈ ids_at (indexes db) key value ↔
  ∃ obj, data db !! id = Some obj ∧ obj !! key = Some value.
Proof.
  intros [Hc Hs]. split; [apply Hs|]. intros (obj & Hobj & Hkv). by eapply Hc.
Qed.

Lemma foldl_add_keeps_entry id (entries : list (string * Value)) indexes key value :
  is_Some (index_get indexes key value) →
  is_Some (index_get (foldl (index_add id) indexes entries) key value).
Proof.
  intros Hsome. rewrite foldl_entries_add_triples. apply add_triples_has_entry. by left.
Qed.

Lemma foldl_remove_keeps_entry id (entries : list (string * Value)) indexes key value :
  is_Some (index_get (foldl (index_remove id) indexes entries) key value) ↔
  is_Some (index_get indexes key value).
Proof.
  revert indexes. induction entries as [|[k v] entries IH]; intros indexes; cbn [foldl]; [done|].
  rewrite IH, index_get_remove. case_decide as Heq; [|done].
  destruct Heq as [-> ->]. by rewrite fmap_is_Some.
Qed.

(** X7: [create] of a record under a new id, then [delete] of that id,
    gives back the record map and every id set of the index: [delete]
    returns true, and only the dirty flag and emptied index entries remain
    of the pair of calls. *)
Theorem create_then_delete_restores o o' obj db :
  isInitialized db = true →
  data db !! created_id o obj = None →
  index_sound (data db) (indexes db) →
  completion (delete_ o' (created_id o obj) (after (create o obj db))) = Return true ∧
  data (after (delete_ o' (created_id o obj) (after (create o obj db)))) = data db ∧
  ∀ key value,
    ids_at (indexes (after (delete_ o' (created_id o obj) (after (create o obj db))))) key value
    = ids_at (indexes db) key value.
Proof.
  intros Hinit Hnew Hs.
  pose proof (create_keeps_initialized o obj db Hinit) as Hinit1.
  destruct (create_after o obj db Hinit) as [Hd Hi]. cbn zeta in Hd, Hi.
  assert (Hid : data (after (create o obj db)) !! created_id o obj = Some (created_obj o obj)).
  { rewrite Hd. apply lookup_insert_eq. }
  rewrite (delete_found _ _ _ _ Hinit1 Hid).
  cbn [completion after data indexes set_dirty set_data set_indexes]. rewrite Hd, Hi.
  cbn [data indexes created set_indexes set_dirty set_data].
  split; [done|]. split; [by apply delete_insert_id|].
  intros key value. apply set_eq. intros id.
  rewrite elem_of_ids_at_foldl_remove, elem_of_ids_at_foldl_add. split.
  - intros [[Hin|[-> Hin]] Hn]; [done|]. destruct Hn. done.
  - intros Hin. split; [by left|]. intros [-> _].
    apply Hs in Hin as (obj' & Hobj' & _). by rewrite Hnew in Hobj'.
Qed.

(** X8: [update] is idempotent on a consistent store: the same partial map
    applied a second time returns the same record and leaves the same record
    map and the same id set under every (field, value). *)
Theorem update_twice_is_update_once o o' id updates db :
  isInitialized db = true → index_consistent db →
  completion (update o' id updates (after (update o id updates db)))
  = completion (update o id updates db) ∧
  data (after (update o' id updates (after (update o id updates db))))
  = data (after (update o id updates db)) ∧
  ∀ key value,
    ids_at (indexes (after (update o' id updates (after (update o id updates db))))) key value
    = ids_at (indexes (after (update o id updates db))) key value.
Proof.
  intros Hinit Hcons.
  pose proof (update_consistent o id updates db Hinit Hcons) as Hcons1.
  destruct (update_complete o id updates db Hinit (proj1 Hcons)) as [Hinit1 _].
  pose proof (update_consistent o' id updates _ Hinit1 Hcons1) as Hcons2.
  assert (Hdata : completion (update o' id updates (after (update o id updates db)))
                  = completion (update o id updates db) ∧
                  data (after (update o' id updates (after (update o id updates db))))
                  = data (after (update o id updates db))).
  { destruct (data db !! id) as [existingObj|] eqn:Hid.
    - rewrite (update_found o id updates db existingObj) by done.
      cbn [after completion]. erewrite update_found; [|done|apply lookup_insert_eq].
      cbn [after completion data set_indexes set_dirty set_data].
      rewrite insert_insert_eq.
      by rewrite (assoc_L (∪)), (idemp_L (∪)).
    - rewrite (update_missing o id updates db) by done. cbn [after completion].
      by rewrite update_missing. }
  destruct Hdata as [Hcomp Hdata]. split; [done|]. split; [done|].
  intros key value. apply set_eq. intros id'.
  rewrite !consistent_ids_at by done. by rewrite Hdata.
Qed.

(** X9: an [update] with no field changes neither the record nor any id
    set of a store whose index is complete, and still returns the record and
    marks the store dirty. *)
Theorem update_with_no_field o id db existingObj :
  isInitialized db = true → data db !! id = Some existingObj →
  index_complete (data db) (indexes db) →
  completion (update o id ∅ db) = Return (Some existingObj) ∧
  data (after (update o id ∅ db)) = data db ∧
  (∀ key value,
     ids_at (indexes (after (update o id ∅ db))) key value = ids_at (indexes db) key value) ∧
  dirty (after (update o id ∅ db)) = true.
Proof.
  intros Hinit Hid Hc. rewrite (update_found o id ∅ db existingObj) by done.
  cbn [completion after data indexes dirty set_indexes set_dirty set_data].
  rewrite (left_id_L ∅ (∪)). split; [done|]. split; [by apply insert_id|]. split; [|done].
  intros key value. apply set_eq. intros id'.
  rewrite elem_of_ids_at_foldl_add, elem_of_ids_at_foldl_remove. split.
  - intros [[Hin _]|[-> Hkv]]; [done|].
    apply elem_of_Object_entries in Hkv. by eapply Hc.
  - intros Hin. destruct (decide (id' = id ∧ (key, value) ∈ Object_entries existingObj))
      as [[-> Hkv]|Hn]; [by right|by left].
Qed.

(** X10: [update] keeps the key a record is stored at, even when the
    partial map names [id]: the record then carries the new id, stays under
    the old key, is filed in the index under the old key, and nothing appears
    under the new id. *)
Theorem update_of_id_field_keeps_the_key o id newId updates db existingObj :
  isInitialized db = true → data db !! id = Some existingObj →
  updates !! "id" = Some newId → newId ≠ id →
  ∃ updatedObj,
    data (after (update o id updates db)) !! id = Some updatedObj ∧
    updatedObj !! "id" = Some newId ∧
    data (after (update o id updates db)) !! newId = data db !! newId ∧
    id ∈ ids_at (indexes (after (update o id updates db))) "id" newId.
Proof.
  intros Hinit Hid Hup Hne. exists (updates ∪ existingObj).
  rewrite (update_found o id updates db existingObj) by done.
  cbn [after data indexes set_indexes set_dirty set_data].
  assert (Hnew : (updates ∪ existingObj) !! "id" = Some newId) by by apply lookup_union_Some_l.
  split; [apply lookup_insert_eq|]. split; [done|]. split.
  - by rewrite lookup_insert_ne.
  - apply elem_of_ids_at_foldl_add. right. split; [done|]. by apply elem_of_Object_entries.
Qed.

(** X11: [delete] of a stored id returns true, removes that record and no
    other, and makes the id unknown: a second [delete] returns false and
    changes nothing. *)
Theorem delete_removes_one_record o o' id db obj :
  isInitialized db = true → data db !! id = Some obj →
  completion (delete_ o id db) = Return true ∧
  data (after (delete_ o id db)) !! id = None ∧
  (∀ id', id' ≠ id → data (after (delete_ o id db)) !! id' = data db !! id') ∧
  S (size (data (after (delete_ o id db)))) = size (data db) ∧
  completion (delete_ o' id (after (delete_ o id db))) = Return false ∧
  after (delete_ o' id (after (delete_ o id db))) = after (delete_ o id db).
Proof.
  intros Hinit Hid. rewrite (delete_found o id db obj) by done.
  cbn [completion after data set_dirty set_data set_indexes].
  split; [done|]. split; [apply lookup_delete_eq|]. split; [|split].
  - intros id' Hne. by apply lookup_delete_ne.
  - rewrite <- (insert_delete_id (data db) id obj Hid) at 2.
    by rewrite map_size_insert_None by apply lookup_delete_eq.
  - rewrite delete_missing; [done|done|]. cbn [data set_dirty set_data]. apply lookup_delete_eq.
Qed.

(** X12: no call ever removes an entry of the index: once (field, value)
    has an id set, it has one after every further call, emptied perhaps but
    present. *)
Theorem index_entries_are_never_removed o op db key value :
  isInitialized db = true →
  is_Some (index_get (indexes db) key value) →
  is_Some (index_get (indexes (step o op db)) key value).
Proof.
  intros Hinit Hsome. destruct op as [obj| |id updates|k v|query|id| |]; cbn [step].
  - destruct (create_after o obj db Hinit) as [_ ->]. cbn [indexes created set_indexes].
    by apply foldl_add_keeps_entry.
  - by rewrite read_initialized.
  - destruct (data db !! id) as [existingObj|] eqn:Hid.
    + rewrite (update_found o id updates db existingObj) by done.
      cbn [after indexes set_indexes set_dirty set_data].
      by apply foldl_add_keeps_entry, foldl_remove_keeps_entry.
    + by rewrite update_missing.
  - by destruct (findByKey_keeps_store o k v db Hinit) as (_ & -> & _).
  - by destruct (findByQuery_keeps_store o query db Hinit) as (_ & -> & _).
  - destruct (data db !! id) as [obj|] eqn:Hid.
    + rewrite (delete_found o id db obj) by done.
      cbn [after indexes set_indexes set_dirty set_data].
      by apply foldl_remove_keeps_entry.
    + by rewrite delete_missing.
  - by rewrite save_keeps_indexes.
  - unfold autoSave_tick, bind, this.
    destruct (dirty db && negb (savePromise db)); [|done].
    pose proof (save_keeps_indexes (C:=C) o db) as Hx.
    destruct (save o db) as [[]  db1 evs1]; cbn [after] in *; by rewrite Hx.
Qed.

(** X13: every call other than [create] on an id that is already stored
    keeps the index consistent with the record map, in both directions. *)
Theorem calls_keep_index_consistent o op db :
  isInitialized db = true → index_consistent db →
  (∀ obj, op = Create obj → data db !! created_id o obj = None) →
  index_consistent (step o op db).
Proof.
  intros Hinit Hcons Hfresh. destruct op as [obj| |id updates|k v|query|id| |]; cbn [step].
  - apply create_fresh_consistent; auto.
  - by rewrite read_initialized.
  - by apply update_consistent.
  - unfold index_consistent.
    by destruct (findByKey_keeps_store o k v db Hinit) as (-> & -> & _).
  - unfold index_consistent.
    by destruct (findByQuery_keeps_store o query db Hinit) as (-> & -> & _).
  - by apply delete_consistent.
  - unfold index_consistent. by rewrite save_keeps_data, save_keeps_indexes.
  - unfold index_consistent, autoSave_tick, bind, this.
    destruct (dirty db && negb (savePromise db)); [|done].
    pose proof (save_keeps_indexes (C:=C) o db) as Hx.
    pose proof (save_keeps_data (C:=C) o db) as Hd.
    destruct (save o db) as [[] db1 evs1]; cbn [after] in *; by rewrite Hx, Hd.
Qed.
End FurtherStore.

(** ** Saving, loading and starting *)

(** Decides a membership in an explicit list of effects. *)
Ltac effect_cases H :=
  repeat (apply elem_of_cons in H as [H|H]; [try discriminate H|]);
  try (by apply elem_of_nil in H).

Section FurtherPersistence.
Context `{host : Host} {C : Type} `{rc : ResultCache C}.
Implicit Types (db : Database C) (o : Oracle) (obj : Obj).

(** The object that a save in flight leaves when it has settled. *)
Lemma save_joins o db :
  savePromise db = true →
  save o db =
  mkOutcome (inflight_save o)
    match inflight_save o with
    | Return _ => set_savePromise false (set_lastSave (Date_now o) (set_dirty false db))
    | Throw _ => set_savePromise false db
    end [].
Proof.
  intros Hsp. unfold save, join_inflight, bind, this, call, try_finally, assign.
  rewrite Hsp. by destruct (inflight_save o) as [[]|e].
Qed.

(** The runs of [save]: joined, through, or failed at one of three steps. *)
Lemma save_runs o db :
  let tmp := path_resolve (schema db +:+ ".tmp") in
  (savePromise db = true ∧ ∃ db1, save o db = mkOutcome (inflight_save o) db1 []) ∨
  (savePromise db = false ∧
   ((∃ packedData,
       fs_writeFile o = Return tt ∧
       save o db = mkOutcome (Return tt) (set_lastSave (Date_now o) (set_dirty false db))
                     [WriteFile tmp packedData; Rename tmp (path_resolve (schema db))]) ∨
    (∃ e packedData,
       fs_writeFile o = Return tt ∧
       save o db = mkOutcome (Throw e) db
                     [WriteFile tmp packedData; Rename tmp (path_resolve (schema db));
                      ConsoleError "Error saving data:" e; Unlink tmp]) ∨
    (∃ e packedData,
       save o db = mkOutcome (Throw e) db
                     [WriteFile tmp packedData; ConsoleError "Error saving data:" e;
                      Unlink tmp]) ∨
    (∃ e,
       save o db = mkOutcome (Throw e) db
                     [ConsoleError "Error saving data:" e; Unlink tmp]))).
Proof.
  cbn zeta. destruct (savePromise db) eqn:Hsp.
  { left. split; [done|]. eexists. by apply save_joins. }
  right. split; [done|].
  destruct (msgpack_encode (map_to_list (data db)).*2) as [packedData|e] eqn:Henc.
  - destruct (fs_writeFile o) as [[]|e] eqn:Hw.
    + destruct (fs_rename o) as [[]|e] eqn:Hr.
      * left. exists packedData. split; [done|]. by apply save_completes.
      * right. left. exists e, packedData. split; [done|]. by apply save_rename_fails.
    + right. right. left. exists e, packedData. by apply save_write_fails.
  - right. right. right. exists e. by apply save_encode_fails.
Qed.

(** X14: [save] writes to the temporary file only and reads nothing; it
    renames, from the temporary file to the snapshot, only after the write
    succeeded; it unlinks, the temporary file, only when it is about to
    throw. *)
Theorem save_writes_only_the_temp_file o db :
  (∀ path content, WriteFile path content ∈ effects (save o db) →
     path = path_resolve (schema db +:+ ".tmp")) ∧
  (∀ src dst, Rename src dst ∈ effects (save o db) →
     src = path_resolve (schema db +:+ ".tmp") ∧ dst = path_resolve (schema db) ∧
     fs_writeFile o = Return tt) ∧
  (∀ path, Unlink path ∈ effects (save o db) →
     path = path_resolve (schema db +:+ ".tmp") ∧ ∃ e, completion (save o db) = Throw e) ∧
  (∀ path, ReadFile path ∉ effects (save o db)).
Proof.
  destruct (save_runs o db)
    as [(_ & db1 & ->)|[_ [(p & Hw & ->)|[(e & p & Hw & ->)|[(e & p & ->)|(e & ->)]]]]];
    cbn [effects completion]; (split; [|split; [|split]]).
  all: try (intros path content Hin; effect_cases Hin; by injection Hin as -> _).
  all: try (intros src dst Hin; effect_cases Hin; by injection Hin as -> ->).
  all: try (intros path Hin; effect_cases Hin; injection Hin as ->; eauto).
  all: try (intros path Hin; effect_cases Hin).
Qed.

(** X15: [save] leaves the records, the index and the cache as it found
    them, however it ends, and when it has settled no save is marked in
    flight.  When a save is in flight it starts no second one: it calls
    nothing outside and settles as that save does, after that save has
    cleared the in-flight marker and, when it got through, cleared the dirty
    flag and set the last-save time. *)
Theorem save_is_coalesced_and_releases o db :
  data (after (save o db)) = data db ∧
  indexes (after (save o db)) = indexes db ∧
  cache (after (save o db)) = cache db ∧
  savePromise (after (save o db)) = false ∧
  (savePromise db = true →
   completion (save o db) = inflight_save o ∧
   effects (save o db) = [] ∧
   after (save o db) =
   match inflight_save o with
   | Return _ => set_savePromise false (set_lastSave (Date_now o) (set_dirty false db))
   | Throw _ => set_savePromise false db
   end).
Proof.
  split; [apply save_keeps_data|]. split; [apply save_keeps_indexes|].
  split; [apply save_keeps_cache|]. split.
  - destruct (savePromise db) eqn:Hsp.
    + rewrite save_joins by done. cbn [after]. by destruct (inflight_save o).
    + destruct (save_runs o db)
        as [[Hsp' _]|[_ [(p & Hw & ->)|[(e & p & Hw & ->)|[(e & p & ->)|(e & ->)]]]]];
        [congruence|done..].
  - intros Hsp. by rewrite save_joins.
Qed.

(** X16: [create] touches the file system only when the store reaches a
    multiple of the batch size: otherwise it returns the stored record with
    no effect; at a multiple its effects are those of one [save]. *)
Theorem create_saves_at_batch_multiples o obj db :
  isInitialized db = true →
  ((N.of_nat (size (data (created o obj db))) mod batchSize db =? 0)%N = false →
   create o obj db = mkOutcome (Return (created_obj o obj)) (created o obj db) []) ∧
  ((N.of_nat (size (data (created o obj db))) mod batchSize db =? 0)%N = true →
   effects (create o obj db) = effects (save o (created o obj db))) ∧
  (data db !! created_id o obj = None →
   size (data (created o obj db)) = S (size (data db))).
Proof.
  intros Hinit. rewrite create_initialized by done. unfold bind. split; [|split].
  - intros ->. reflexivity.
  - intros ->. destruct (save o (created o obj db)) as [[[]|e] db1 evs1];
      unfold ret; cbn [effects]; [|done].
    by rewrite app_nil_r.
  - intros Hnew. cbn [created data set_indexes set_dirty set_data].
    by apply map_size_insert_None.
Qed.

(** X17: when the save that [create] triggers fails, [create] throws the
    error of the save, after the record has been stored and indexed: the
    caller gets no record back, and the store holds it, marked dirty. *)
Theorem create_throws_after_storing o obj db e :
  isInitialized db = true → savePromise db = false →
  (N.of_nat (size (data (created o obj db))) mod batchSize db =? 0)%N = true →
  save_fails o (created o obj db) e →
  completion (create o obj db) = Throw e ∧
  data (after (create o obj db)) !! created_id o obj = Some (created_obj o obj) ∧
  created_id o obj ∈ ids_at (indexes (after (create o obj db))) "id" (created_id o obj) ∧
  dirty (after (create o obj db)) = true.
Proof.
  intros Hinit Hsp Hbatch Hfail. rewrite create_initialized by done. unfold bind.
  rewrite Hbatch.
  assert (Hsave : ∃ evs, save o (created o obj db) = mkOutcome (Throw e) (created o obj db) evs).
  { destruct Hfail as [Henc|[[packedData Henc] [Hw|[Hw Hr]]]]; eexists.
    - by apply save_encode_fails.
    - by eapply save_write_fails.
    - by eapply save_rename_fails. }
  destruct Hsave as [evs ->]. cbn [completion after].
  cbn [created data indexes dirty set_indexes set_dirty set_data].
  split; [done|]. split; [apply lookup_insert_eq|]. split; [|done].
  apply elem_of_ids_at_foldl_add. right. split; [done|].
  apply elem_of_Object_entries. apply lookup_insert_eq.
Qed.

(** The effects of [load], however it ends. *)
Lemma load_effects o db : effects (load o db) = [ReadFile (path_resolve (schema db))].
Proof.
  unfold load, buildIndexes, bind, this, call, try_catch, perform, assign, throw.
  destruct (fs_readFile o) as [content|e].
  - destruct (msgpack_decode content) as [items|e]; [done|]. by case_decide.
  - by case_decide.
Qed.

Lemma load_keeps_workerPool o : keeps (C:=C) workerPool (load o).
Proof. unfold load, buildIndexes. repeat keeps_step. Qed.
Lemma load_keeps_isInitialized o : keeps (C:=C) isInitialized (load o).
Proof. unfold load, buildIndexes. repeat keeps_step. Qed.
Lemma load_keeps_saveInterval o : keeps (C:=C) saveInterval (load o).
Proof. unfold load, buildIndexes. repeat keeps_step. Qed.

(** [init] on an object that is not initialized, by the end of [load]. *)
Lemma init_runs o db :
  isInitialized db = false →
  ∃ c db1,
    load o (set_workerPool (workerPool db + Nat.max 1 (os_cpus o / 2)) db)
      = mkOutcome c db1 [ReadFile (path_resolve (schema db))] ∧
    workerPool db1 = (workerPool db + Nat.max 1 (os_cpus o / 2))%nat ∧
    isInitialized db1 = false ∧ saveInterval db1 = saveInterval db ∧
    init o db =
    match c with
    | Return _ => mkOutcome (Return tt) (set_isInitialized true db1)
                    [ReadFile (path_resolve (schema db)); SetInterval (saveInterval db)]
    | Throw e => mkOutcome (Throw e) db1 [ReadFile (path_resolve (schema db))]
    end.
Proof.
  intros Hinit.
  set (db0 := set_workerPool (workerPool db + Nat.max 1 (os_cpus o / 2)) db).
  pose proof (load_effects o db0) as He.
  pose proof (load_keeps_workerPool o db0) as Hw.
  pose proof (load_keeps_isInitialized o db0) as Hi.
  pose proof (load_keeps_saveInterval o db0) as Hs.
  destruct (load o db0) as [c db1 evs] eqn:Hload. cbn [effects after] in *. subst evs.
  exists c, db1. split; [done|]. split; [done|]. split; [by rewrite Hi|]. split; [done|].
  destruct c as [[]|e].
  - rewrite (init_load_returns o db _ _ Hinit Hload). by rewrite Hs.
  - by rewrite (init_load_throws o db e _ _ Hinit Hload).
Qed.

(** X18: an [init] that fails leaves the store uninitialized, starts no
    autosave timer, and keeps the workers it has created: every retry adds
    max(1, cpus / 2) workers to the pool. *)
Theorem failed_init_keeps_its_workers o db e :
  isInitialized db = false → completion (init o db) = Throw e →
  isInitialized (after (init o db)) = false ∧
  workerPool (after (init o db)) = (workerPool db + Nat.max 1 (os_cpus o / 2))%nat ∧
  effects (init o db) = [ReadFile (path_resolve (schema db))].
Proof.
  intros Hinit Hthrow.
  destruct (init_runs o db Hinit) as (c & db1 & _ & Hw & Hi & _ & Hrun).
  rewrite Hrun in *. destruct c as [[]|e']; [discriminate|]. done.
Qed.

(** X19: an [init] that succeeds reads the snapshot once, starts one
    autosave timer with the configured period and marks the store
    initialized; any further [init] returns at once, without an effect. *)
Theorem init_runs_once o o' db :
  isInitialized db = false → completion (init o db) = Return tt →
  isInitialized (after (init o db)) = true ∧
  workerPool (after (init o db)) = (workerPool db + Nat.max 1 (os_cpus o / 2))%nat ∧
  effects (init o db)
  = [ReadFile (path_resolve (schema db)); SetInterval (saveInterval db)] ∧
  init o' (after (init o db)) = mkOutcome (Return tt) (after (init o db)) [].
Proof.
  intros Hinit Hret.
  destruct (init_runs o db Hinit) as (c & db1 & _ & Hw & Hi & _ & Hrun).
  rewrite Hrun in *. destruct c as [[]|e']; [|discriminate].
  cbn [after effects isInitialized workerPool set_isInitialized].
  split; [done|]. split; [done|]. split; [done|]. by apply init_initialized.
Qed.
End FurtherPersistence.

(** ** Loading a snapshot and building the index *)

Section FurtherBuild.
Context `{host : Host} {C : Type} `{rc : ResultCache C}.
Implicit Types (db : Database C) (o : Oracle) (obj : Obj) (items : list Obj).

Lemma keyed_snoc items item :
  keyed (items ++ [item]) = <[prop item "id" := item]> (keyed items).
Proof. unfold keyed. by rewrite foldl_snoc. Qed.

Lemma keyed_lookup items id obj :
  keyed items !! id = Some obj → obj ∈ items ∧ prop obj "id" = id.
Proof.
  induction items as [|item items IH] using rev_ind.
  - unfold keyed. cbn. by rewrite lookup_empty.
  - rewrite keyed_snoc, lookup_insert. case_decide as Heq.
    + intros [= <-]. split; [set_solver|done].
    + intros Hl. destruct (IH Hl). split; [set_solver|done].
Qed.

Lemma keyed_covers items item :
  item ∈ items → is_Some (keyed items !! prop item "id").
Proof.
  induction items as [|item' items IH] using rev_ind.
  - intros Hin. by apply elem_of_nil in Hin.
  - rewrite keyed_snoc, lookup_insert. intros Hin. case_decide; [done|].
    apply elem_of_app in Hin as [Hin|Hin]; [by apply IH|].
    apply list_elem_of_singleton in Hin as ->. done.
Qed.

Lemma keyed_last_wins items1 item items2 :
  (∀ later, later ∈ items2 → prop later "id" ≠ prop item "id") →
  keyed (items1 ++ item :: items2) !! prop item "id" = Some item.
Proof.
  induction items2 as [|item' items2 IH] using rev_ind; intros Hlater.
  - rewrite keyed_snoc. apply lookup_insert_eq.
  - rewrite app_comm_cons, app_assoc, keyed_snoc, lookup_insert_ne.
    + apply IH. intros later Hin. apply Hlater. set_solver.
    + apply Hlater. set_solver.
Qed.

(** [load] when the snapshot is read and decoded. *)
Lemma load_decodes o db content items :
  fs_readFile o = Return content → msgpack_decode content = Return items →
  load o db =
  mkOutcome (Return tt)
    (set_indexes (build_indexes_from o (workerPool db) (map_to_list (keyed items)))
       (set_data (keyed items) db))
    [ReadFile (path_resolve (schema db))].
Proof.
  intros Hr Hd. unfold load, buildIndexes, bind, this, call, try_catch, perform, assign.
  rewrite Hr. by rewrite Hd.
Qed.

(** X20: [load] of a snapshot that decodes to records with primitive
    field values, on a pool with at least one worker, returns with the
    records keyed by their [id] field (of two items with one id the later
    one stays) and with an index consistent with them. *)
Theorem load_builds_a_consistent_index o db content items :
  fs_readFile o = Return content → msgpack_decode content = Return items →
  (0 < workerPool db)%nat →
  (∀ item key value, item ∈ items → item !! key = Some value → primitive value = true) →
  completion (load o db) = Return tt ∧
  index_consistent (after (load o db)) ∧
  (∀ id obj, data (after (load o db)) !! id = Some obj → obj ∈ items ∧ prop obj "id" = id) ∧
  (∀ item, item ∈ items → is_Some (data (after (load o db)) !! prop item "id")) ∧
  (∀ items1 item items2,
     items = (items1 ++ item :: items2)%list →
     (∀ later, later ∈ items2 → prop later "id" ≠ prop item "id") →
     data (after (load o db)) !! prop item "id" = Some item).
Proof.
  intros Hr Hd Hw Hprim. rewrite (load_decodes o db content items) by done.
  cbn [completion after]. unfold index_consistent.
  cbn [data indexes set_indexes set_data].
  split; [done|]. split; [|split; [|split]].
  - rewrite build_indexes_from_sequential; [apply sequential_index_consistent|done|].
    intros id obj Hin. apply elem_of_map_to_list, keyed_lookup in Hin as [Hin <-].
    split; [|by eauto]. unfold prop. destruct (obj !! "id") as [v|] eqn:Hid; cbn; [|done].
    by eapply Hprim.
  - apply keyed_lookup.
  - apply keyed_covers.
  - intros items1 item items2 -> Hlater. by apply keyed_last_wins.
Qed.

(** X21: the worker's [buildIndexChunk] files a record's id under each of
    its (field, value) pairs and nothing else: an id set holds exactly the
    ids of the chunk's records with that pair, and only pairs that occur
    have an entry. *)
Theorem buildIndexChunk_files_the_chunk chunk key value :
  (∀ id, id ∈ ids_at (buildIndexChunk chunk) key value ↔
         ∃ obj, (id, obj) ∈ chunk ∧ obj !! key = Some value) ∧
  (is_Some (index_get (buildIndexChunk chunk) key value) ↔
   ∃ id obj, (id, obj) ∈ chunk ∧ obj !! key = Some value).
Proof.
  rewrite buildIndexChunk_sequential. unfold sequential_index. split.
  - intros id. rewrite add_triples_member, elem_of_triples.
    unfold ids_at, index_get. rewrite lookup_empty. cbn. set_solver.
  - rewrite add_triples_has_entry. unfold index_get at 1. rewrite lookup_empty. cbn. split.
    + intros [[? [=]]|[id Hin]]. apply elem_of_triples in Hin. eauto.
    + intros (id & obj & Hin). right. exists id. apply elem_of_triples. eauto.
Qed.

(** X22: merging a worker's index into the index built so far is a union,
    (field, value) by (field, value): every id set becomes the union of the
    two, and no entry is lost. *)
Theorem merge_worker_is_a_union indexes (workerIndexes : Index) key value :
  ids_at (merge_worker indexes (map_to_list workerIndexes)) key value
  = ids_at indexes key value ∪ ids_at workerIndexes key value ∧
  (is_Some (index_get (merge_worker indexes (map_to_list workerIndexes)) key value) ↔
   is_Some (index_get indexes key value) ∨ is_Some (index_get workerIndexes key value)).
Proof.
  split.
  - apply set_eq. intros id. rewrite merge_worker_member, elem_of_union.
    apply or_iff_compat_l. unfold ids_at, index_get. split.
    + intros (vm & ids & Hin & Hv & Hid). apply elem_of_map_to_list in Hin.
      rewrite Hin. cbn. by rewrite Hv.
    + intros Hid. destruct (workerIndexes !! key) as [vm|] eqn:Hk; cbn in Hid; [|set_solver].
      destruct (vm !! value) as [ids|] eqn:Hv; cbn in Hid; [|set_solver].
      exists vm, ids. split; [by apply elem_of_map_to_list|done].
  - rewrite merge_worker_has_entry. apply or_iff_compat_l. unfold index_get. split.
    + intros (vm & Hin & Hv). apply elem_of_map_to_list in Hin. by rewrite Hin.
    + intros Hsome. destruct (workerIndexes !! key) as [vm|] eqn:Hk; cbn in Hsome.
      * exists vm. split; [by apply elem_of_map_to_list|done].
      * by destruct Hsome.
Qed.

Lemma build_indexes_from_chunks o workers dataArray :
  build_indexes_from o workers dataArray
  = foldl merge_worker ∅ (imap (worker_reply o) (chunks_of workers dataArray)).
Proof. reflexivity. Qed.

(** X23: with at least one worker, [buildIndexes] cuts the array into as
    many chunks as there are workers, none longer than
    ceil(length / workers), which put end to end are the array: no record is
    left out and none is sent twice. *)
Theorem chunks_partition_the_array o workers dataArray :
  (0 < workers)%nat →
  build_indexes_from o workers dataArray
  = foldl merge_worker ∅ (imap (worker_reply o) (chunks_of workers dataArray)) ∧
  length (chunks_of workers dataArray) = workers ∧
  concat (chunks_of workers dataArray) = dataArray ∧
  ∀ chunk, chunk ∈ chunks_of workers dataArray →
           (length chunk ≤ ceil_div (length dataArray) workers)%nat.
Proof.
  intros Hw. split; [apply build_indexes_from_chunks|]. unfold chunks_of.
  split; [by rewrite length_fmap, length_seq|]. split; [by apply chunks_cover|].
  intros chunk Hin. apply list_elem_of_fmap in Hin as (i & -> & _).
  unfold slice. rewrite length_take. lia.
Qed.

(** X24: a store constructed and initialized where no snapshot exists
    starts empty, and through every sequence of calls it stays initialized
    with every (field, value) pair of every stored record filed in the
    index. *)
Theorem new_store_stays_complete o e now file options db :
  fs_readFile o = Throw e → err_code e = Some "ENOENT" →
  reachable (after (init o (new_Database now file options))) db →
  data (after (init o (new_Database now file options))) = ∅ ∧
  isInitialized db = true ∧ index_complete (data db) (indexes db).
Proof.
  intros Hr He Hreach.
  rewrite (init_load_returns o (new_Database now file options) _ _ eq_refl
             (load_no_file o _ e Hr He)) in *.
  split; [done|]. eapply reachable_complete; [| |exact Hreach]; [done|].
  apply index_consistent_empty.
Qed.

(** X25: [read] returns the stored records, one for each id, and changes
    nothing. *)
Theorem read_returns_the_store o db :
  isInitialized db = true →
  ∃ results,
    read o db = mkOutcome (Return results) db [] ∧
    length results = size (data db) ∧
    ∀ obj, obj ∈ results ↔ stored db obj.
Proof.
  intros Hinit. exists (map_to_list (data db)).*2.
  split; [by apply read_initialized|].
  split; [by rewrite length_fmap, length_map_to_list|].
  intros obj. rewrite list_elem_of_fmap. unfold stored. split.
  - intros ([id obj'] & -> & Hin). exists id. by apply elem_of_map_to_list.
  - intros [id Hid]. exists (id, obj). split; [done|]. by apply elem_of_map_to_list.
Qed.

(** X26: a tick of the autosave timer saves only a dirty store with no
    save in flight; otherwise it does nothing.  It never changes the records,
    the index or the cache, and when its save gets through the store is
    clean. *)
Theorem autoSave_tick_saves_when_dirty_and_idle o db :
  (dirty db = false ∨ savePromise db = true →
   autoSave_tick o db = mkOutcome (Return tt) db []) ∧
  data (after (autoSave_tick o db)) = data db ∧
  indexes (after (autoSave_tick o db)) = indexes db ∧
  cache (after (autoSave_tick o db)) = cache db ∧
  (dirty db = true → savePromise db = false → save_succeeds o db →
   completion (autoSave_tick o db) = Return tt ∧
   dirty (after (autoSave_tick o db)) = false ∧
   lastSave (after (autoSave_tick o db)) = Date_now o).
Proof.
  split; [|split; [|split; [|split]]].
  - intros Hidle. unfold autoSave_tick, bind, this.
    destruct Hidle as [-> | ->]; [done|]. by rewrite andb_false_r.
  - assert (keeps (C:=C) data (autoSave_tick o)) as Hk; [|apply Hk].
    unfold autoSave_tick. pose proof (save_keeps_data (C:=C) o). repeat keeps_step.
  - assert (keeps (C:=C) indexes (autoSave_tick o)) as Hk; [|apply Hk].
    unfold autoSave_tick. pose proof (save_keeps_indexes (C:=C) o). repeat keeps_step.
  - assert (keeps (C:=C) cache (autoSave_tick o)) as Hk; [|apply Hk].
    unfold autoSave_tick. pose proof (save_keeps_cache (C:=C) o). repeat keeps_step.
  - intros Hd Hsp [[packedData Henc] [Hw Hr]]. unfold autoSave_tick.
    erewrite (bind_run this) by reflexivity. rewrite Hd, Hsp. cbn [andb negb].
    by rewrite (save_completes o db packedData).
Qed.
End FurtherBuild.

(** ** What the calls leave alone *)

Section FurtherFrames.
Context `{host : Host} {C : Type} `{rc : ResultCache C}.
Implicit Types (db : Database C) (o : Oracle) (obj : Obj).

(** X27: on an initialized store the two query methods reach outside
    for nothing and write to no field but the cache: the records, the index
    and the dirty flag are as before.  They throw only what the conversion of
    the cache key throws (the template literal on a value with no primitive
    form, [JSON.stringify] on a query it cannot print), and then they have
    changed nothing at all. *)
Theorem queries_touch_only_the_cache o key value query db :
  isInitialized db = true →
  match String_of value with
  | Return _ => ∃ results cache', findByKey o key value db
                                  = mkOutcome (Return results) (set_cache cache' db) []
  | Throw e => findByKey o key value db = mkOutcome (Throw e) db []
  end ∧
  match JSON_stringify query with
  | Return _ => ∃ results cache', findByQuery o query db
                                  = mkOutcome (Return results) (set_cache cache' db) []
  | Throw e => findByQuery o query db = mkOutcome (Throw e) db []
  end.
Proof.
  intros Hinit. split.
  - destruct (String_of value) as [s|e] eqn:Hs; [|by apply findByKey_key_throws].
    unfold findByKey.
    erewrite bind_run by (by apply init_initialized).
    erewrite bind_run by (unfold call; by rewrite Hs).
    erewrite (bind_run this) by reflexivity.
    erewrite bind_run by reflexivity.
    destruct (cache_get (Date_now o) _ (cache db)).1 as [hit|]; [by eexists _, _|].
    destruct (index_get (indexes db) key value) as [ids|]; by eexists _, _.
  - destruct (JSON_stringify query) as [s|e] eqn:Hs; [|by apply findByQuery_key_throws].
    unfold findByQuery, findByQuery_miss.
    erewrite bind_run by (by apply init_initialized).
    erewrite bind_run by (unfold call; by rewrite Hs).
    erewrite (bind_run this) by reflexivity.
    erewrite bind_run by reflexivity.
    destruct (cache_get (Date_now o) _ (cache db)).1 as [hit|]; [by eexists _, _|].
    erewrite (bind_run this) by reflexivity. cbn [indexes data set_cache].
    destruct (length (Object_keys query) =? 0)%nat; [by eexists _, _|].
    destruct (smallest_matching (indexes db) query (Object_keys query)).1;
      by eexists _, _.
Qed.

(** X28: [update] of a stored id changes the record under that id and no
    other: the ids of the store and its size are the same, and every other
    record is untouched. *)
Theorem update_changes_one_record o id updates db existingObj :
  isInitialized db = true → data db !! id = Some existingObj →
  dom (data (after (update o id updates db))) = dom (data db) ∧
  size (data (after (update o id updates db))) = size (data db) ∧
  ∀ id', id' ≠ id → data (after (update o id updates db)) !! id' = data db !! id'.
Proof.
  intros Hinit Hid. rewrite (update_found o id updates db existingObj) by done.
  cbn [after data set_indexes set_dirty set_data].
  split; [|split].
  - apply dom_insert_lookup_L. eauto.
  - apply map_size_insert_Some. eauto.
  - intros id' Hne. by apply lookup_insert_ne.
Qed.

(** X29: [create] stores the caller's fields as they are, but for [id], and
    leaves every record under another id untouched; given the id of a stored
    record, it replaces that record. *)
Theorem create_stores_the_fields o obj db :
  isInitialized db = true →
  created_obj o obj !! "id" = Some (created_id o obj) ∧
  (∀ key, key ≠ "id" → created_obj o obj !! key = obj !! key) ∧
  data (after (create o obj db)) !! created_id o obj = Some (created_obj o obj) ∧
  (∀ id', id' ≠ created_id o obj → data (after (create o obj db)) !! id' = data db !! id') ∧
  (is_Some (data db !! created_id o obj) →
   size (data (after (create o obj db))) = size (data db)).
Proof.
  intros Hinit. destruct (create_after o obj db Hinit) as [-> _].
  cbn [created data set_indexes set_dirty set_data]. unfold created_obj.
  split; [apply lookup_insert_eq|]. split; [|split; [apply lookup_insert_eq|split]].
  - intros key Hne. by apply lookup_insert_ne.
  - intros id' Hne. by apply lookup_insert_ne.
  - intros Hsome. by apply map_size_insert_Some.
Qed.
End FurtherFrames.

(** * The model run on examples *)

#[local] Existing Instance example_host.
#[local] Existing Instance example_cache.

Lemma example_db_consistent : index_consistent example_db.
Proof. apply index_consistent_empty. Qed.

Lemma db_a_consistent : index_consistent db_a.
Proof.
  apply create_fresh_consistent; [done | by vm_compute | apply example_db_consistent].
Qed.

Lemma db_a_initialized : isInitialized db_a = true.
Proof. by apply create_keeps_initialized. Qed.

Lemma db_cached_initialized : isInitialized db_cached = true.
Proof. apply findByQuery_keeps_store, db_a_initialized. Qed.

Lemma db_ab_complete : index_complete (data db_ab) (indexes db_ab).
Proof.
  apply create_complete; [apply db_cached_initialized|].
  destruct (findByQuery_keeps_store (calm "" 2) query_age db_a db_a_initialized)
    as (Hd & Hi & _).
  unfold db_cached. rewrite Hd, Hi. apply db_a_consistent.
Qed.

Lemma query_age_well_formed : well_formed_query query_age.
Proof.
  split.
  - apply NoDup_singleton.
  - intros key value Hin. apply list_elem_of_singleton in Hin. by injection Hin as -> ->.
Qed.

(** C1 (the index stays consistent under create, update and delete, also
    when [create] is given an id that already names a record): the code
    breaks it.  [create] with the id of a stored record replaces the record
    and files the new entries, but does not unfile the old ones, as [update]
    does.  After creating a record [a] of age 25 and then a record [a] of age
    30, the store holds age 30 at [a] and the index still files [a] under age
    25. *)
Theorem create_existing_id_leaves_stale_entry :
  let db2 := after (create (calm "u2" 2) (record "a" "A" 30) db_a) in
  index_consistent db_a ∧
  data db2 !! VStr "a" = Some (record "a" "A" 30) ∧
  VStr "a" ∈ ids_at (indexes db2) "age" (VNum 25) ∧
  ¬ index_consistent db2.
Proof.
  intros db2.
  assert (Hstale : VStr "a" ∈ ids_at (indexes db2) "age" (VNum 25)).
  { apply (bool_decide_eq_true_1 (VStr "a" ∈ ids_at (indexes db2) "age" (VNum 25))).
    vm_compute. reflexivity. }
  assert (Hdata : data db2 !! VStr "a" = Some (record "a" "A" 30)).
  { vm_compute. reflexivity. }
  split; [apply db_a_consistent|split; [done|split; [done|]]].
  intros [_ Hs]. apply Hs in Hstale as (obj & Hobj & Hage).
  rewrite Hdata in Hobj. injection Hobj as <-.
  assert (Hage' : record "a" "A" 30 !! "age" = Some (VNum 30)) by (vm_compute; reflexivity).
  rewrite Hage' in Hage. clear -Hage. congruence.
Qed.

Lemma example_JSON_returns (query : Query) :
  JSON_stringify query = Return (example_JSON_stringify query).
Proof. reflexivity. Qed.

Lemma example_String_returns (v : Value) : String_of v = Return (example_String_of v).
Proof. reflexivity. Qed.

Lemma db_a_miss_query (query : Query) :
  (cache_get (Date_now (calm "" 2)) ("query:" +:+ example_JSON_stringify query) (cache db_a)).1
  = None.
Proof. reflexivity. Qed.

Lemma db_a_holds_a : data db_a !! VStr "a" = Some (record "a" "A" 25).
Proof. vm_compute. reflexivity. Qed.

(** The record of [db_a] reads, at the field of each of the two queries,
    the value the query asks for, without having the field. *)
Lemma record_a_reads_undefined : satisfies query_nickname (record "a" "A" 25).
Proof.
  intros key value Hkv. apply list_elem_of_singleton in Hkv. injection Hkv as -> ->.
  vm_compute. reflexivity.
Qed.

Lemma record_a_reads_toString : satisfies query_toString (record "a" "A" 25).
Proof.
  intros key value Hkv. apply list_elem_of_singleton in Hkv. injection Hkv as -> ->.
  vm_compute. reflexivity.
Qed.

(** C2 as stated fails.  A cached result is returned as it is: after
    [findByQuery({age: 25})] has cached the one record of age 25, a second
    record of age 25 is created; the same query, asked again within the time
    to live, still returns the first record alone, on an index that files
    both.  And on a miss, a predicate that asks for what a record reads
    without having the field ([undefined] at a missing field, the inherited
    function at [toString]) finds no index entry and returns nothing, while
    the stored record reads exactly that value. *)
Lemma findByQuery_returns_stale_cached_result :
  (isInitialized db_ab = true ∧
   index_complete (data db_ab) (indexes db_ab) ∧
   well_formed_query query_age ∧
   query_age ≠ [] ∧
   ∃ results,
     completion (findByQuery (calm "" 4) query_age db_ab) = Return results ∧
     ¬ exact_answer db_ab query_age results) ∧
  (isInitialized db_a = true ∧
   index_complete (data db_a) (indexes db_a) ∧
   (∃ results,
      completion (findByQuery (calm "" 2) query_nickname db_a) = Return results ∧
      ¬ exact_answer db_a query_nickname results) ∧
   (∃ results,
      completion (findByQuery (calm "" 2) query_toString db_a) = Return results ∧
      ¬ exact_answer db_a query_toString results)).
Proof.
  split.
  - split; [apply create_keeps_initialized, db_cached_initialized|].
    split; [apply db_ab_complete|].
    split; [apply query_age_well_formed|]. split; [done|].
    exists [record "a" "A" 25]. split; [vm_compute; reflexivity|].
    intros Hexact. destruct (Hexact (record "b" "B" 25)) as [_ Hin].
    assert (Hb : record "b" "B" 25 ∈ [record "a" "A" 25]).
    { apply Hin. split.
      - exists (VStr "b"). vm_compute. reflexivity.
      - intros key value Hkv. apply list_elem_of_singleton in Hkv. injection Hkv as -> ->.
        vm_compute. reflexivity. }
    apply list_elem_of_singleton in Hb.
    assert (Ha_id : record "a" "A" 25 !! "id" = Some (VStr "a")) by (vm_compute; reflexivity).
    assert (Hb_id : record "b" "B" 25 !! "id" = Some (VStr "b")) by (vm_compute; reflexivity).
    rewrite Hb in Hb_id. clear -Ha_id Hb_id. congruence.
  - split; [apply db_a_initialized|]. split; [apply db_a_consistent|]. split.
    + exists []. split; [vm_compute; reflexivity|].
      intros Hexact. destruct (Hexact (record "a" "A" 25)) as [_ Hin].
      eapply elem_of_nil, Hin. split; [|apply record_a_reads_undefined].
      exists (VStr "a"). apply db_a_holds_a.
    + exists []. split; [vm_compute; reflexivity|].
      intros Hexact. destruct (Hexact (record "a" "A" 25)) as [_ Hin].
      eapply elem_of_nil, Hin. split; [|apply record_a_reads_toString].
      exists (VStr "a"). apply db_a_holds_a.
Qed.

Lemma findByQuery_exact_on_cache_miss_witness :
  (isInitialized db_a = true ∧
   index_complete (data db_a) (indexes db_a) ∧
   well_formed_query query_age ∧
   ∃ results,
     completion (findByQuery (calm "" 2) query_age db_a) = Return results ∧
     (query_age ≠ [] → exact_answer db_a query_age results) ∧
     (query_age = [] → results = [])) ∧
  completion (findByQuery (calm "" 4) query_age db_ab) = Return [record "a" "A" 25].
Proof.
  split.
  - split; [apply db_a_initialized|]. split; [apply db_a_consistent|].
    split; [apply query_age_well_formed|].
    apply (findByQuery_exact_on_cache_miss (calm "" 2) query_age
             (example_JSON_stringify query_age) db_a db_a_initialized
             (example_JSON_returns query_age)).
    + apply db_a_miss_query.
    + apply db_a_consistent.
    + apply query_age_well_formed.
  - apply (findByQuery_exact_on_cache_miss (calm "" 4) query_age
             (example_JSON_stringify query_age) db_ab).
    + apply create_keeps_initialized, db_cached_initialized.
    + apply example_JSON_returns.
    + vm_compute. reflexivity.
Defined.

(** C3 as stated fails.  On the empty predicate map the loop is not run
    and the result is empty, while the empty conjunction holds of every
    record.  On a predicate that asks for what a record reads without
    having the field, no index entry exists to drive the query, which
    returns nothing, while the naive filter keeps the record. *)
Lemma empty_query_is_not_the_full_filter :
  index_complete (data db_a) (indexes db_a) ∧
  (∃ results,
     completion (findByQuery_miss (calm "" 2) "query:{}" [] db_a) = Return results ∧
     ¬ (results ≡ₚ full_conjunction_filter [] (data db_a))) ∧
  (∃ results,
     completion (findByQuery_miss (calm "" 2) "query:{}" query_nickname db_a)
     = Return results ∧
     ¬ (results ≡ₚ full_conjunction_filter query_nickname (data db_a))) ∧
  (∃ results,
     completion (findByQuery_miss (calm "" 2) "query:{}" query_toString db_a)
     = Return results ∧
     ¬ (results ≡ₚ full_conjunction_filter query_toString (data db_a))).
Proof.
  split; [apply db_a_consistent|]. split; [|split].
  - exists []. split; [vm_compute; reflexivity|].
    intros Hperm. apply Permutation_length in Hperm.
    assert (Hlen : length (full_conjunction_filter [] (data db_a)) = 1%nat)
      by (vm_compute; reflexivity).
    rewrite Hlen in Hperm. discriminate.
  - exists []. split; [vm_compute; reflexivity|].
    intros Hperm. apply Permutation_length in Hperm.
    assert (Hlen : length (full_conjunction_filter query_nickname (data db_a)) = 1%nat)
      by (vm_compute; reflexivity).
    rewrite Hlen in Hperm. discriminate.
  - exists []. split; [vm_compute; reflexivity|].
    intros Hperm. apply Permutation_length in Hperm.
    assert (Hlen : length (full_conjunction_filter query_toString (data db_a)) = 1%nat)
      by (vm_compute; reflexivity).
    rewrite Hlen in Hperm. discriminate.
Qed.

Lemma smallest_set_heuristic_preserves_result_witness :
  query_age ≠ [] ∧
  index_complete (data db_a) (indexes db_a) ∧
  ∃ results,
    completion (findByQuery_miss (calm "" 2) "query:{}" query_age db_a) = Return results ∧
    results ≡ₚ full_conjunction_filter query_age (data db_a).
Proof.
  split; [done|]. split; [apply db_a_consistent|].
  destruct (smallest_set_heuristic_preserves_result (calm "" 2) "query:{}" query_age db_a
              (proj1 db_a_consistent)) as [Hplan _].
  apply Hplan; [done|apply query_age_well_formed].
Defined.

Lemma update_merges_fields_witness :
  data db_a !! VStr "a" = Some (record "a" "A" 25) ∧
  ∃ updatedObj,
    completion (update (calm "" 2) (VStr "a") {["age" := VNum 26]} db_a)
      = Return (Some updatedObj) ∧
    data (after (update (calm "" 2) (VStr "a") {["age" := VNum 26]} db_a)) !! VStr "a"
      = Some updatedObj ∧
    (∀ key value, ({["age" := VNum 26]} : Obj) !! key = Some value →
                  updatedObj !! key = Some value) ∧
    (∀ key, ({["age" := VNum 26]} : Obj) !! key = None →
            updatedObj !! key = record "a" "A" 25 !! key) ∧
    (∀ key, is_Some (record "a" "A" 25 !! key) → is_Some (updatedObj !! key)).
Proof.
  assert (Hid : data db_a !! VStr "a" = Some (record "a" "A" 25)) by (vm_compute; reflexivity).
  split; [exact Hid|].
  exact (update_merges_fields (calm "" 2) (VStr "a") {["age" := VNum 26]} db_a
           (record "a" "A" 25) db_a_initialized Hid).
Defined.

Lemma not_found_changes_nothing_witness :
  data db_a !! VStr "zz" = None ∧
  (completion (update (calm "" 2) (VStr "zz") {["age" := VNum 26]} db_a) = Return None ∧
   after (update (calm "" 2) (VStr "zz") {["age" := VNum 26]} db_a) = db_a) ∧
  (completion (delete_ (calm "" 2) (VStr "zz") db_a) = Return false ∧
   after (delete_ (calm "" 2) (VStr "zz") db_a) = db_a).
Proof.
  assert (Hid : data db_a !! VStr "zz" = None) by (vm_compute; reflexivity).
  split; [exact Hid|].
  exact (not_found_changes_nothing (calm "" 2) (VStr "zz") {["age" := VNum 26]} db_a
           db_a_initialized Hid).
Defined.

Lemma dirty_flag_discipline_witness :
  isInitialized db_a = true ∧ savePromise db_a = false ∧
  save_succeeds (calm "u2" 2) db_a ∧
  completion (save (calm "u2" 2) db_a) = Return tt ∧
  dirty (after (save (calm "u2" 2) db_a)) = false ∧
  lastSave (after (save (calm "u2" 2) db_a)) = 2%Z ∧
  dirty (after (update (calm "u2" 2) (VStr "a") {["age" := VNum 26]} db_a)) = true ∧
  dirty (after (delete_ (calm "u2" 2) (VStr "a") db_a)) = true.
Proof.
  assert (Hsp : savePromise db_a = false) by (vm_compute; reflexivity).
  assert (Hok : save_succeeds (calm "u2" 2) db_a).
  { split; [by exists []|by split]. }
  assert (Hid : is_Some (data db_a !! VStr "a")) by (vm_compute; eauto).
  destruct (dirty_flag_discipline (calm "u2" 2) (record "b" "B" 30) (VStr "a")
              {["age" := VNum 26]} db_a db_a_initialized Hsp)
    as (_ & Hmut & Hsave & _ & _).
  destruct (Hsave Hok) as (Hc & Hd & Hl). destruct (Hmut Hid) as [Hu Hdel].
  split; [apply db_a_initialized|]. split; [exact Hsp|]. split; [exact Hok|].
  split; [exact Hc|]. split; [exact Hd|]. split; [exact Hl|]. split; [exact Hu|exact Hdel].
Defined.

Lemma load_error_behaviour_witness :
  (completion (load (calm "" 0) example_new) = Return tt ∧
   data (after (load (calm "" 0) example_new)) = ∅ ∧
   completion (init (calm "" 0) example_new) = Return tt ∧
   isInitialized (after (init (calm "" 0) example_new)) = true) ∧
  (completion (load denied example_new)
     = Throw (mkError (Some "EACCES") "permission denied") ∧
   completion (init denied example_new)
     = Throw (mkError (Some "EACCES") "permission denied") ∧
   isInitialized (after (init denied example_new)) = false).
Proof.
  split.
  - destruct (load_error_behaviour (calm "" 0) example_new
                (mkError (Some "ENOENT") "no such file or directory")) as [Hno _].
    destruct (Hno eq_refl eq_refl) as (Hc & Hd & Hi).
    destruct (Hi eq_refl) as (Hic & Hii & _).
    split; [exact Hc|]. split; [exact Hd|]. split; [exact Hic|exact Hii].
  - destruct (load_error_behaviour denied example_new
                (mkError (Some "EACCES") "permission denied")) as [_ Hother].
    assert (Hcode : err_code (mkError (Some "EACCES") "permission denied") ≠ Some "ENOENT")
      by discriminate.
    destruct (Hother Hcode (or_introl eq_refl)) as (Hc & Hi).
    destruct (Hi eq_refl) as (Hic & Hii).
    split; [exact Hc|]. split; [exact Hic|exact Hii].
Defined.

(** C8 (the parallel bulk build gives the index of one sequential pass,
    for every record sequence): the code breaks it on a record that holds a
    nested object or array.  The chunk reaches the worker, and the worker's
    index comes back, through [postMessage], which copies objects: the merged
    index files the record under a copy of a copy, at another address, and
    has no entry for the object the record holds.  The sequential pass, and
    [create] on the same record, file it under the object itself, where
    [findByKey] looks it up. *)
Theorem cloned_object_value_is_not_the_sequential_key :
  let bulk := build_indexes_from (calm "" 0) 1 nested_records in
  let db := after (create (calm "" 1) nested_record example_db) in
  index_get bulk "tags" (VObj 0) = None ∧
  VStr "a" ∈ ids_at bulk "tags" (VObj 200) ∧
  VStr "a" ∈ ids_at (sequential_index nested_records) "tags" (VObj 0) ∧
  (data db !! VStr "a" = Some nested_record ∧
   VStr "a" ∈ ids_at (indexes db) "tags" (VObj 0)) ∧
  bulk ≠ sequential_index nested_records.
Proof.
  intros bulk db.
  assert (Hpar : index_get bulk "tags" (VObj 0) = None) by (vm_compute; reflexivity).
  assert (Hseq : VStr "a" ∈ ids_at (sequential_index nested_records) "tags" (VObj 0)).
  { apply (bool_decide_eq_true_1 (VStr "a" ∈ ids_at (sequential_index nested_records)
                                              "tags" (VObj 0))).
    vm_compute. reflexivity. }
  split; [exact Hpar|]. split; [|split; [exact Hseq|split; [split|]]].
  - apply (bool_decide_eq_true_1 (VStr "a" ∈ ids_at bulk "tags" (VObj 200))).
    vm_compute. reflexivity.
  - vm_compute. reflexivity.
  - apply (bool_decide_eq_true_1 (VStr "a" ∈ ids_at (indexes db) "tags" (VObj 0))).
    vm_compute. reflexivity.
  - intros Heq. rewrite <- Heq in Hseq. unfold ids_at in Hseq. rewrite Hpar in Hseq.
    exact (not_elem_of_empty (C:=gset Value) (VStr "a") Hseq).
Qed.

Lemma parallel_build_equals_sequential_witness :
  primitive_records two_records ∧
  build_indexes_from (calm "" 0) 2 two_records = sequential_index two_records ∧
  build_indexes_from (calm "" 0) (Nat.max 1 (os_cpus (calm "" 0) / 2)) two_records
    = sequential_index two_records.
Proof.
  assert (Hprim : primitive_records two_records).
  { apply primitive_records_check. vm_compute. reflexivity. }
  split; [exact Hprim|].
  destruct (parallel_build_equals_sequential (calm "" 0) 2 two_records Hprim) as [Hn Hcpus].
  split; [apply Hn; lia|exact Hcpus].
Defined.

Lemma create_replaces_falsy_id_witness :
  let obj : Obj := <["id" := VNum 0]> (<["name" := VStr "N"]> ∅) in
  isInitialized example_db = true ∧
  truthy (prop obj "id") = false ∧
  data (after (create (calm "u9" 2) obj example_db)) !! VStr "u9"
    = Some (<["id" := VStr "u9"]> obj) ∧
  (completion (create (calm "u9" 2) obj example_db) = Return (<["id" := VStr "u9"]> obj) ∨
   ∃ e, completion (create (calm "u9" 2) obj example_db) = Throw e ∧
        completion (save (calm "u9" 2) (created (calm "u9" 2) obj example_db)) = Throw e).
Proof.
  intros obj.
  assert (Hinit : isInitialized example_db = true) by reflexivity.
  assert (Hid : obj !! "id" = Some (VNum 0)) by (vm_compute; reflexivity).
  destruct (create_replaces_falsy_id (calm "u9" 2) obj example_db Hinit)
    as (Hlisted & Hfalsy & _).
  assert (Hf : truthy (prop obj "id") = false).
  { apply Hlisted. right. right. right. left. exact Hid. }
  split; [exact Hinit|]. split; [exact Hf|]. exact (Hfalsy Hf).
Defined.

(** The examples of the specification. *)
Example query_by_age_finds_both :
  ∃ results,
    completion (findByQuery (calm "" 9) query_age
                  (after (create (calm "u3" 3) (record "b" "B" 25) db_a))) = Return results ∧
    results ≡ₚ [record "a" "A" 25; record "b" "B" 25].
Proof.
  exists [record "a" "A" 25; record "b" "B" 25]. split; [vm_compute; reflexivity|done].
Qed.

Example update_moves_the_index_entry :
  let db := after (update (calm "" 2) (VStr "a") {["age" := VNum 31]} db_a) in
  (VStr "a" ∉ ids_at (indexes db) "age" (VNum 25)) ∧
  (VStr "a" ∈ ids_at (indexes db) "age" (VNum 31)).
Proof.
  intros db. split.
  - apply (bool_decide_eq_false_1 (VStr "a" ∈ ids_at (indexes db) "age" (VNum 25))).
    vm_compute. reflexivity.
  - apply (bool_decide_eq_true_1 (VStr "a" ∈ ids_at (indexes db) "age" (VNum 31))).
    vm_compute. reflexivity.
Qed.

(** ** The further properties on examples *)

Lemma db_a_miss_age :
  (cache_get (Date_now (calm "" 2)) ("age" +:+ ":" +:+ example_String_of (VNum 25))
     (cache db_a)).1
  = None.
Proof. vm_compute. reflexivity. Qed.

Lemma findByKey_exact_on_cache_miss_witness :
  ∃ results,
    completion (findByKey (calm "" 2) "age" (VNum 25) db_a) = Return results ∧
    ∀ obj, obj ∈ results ↔ ∃ id, data db_a !! id = Some obj ∧ obj !! "age" = Some (VNum 25).
Proof.
  exact (findByKey_exact_on_cache_miss (calm "" 2) "age" (VNum 25)
           (example_String_of (VNum 25)) db_a
           db_a_initialized (example_String_returns (VNum 25)) db_a_miss_age db_a_consistent).
Defined.

Lemma findByKey_miss_is_defensive_witness :
  ∃ results,
    completion (findByKey (calm "" 2) "age" (VNum 25) db_a) = Return results ∧
    (∀ obj, obj ∈ results → stored db_a obj) ∧
    (length results ≤ size (ids_at (indexes db_a) "age" (VNum 25)))%nat ∧
    (index_get (indexes db_a) "age" (VNum 25) = None →
     results = [] ∧
     after (findByKey (calm "" 2) "age" (VNum 25) db_a)
     = set_cache (cache_get (Date_now (calm "" 2))
                    ("age" +:+ ":" +:+ example_String_of (VNum 25)) (cache db_a)).2 db_a).
Proof.
  exact (findByKey_miss_is_defensive (calm "" 2) "age" (VNum 25)
           (example_String_of (VNum 25)) db_a
           db_a_initialized (example_String_returns (VNum 25)) db_a_miss_age).
Defined.

Lemma findByQuery_miss_is_sound_witness :
  ∃ results,
    completion (findByQuery (calm "" 2) query_age db_a) = Return results ∧
    ∀ obj, obj ∈ results → stored db_a obj ∧ satisfies query_age obj.
Proof.
  exact (findByQuery_miss_is_sound (calm "" 2) query_age
           (example_JSON_stringify query_age) db_a
           db_a_initialized (example_JSON_returns query_age) (db_a_miss_query query_age)
           (proj1 query_age_well_formed)).
Defined.

Lemma findByQuery_result_bounded_witness :
  ∃ ids results,
    index_get (indexes db_a) "age" (query_prop query_age "age") = Some ids ∧
    completion (findByQuery (calm "" 2) query_age db_a) = Return results ∧
    (length results ≤ size ids)%nat.
Proof.
  assert (Hsome : is_Some (index_get (indexes db_a) "age" (query_prop query_age "age")))
    by (vm_compute; eauto).
  destruct Hsome as [ids Hids]. exists ids.
  assert (Hkey : "age" ∈ Object_keys query_age) by apply list_elem_of_here.
  destruct (findByQuery_result_bounded (calm "" 2) query_age
              (example_JSON_stringify query_age) db_a "age" ids
              db_a_initialized (example_JSON_returns query_age)
              (db_a_miss_query query_age) Hkey Hids)
    as (results & Hc & Hl).
  exists results. split; [exact Hids|]. split; [exact Hc|exact Hl].
Defined.

Lemma query_methods_share_cache_keys_witness :
  completion (findByQuery (calm "" 3) query_age db_cached) = Return [record "a" "A" 25] ∧
  completion (findByKey (calm "" 3) "query" (VStr (example_JSON_stringify query_age))
                db_cached)
  = Return [record "a" "A" 25].
Proof.
  apply (query_methods_share_cache_keys (calm "" 3) query_age
           (example_JSON_stringify query_age) db_cached).
  - apply db_cached_initialized.
  - reflexivity.
  - reflexivity.
  - vm_compute. reflexivity.
Defined.

Lemma findByQuery_NaN_matches_nothing_witness :
  completion (findByQuery (calm "" 2) query_nan db_a) = Return [].
Proof.
  apply (findByQuery_NaN_matches_nothing (calm "" 2) query_nan
           (example_JSON_stringify query_nan) db_a "age").
  - apply db_a_initialized.
  - reflexivity.
  - apply db_a_miss_query.
  - apply list_elem_of_here.
  - reflexivity.
Defined.

Lemma b_is_new_in_db_a : data db_a !! created_id (calm "u2" 2) (record "b" "B" 30) = None.
Proof. vm_compute. reflexivity. Qed.

Lemma create_then_delete_restores_witness :
  completion (delete_ (calm "" 3) (created_id (calm "u2" 2) (record "b" "B" 30))
                (after (create (calm "u2" 2) (record "b" "B" 30) db_a))) = Return true ∧
  data (after (delete_ (calm "" 3) (created_id (calm "u2" 2) (record "b" "B" 30))
                 (after (create (calm "u2" 2) (record "b" "B" 30) db_a)))) = data db_a ∧
  ∀ key value,
    ids_at (indexes (after (delete_ (calm "" 3) (created_id (calm "u2" 2) (record "b" "B" 30))
                              (after (create (calm "u2" 2) (record "b" "B" 30) db_a)))))
           key value
    = ids_at (indexes db_a) key value.
Proof.
  exact (create_then_delete_restores (calm "u2" 2) (calm "" 3) (record "b" "B" 30) db_a
           db_a_initialized b_is_new_in_db_a (proj2 db_a_consistent)).
Defined.

Lemma update_twice_is_update_once_witness :
  completion (update (calm "" 3) (VStr "a") {["age" := VNum 26]}
                (after (update (calm "" 2) (VStr "a") {["age" := VNum 26]} db_a)))
  = completion (update (calm "" 2) (VStr "a") {["age" := VNum 26]} db_a) ∧
  data (after (update (calm "" 3) (VStr "a") {["age" := VNum 26]}
                 (after (update (calm "" 2) (VStr "a") {["age" := VNum 26]} db_a))))
  = data (after (update (calm "" 2) (VStr "a") {["age" := VNum 26]} db_a)) ∧
  ∀ key value,
    ids_at (indexes (after (update (calm "" 3) (VStr "a") {["age" := VNum 26]}
                              (after (update (calm "" 2) (VStr "a") {["age" := VNum 26]} db_a)))))
           key value
    = ids_at (indexes (after (update (calm "" 2) (VStr "a") {["age" := VNum 26]} db_a)))
             key value.
Proof.
  exact (update_twice_is_update_once (calm "" 2) (calm "" 3) (VStr "a") {["age" := VNum 26]}
           db_a db_a_initialized db_a_consistent).
Defined.

Lemma update_with_no_field_witness :
  completion (update (calm "" 2) (VStr "a") ∅ db_a) = Return (Some (record "a" "A" 25)) ∧
  data (after (update (calm "" 2) (VStr "a") ∅ db_a)) = data db_a ∧
  (∀ key value,
     ids_at (indexes (after (update (calm "" 2) (VStr "a") ∅ db_a))) key value
     = ids_at (indexes db_a) key value) ∧
  dirty (after (update (calm "" 2) (VStr "a") ∅ db_a)) = true.
Proof.
  exact (update_with_no_field (calm "" 2) (VStr "a") db_a (record "a" "A" 25)
           db_a_initialized db_a_holds_a (proj1 db_a_consistent)).
Defined.

Lemma update_of_id_field_keeps_the_key_witness :
  ∃ updatedObj,
    data (after (update (calm "" 2) (VStr "a") {["id" := VStr "z"]} db_a)) !! VStr "a"
    = Some updatedObj ∧
    updatedObj !! "id" = Some (VStr "z") ∧
    data (after (update (calm "" 2) (VStr "a") {["id" := VStr "z"]} db_a)) !! VStr "z"
    = data db_a !! VStr "z" ∧
    VStr "a" ∈ ids_at (indexes (after (update (calm "" 2) (VStr "a") {["id" := VStr "z"]} db_a)))
                      "id" (VStr "z").
Proof.
  apply (update_of_id_field_keeps_the_key (calm "" 2) (VStr "a") (VStr "z")
           {["id" := VStr "z"]} db_a (record "a" "A" 25) db_a_initialized db_a_holds_a).
  - reflexivity.
  - discriminate.
Defined.

Lemma delete_removes_one_record_witness :
  completion (delete_ (calm "" 2) (VStr "a") db_a) = Return true ∧
  data (after (delete_ (calm "" 2) (VStr "a") db_a)) !! VStr "a" = None ∧
  (∀ id', id' ≠ VStr "a" →
          data (after (delete_ (calm "" 2) (VStr "a") db_a)) !! id' = data db_a !! id') ∧
  S (size (data (after (delete_ (calm "" 2) (VStr "a") db_a)))) = size (data db_a) ∧
  completion (delete_ (calm "" 3) (VStr "a") (after (delete_ (calm "" 2) (VStr "a") db_a)))
  = Return false ∧
  after (delete_ (calm "" 3) (VStr "a") (after (delete_ (calm "" 2) (VStr "a") db_a)))
  = after (delete_ (calm "" 2) (VStr "a") db_a).
Proof.
  exact (delete_removes_one_record (calm "" 2) (calm "" 3) (VStr "a") db_a
           (record "a" "A" 25) db_a_initialized db_a_holds_a).
Defined.

Lemma db_a_has_age_entry : is_Some (index_get (indexes db_a) "age" (VNum 25)).
Proof. vm_compute. eauto. Qed.

Lemma index_entries_are_never_removed_witness :
  is_Some (index_get (indexes db_a) "age" (VNum 25)) ∧
  is_Some (index_get (indexes (step (calm "" 2) (Delete (VStr "a")) db_a)) "age" (VNum 25)).
Proof.
  split; [exact db_a_has_age_entry|].
  exact (index_entries_are_never_removed (calm "" 2) (Delete (VStr "a")) db_a "age" (VNum 25)
           db_a_initialized db_a_has_age_entry).
Defined.

Lemma calls_keep_index_consistent_witness :
  index_consistent (step (calm "" 2) (Update (VStr "a") {["age" := VNum 26]}) db_a) ∧
  index_consistent (step (calm "u2" 2) (Create (record "b" "B" 30)) db_a).
Proof.
  split.
  - apply (calls_keep_index_consistent (calm "" 2) (Update (VStr "a") {["age" := VNum 26]}) db_a
             db_a_initialized db_a_consistent).
    intros obj Heq. discriminate Heq.
  - apply (calls_keep_index_consistent (calm "u2" 2) (Create (record "b" "B" 30)) db_a
             db_a_initialized db_a_consistent).
    intros obj Heq. injection Heq as <-. exact b_is_new_in_db_a.
Defined.

Lemma create_saves_at_batch_multiples_witness :
  create (calm "u2" 2) (record "b" "B" 30) db_a
  = mkOutcome (Return (created_obj (calm "u2" 2) (record "b" "B" 30)))
      (created (calm "u2" 2) (record "b" "B" 30) db_a) [] ∧
  effects (create (calm "u2" 2) (record "b" "B" 30) example_db_batch1)
  = effects (save (calm "u2" 2) (created (calm "u2" 2) (record "b" "B" 30) example_db_batch1)) ∧
  size (data (created (calm "u2" 2) (record "b" "B" 30) db_a)) = S (size (data db_a)).
Proof.
  destruct (create_saves_at_batch_multiples (calm "u2" 2) (record "b" "B" 30) db_a
              db_a_initialized) as (Hoff & _ & Hsize).
  destruct (create_saves_at_batch_multiples (calm "u2" 2) (record "b" "B" 30) example_db_batch1
              eq_refl) as (_ & Hon & _).
  split; [apply Hoff; vm_compute; reflexivity|].
  split; [apply Hon; vm_compute; reflexivity|].
  apply Hsize. exact b_is_new_in_db_a.
Defined.

Lemma create_throws_after_storing_witness :
  completion (create disk_full (record "b" "B" 30) example_db_batch1)
  = Throw (mkError (Some "ENOSPC") "no space left on device") ∧
  data (after (create disk_full (record "b" "B" 30) example_db_batch1))
    !! created_id disk_full (record "b" "B" 30)
  = Some (created_obj disk_full (record "b" "B" 30)) ∧
  created_id disk_full (record "b" "B" 30)
    ∈ ids_at (indexes (after (create disk_full (record "b" "B" 30) example_db_batch1)))
             "id" (created_id disk_full (record "b" "B" 30)) ∧
  dirty (after (create disk_full (record "b" "B" 30) example_db_batch1)) = true.
Proof.
  apply (create_throws_after_storing disk_full (record "b" "B" 30) example_db_batch1
           (mkError (Some "ENOSPC") "no space left on device")).
  - reflexivity.
  - reflexivity.
  - vm_compute. reflexivity.
  - right. split; [by exists []|by left].
Defined.

Lemma failed_init_keeps_its_workers_witness :
  isInitialized (after (init denied example_new)) = false ∧
  workerPool (after (init denied example_new))
  = (workerPool example_new + Nat.max 1 (os_cpus denied / 2))%nat ∧
  effects (init denied example_new) = [ReadFile (path_resolve (schema example_new))].
Proof.
  apply (failed_init_keeps_its_workers denied example_new
           (mkError (Some "EACCES") "permission denied")).
  - reflexivity.
  - vm_compute. reflexivity.
Defined.

Lemma init_runs_once_witness :
  isInitialized (after (init (calm "" 0) example_new)) = true ∧
  workerPool (after (init (calm "" 0) example_new))
  = (workerPool example_new + Nat.max 1 (os_cpus (calm "" 0) / 2))%nat ∧
  effects (init (calm "" 0) example_new)
  = [ReadFile (path_resolve (schema example_new)); SetInterval (saveInterval example_new)] ∧
  init (calm "" 1) (after (init (calm "" 0) example_new))
  = mkOutcome (Return tt) (after (init (calm "" 0) example_new)) [].
Proof.
  apply (init_runs_once (calm "" 0) (calm "" 1) example_new).
  - reflexivity.
  - vm_compute. reflexivity.
Defined.

Lemma snapshot_items_primitive item key value :
  item ∈ snapshot_items → item !! key = Some value → primitive value = true.
Proof.
  intros Hin Hkv.
  assert (Hall : forallb (λ item : Obj, forallb (λ kv : string * Value, primitive kv.2)
                                           (map_to_list item)) snapshot_items = true)
    by (vm_compute; reflexivity).
  rewrite <- Is_true_true, forallb_True, Forall_forall in Hall.
  specialize (Hall item Hin). rewrite forallb_True, Forall_forall in Hall.
  apply Is_true_true, (Hall (key, value)). by apply elem_of_map_to_list.
Qed.

Lemma load_builds_a_consistent_index_witness :
  completion (load (host:=snapshot_host) readable example_db) = Return tt ∧
  index_consistent (after (load (host:=snapshot_host) readable example_db)) ∧
  data (after (load (host:=snapshot_host) readable example_db)) !! VStr "a"
  = Some (record "a" "A" 30).
Proof.
  destruct (load_builds_a_consistent_index (host:=snapshot_host) readable example_db []
              snapshot_items eq_refl eq_refl ltac:(cbn; lia) snapshot_items_primitive)
    as (Hc & Hcons & _ & _ & Hlast).
  split; [exact Hc|]. split; [exact Hcons|].
  apply (Hlast [record "a" "A" 25; record "b" "B" 25] (record "a" "A" 30) []).
  - reflexivity.
  - intros later Hin. by apply elem_of_nil in Hin.
Defined.

Lemma chunks_partition_the_array_witness :
  build_indexes_from (calm "" 0) 2 two_records
  = foldl merge_worker ∅ (imap (worker_reply (calm "" 0)) (chunks_of 2 two_records)) ∧
  length (chunks_of 2 two_records) = 2%nat ∧
  concat (chunks_of 2 two_records) = two_records ∧
  ∀ chunk, chunk ∈ chunks_of 2 two_records →
           (length chunk ≤ ceil_div (length two_records) 2)%nat.
Proof.
  apply (chunks_partition_the_array (calm "" 0) 2 two_records). lia.
Defined.

Lemma new_store_stays_complete_witness :
  data (after (init (calm "" 0) example_new)) = ∅ ∧
  isInitialized (step (calm "u1" 1) (Create (record "a" "A" 25))
                   (after (init (calm "" 0) example_new))) = true ∧
  index_complete
    (data (step (calm "u1" 1) (Create (record "a" "A" 25))
             (after (init (calm "" 0) example_new))))
    (indexes (step (calm "u1" 1) (Create (record "a" "A" 25))
                (after (init (calm "" 0) example_new)))).
Proof.
  apply (new_store_stays_complete (calm "" 0)
           (mkError (Some "ENOENT") "no such file or directory") 0 "data.msgpack"
           (mkOptions None None None None)).
  - reflexivity.
  - reflexivity.
  - apply reachable_step, reachable_start.
Defined.

Lemma read_returns_the_store_witness :
  ∃ results,
    read (calm "" 2) db_a = mkOutcome (Return results) db_a [] ∧
    length results = size (data db_a) ∧
    ∀ obj, obj ∈ results ↔ stored db_a obj.
Proof. exact (read_returns_the_store (calm "" 2) db_a db_a_initialized). Defined.

Lemma autoSave_tick_saves_when_dirty_and_idle_witness :
  autoSave_tick (calm "" 2) example_db = mkOutcome (Return tt) example_db [] ∧
  completion (autoSave_tick (calm "" 2) db_a) = Return tt ∧
  dirty (after (autoSave_tick (calm "" 2) db_a)) = false ∧
  lastSave (after (autoSave_tick (calm "" 2) db_a)) = 2%Z.
Proof.
  destruct (autoSave_tick_saves_when_dirty_and_idle (calm "" 2) example_db)
    as (Hidle & _).
  destruct (autoSave_tick_saves_when_dirty_and_idle (calm "" 2) db_a)
    as (_ & _ & _ & _ & Hsave).
  split; [apply Hidle; by left|].
  apply Hsave.
  - vm_compute. reflexivity.
  - vm_compute. reflexivity.
  - split; [by exists []|by split].
Defined.

Lemma queries_touch_only_the_cache_witness :
  ((∃ results cache', findByKey (calm "" 2) "age" (VNum 25) db_a
                      = mkOutcome (Return results) (set_cache cache' db_a) []) ∧
   (∃ results cache', findByQuery (calm "" 2) query_age db_a
                      = mkOutcome (Return results) (set_cache cache' db_a) [])) ∧
  (findByKey (host:=opaque_host) (calm "" 2) "tags" (VObj 0) db_a
   = mkOutcome (Throw (mkError None "Cannot convert object to primitive value")) db_a [] ∧
   findByQuery (host:=opaque_host) (calm "" 2) [("tags", VObj 0)] db_a
   = mkOutcome (Throw (mkError None "Converting circular structure to JSON")) db_a []).
Proof.
  split.
  - exact (queries_touch_only_the_cache (calm "" 2) "age" (VNum 25) query_age db_a
             db_a_initialized).
  - exact (queries_touch_only_the_cache (host:=opaque_host) (calm "" 2) "tags" (VObj 0)
             [("tags", VObj 0)] db_a db_a_initialized).
Defined.

Lemma update_changes_one_record_witness :
  dom (data (after (update (calm "" 2) (VStr "a") {["age" := VNum 26]} db_a)))
  = dom (data db_a) ∧
  size (data (after (update (calm "" 2) (VStr "a") {["age" := VNum 26]} db_a)))
  = size (data db_a) ∧
  ∀ id', id' ≠ VStr "a" →
         data (after (update (calm "" 2) (VStr "a") {["age" := VNum 26]} db_a)) !! id'
         = data db_a !! id'.
Proof.
  exact (update_changes_one_record (calm "" 2) (VStr "a") {["age" := VNum 26]} db_a
           (record "a" "A" 25) db_a_initialized db_a_holds_a).
Defined.

Lemma create_stores_the_fields_witness :
  created_obj (calm "u2" 2) (record "b" "B" 30) !! "id"
  = Some (created_id (calm "u2" 2) (record "b" "B" 30)) ∧
  (∀ key, key ≠ "id" →
          created_obj (calm "u2" 2) (record "b" "B" 30) !! key = record "b" "B" 30 !! key) ∧
  data (after (create (calm "u2" 2) (record "b" "B" 30) db_a))
    !! created_id (calm "u2" 2) (record "b" "B" 30)
  = Some (created_obj (calm "u2" 2) (record "b" "B" 30)) ∧
  (∀ id', id' ≠ created_id (calm "u2" 2) (record "b" "B" 30) →
          data (after (create (calm "u2" 2) (record "b" "B" 30) db_a)) !! id'
          = data db_a !! id') ∧
  (is_Some (data db_a !! created_id (calm "u2" 2) (record "b" "B" 30)) →
   size (data (after (create (calm "u2" 2) (record "b" "B" 30) db_a))) = size (data db_a)).
Proof.
  exact (create_stores_the_fields (calm "u2" 2) (record "b" "B" 30) db_a db_a_initialized).
Defined.
